(** * RDC's landscape pricing: the pricing and recommendation core

    A shallow embedding of the pricing engine
    ([backend/src/services/pricingEngine.ts]), of the condition-score table
    ([backend/src/services/aiVision.ts]) and of the upsell engine
    ([backend/src/services/upsellEngine.ts]) of the repository, with the
    properties its specification states about them; and of the aggregation
    of the analyses of four angles (also in [aiVision.ts]), the estimated
    measurements ([backend/src/services/propertyLookup.ts]) and the
    selection of upsells in the quote form ([components/QuoteForm.tsx]),
    with further properties of the code.

    JavaScript numbers are IEEE 754 binary64 values.  They are modelled by
    Rocq's primitive [float], which is the same format with the same
    round-to-nearest-even operations, so every definition below computes the
    very number the TypeScript computes. *)

From Stdlib Require Import ZArith Bool List String Lia.
From Stdlib Require Import Floats.
From Stdlib Require Uint63.
Import ListNotations.

Set Warnings "-inexact-float".

Local Open Scope string_scope.
Local Open Scope float_scope.

(** ** JavaScript numbers and the [Math] builtins the code calls *)

Module JS.

Definition number := float.

(** [ToBoolean] on a number: [0], [-0] and [NaN] are falsy. *)
Definition truthy (x : number) : bool :=
  negb ((x =? 0) || is_nan x).

(** [x || d] where [x] is an optional number ([undefined] is falsy). *)
Definition or_else (x : option number) (d : number) : number :=
  match x with
  | Some v => if truthy v then v else d
  | None => d
  end.

(** [x && k] used as a condition, [x] an optional number. *)
Definition present (x : option number) : bool :=
  match x with
  | Some v => truthy v
  | None => false
  end.

Definition signed_zero (s : bool) : number :=
  if s then neg_zero else zero.

(** The number with the value of the integer [z]; exact for
    [|z| <= 2^53], which is all the two roundings below ever ask for. *)
Definition of_Z (z : Z) : number :=
  match z with
  | Z0 => zero
  | Zpos _ => of_uint63 (Uint63Axioms.of_Z z)
  | Zneg p => - of_uint63 (Uint63Axioms.of_Z (Zpos p))
  end.

(** [Math.round]: the integral number closest to [x], ties towards
    [+Infinity]; [NaN], the infinities and integral numbers are returned
    unchanged; a result of zero keeps the sign of [x].  A finite [x] is
    [M * 2^e] with [M] an integer: for [e < 0] the result is
    [floor (M / 2^-e + 1/2)]. *)
Definition Math_round (x : number) : number :=
  match Prim2SF x with
  | S754_finite s m e =>
      if (0 <=? e)%Z then x
      else
        let M := cond_Zopp s (Zpos m) in
        let q := ((2 * M + 2 ^ (- e)) / 2 ^ (- e + 1))%Z in
        if (q =? 0)%Z then signed_zero s else of_Z q
  | _ => x
  end.

(** [Math.ceil]: the smallest integral number not below [x]. *)
Definition Math_ceil (x : number) : number :=
  match Prim2SF x with
  | S754_finite s m e =>
      if (0 <=? e)%Z then x
      else
        let M := cond_Zopp s (Zpos m) in
        let q := (- ((- M) / 2 ^ (- e)))%Z in
        if (q =? 0)%Z then signed_zero s else of_Z q
  | _ => x
  end.

(** [Math.sqrt] is the correctly rounded square root. *)
Definition Math_sqrt (x : number) : number := sqrt x.

End JS.

Import JS.

(** ** Exceptions

    A TypeScript function either returns a value or throws.  The code throws
    its own [AppError] (message, HTTP status); reading a property of
    [undefined] makes the runtime throw a [TypeError]. *)

Inductive JsError : Type :=
| AppError (message : string) (statusCode : Z)
| TypeError (message : string).

Inductive result (A : Type) : Type :=
| Ok (a : A)
| Throw (e : JsError).

Arguments Ok {A} a.
Arguments Throw {A} e.

Definition bind {A B : Type} (r : result A) (k : A -> result B) : result B :=
  match r with
  | Ok a => k a
  | Throw e => Throw e
  end.

Notation "x <- r ;; k" := (bind r (fun x => k))
  (at level 61, r at next level, right associativity).

(** [new Map(entries).get(k)]: a later entry with the same key replaces an
    earlier one. *)
Fixpoint Map_get {V : Type} (k : string) (entries : list (string * V)) : option V :=
  match entries with
  | [] => None
  | (k', v) :: rest =>
      match Map_get k rest with
      | Some v' => Some v'
      | None => if String.eqb k k' then Some v else None
      end
  end.

(** ** Data model ([backend/src/types/index.ts]) *)

Inductive ServiceType : Type := mowing | cleanup | mulch | softscape | maintenance.

Inductive TierType : Type := grass_roots | premier | total_landscape.

Module GrassHeight.
Inductive t : Type := normal | overgrown | very_overgrown.
End GrassHeight.

Module Level.
Inductive t : Type := light | moderate | heavy.
End Level.

Module BedCondition.
Inductive t : Type := good | needs_work | overgrown.
Definition eqb (a b : t) : bool :=
  match a, b with
  | good, good | needs_work, needs_work | overgrown, overgrown => true
  | _, _ => false
  end.
End BedCondition.

(** [Property]: every field is optional in the interface; the fields the
    pricing core never reads are left out. *)
Record Property : Type := {
  lat : option number;
  lng : option number;
  zipCode : option string;
  lotSizeSqft : option number;
  lawnSqft : option number;
  bedSqft : option number;
  rooflineFt : option number;
  conditionScore : option number;
  grassHeight : option GrassHeight.t;
  bushCount : option number;
  treeCoverage : option Level.t;
  bedCondition : option BedCondition.t
}.

(** A row of the [rate_cards] table.  [base_rate] holds the number that
    [parseFloat(row.base_rate)] yields. *)
Record RateCardRow : Type := {
  service_code : string;
  base_rate : number;
  row_factor : number;
  row_active : bool
}.

Record RateCard : Type := {
  serviceCode : string;
  baseRate : number;
  factor : number;
  active : bool
}.

Record RegionalAdjustmentRow : Type := {
  zip_code : string;
  multiplier : number;
  adj_active : bool
}.

Record Upsell : Type := {
  u_serviceCode : string;
  u_serviceName : string;
  price : number;
  recommended : bool
}.

Record TierQuote : Type := {
  tier : TierType;
  tierName : string;
  annualPrice : number;
  monthlyPrice : number;
  breakdown : list (string * number)
}.

(** ** What the core reads from outside

    The two tables it queries, the environment variables it parses (each
    field is [parseFloat] of the variable, [None] when the variable is unset)
    and the Haversine distance of [propertyLookup.ts], whose trigonometry is
    not modelled: the distance it returns for a latitude and a longitude is
    a parameter. *)
Record World : Type := {
  rate_cards : option (list RateCardRow);
  regional_adjustments : list RegionalAdjustmentRow;
  DEFAULT_REGIONAL_MULTIPLIER : option number;
  SERVICE_AREA_RADIUS_MILES : option number;
  calculateDistanceFromServiceCenter : option number -> option number -> number
}.

(** [supabase.from('rate_cards').select('*').eq('active', true)]: the active
    rows, or no data when the query fails. *)
Definition select_active_rate_cards (w : World) : option (list RateCardRow) :=
  option_map (filter row_active) (rate_cards w).

(** ** The condition-score table ([aiVision.ts]) *)

(** [multipliers[score]]: the keys of the object literal are the numbers 1 to
    5; a number reads the entry whose key it equals, anything else reads
    [undefined]. *)
Definition multipliers : list (number * number) :=
  [(1, 0.9); (2, 1.0); (3, 1.1); (4, 1.25); (5, 1.5)].

Fixpoint index (table : list (number * number)) (key : number) : option number :=
  match table with
  | [] => None
  | (k, v) :: rest => if (key =? k)%float then Some v else index rest key
  end.

Definition conditionScoreToMultiplier (score : number) : number :=
  or_else (index multipliers score) 1.0.

(** ** The pricing engine ([pricingEngine.ts]) *)

Definition loadRateCards (w : World) : result (list RateCard) :=
  match select_active_rate_cards w with
  | None => Throw (AppError "Failed to load pricing data" 500)
  | Some data =>
      Ok (map (fun row => {| serviceCode := service_code row;
                             baseRate := base_rate row;
                             factor := row_factor row;
                             active := row_active row |}) data)
  end.

Definition default_regional_multiplier (w : World) : number :=
  match DEFAULT_REGIONAL_MULTIPLIER w with
  | Some v => v
  | None => 1.0
  end.

(** [.eq('zip_code', zipCode).eq('active', true).single()] reports an error
    unless exactly one row matches. *)
Definition getRegionalMultiplier (w : World) (zip : option string) : number :=
  match zip with
  | None => default_regional_multiplier w
  | Some z =>
      if String.eqb z "" then default_regional_multiplier w
      else
        match filter (fun r => String.eqb (zip_code r) z && adj_active r)
                     (regional_adjustments w) with
        | [r] => multiplier r
        | _ => default_regional_multiplier w
        end
  end.

Definition calculateDistanceMultiplier (w : World) (distanceMiles : number) : number :=
  let maxDistance :=
    match SERVICE_AREA_RADIUS_MILES w with Some v => v | None => 25 end in
  if distanceMiles <=? 10 then 1.0
  else if distanceMiles <=? 20 then 1.05
  else if distanceMiles <=? maxDistance then 1.1
  else 1.2.

(** Reading [rateCard.baseRate] when [rateCard] is [undefined]. *)
Definition deref (rateCard : option RateCard) : result RateCard :=
  match rateCard with
  | Some rc => Ok rc
  | None => Throw (TypeError "Cannot read properties of undefined (reading 'baseRate')")
  end.

Definition calculateMowingCost (lawnSqft : number) (rateCard : option RateCard)
    (multiplier : number) : result number :=
  rc <- deref rateCard ;;
  let baseRate := baseRate rc in
  let visits := factor rc in
  let cost := (lawnSqft / 1000) * baseRate * visits * multiplier in
  Ok (Math_round (cost * 100) / 100).

Definition calculateLeafCleanupCost (lawnSqft : number) (rateCard : option RateCard)
    (multiplier : number) (fullCleanup : bool) : result number :=
  rc <- deref rateCard ;;
  let baseRate := baseRate rc in
  let cleanups := if fullCleanup then factor rc else 1 in
  let cost := (lawnSqft / 1000) * baseRate * cleanups * multiplier in
  Ok (Math_round (cost * 100) / 100).

Definition calculateSeasonalPackageCost (rateCard : option RateCard)
    (multiplier : number) : result number :=
  rc <- deref rateCard ;;
  let cost := baseRate rc * multiplier in
  Ok (Math_round (cost * 100) / 100).

Definition calculateLightsCost (rooflineFt : number) (rateCard : option RateCard)
    (multiplier : number) : result number :=
  rc <- deref rateCard ;;
  let baseRate := baseRate rc in
  let cost := rooflineFt * baseRate * multiplier in
  Ok (Math_round (cost * 100) / 100).

(** The combined multiplier of [calculateAllTiers]. *)
Definition complexityMultiplierOf (property : Property) : number :=
  conditionScoreToMultiplier (or_else (conditionScore property) 3).

Definition totalMultiplierOf (w : World) (property : Property) : number :=
  let regionalMultiplier := getRegionalMultiplier w (zipCode property) in
  let complexityMultiplier := complexityMultiplierOf property in
  let distanceMiles :=
    calculateDistanceFromServiceCenter w (lat property) (lng property) in
  let distanceMultiplier := calculateDistanceMultiplier w distanceMiles in
  regionalMultiplier * complexityMultiplier * distanceMultiplier.

Definition rateCardMapOf (rateCards : list RateCard) : list (string * RateCard) :=
  map (fun rc => (serviceCode rc, rc)) rateCards.

Definition calculateAllTiers (w : World) (property : Property)
    : result (list TierQuote) :=
  rateCards <- loadRateCards w ;;
  let rateCardMap := rateCardMapOf rateCards in
  let totalMultiplier := totalMultiplierOf w property in
  let lawnSqft := or_else (lawnSqft property) 0 in
  let rooflineFt := or_else (rooflineFt property) 0 in
  let mowingCard := Map_get "MOWING_BASE" rateCardMap in
  let leafCard := Map_get "LEAF_CLEANUP" rateCardMap in
  let seasonalCard := Map_get "SEASONAL_PACKAGE" rateCardMap in
  let lightsCard := Map_get "LIGHTS_INSTALL" rateCardMap in
  (* Tier 1: Grass Roots *)
  mowingCost <- calculateMowingCost lawnSqft mowingCard totalMultiplier ;;
  fullLeafCost <- calculateLeafCleanupCost lawnSqft leafCard totalMultiplier true ;;
  let basicLeafCost := fullLeafCost * 0.25 in
  let tier1Annual := mowingCost + basicLeafCost in
  (* Tier 2: Premier Lawn *)
  seasonalCost <- calculateSeasonalPackageCost seasonalCard totalMultiplier ;;
  let tier2Annual := mowingCost + fullLeafCost + seasonalCost in
  (* Tier 3: Total Landscape *)
  lightsCost <- calculateLightsCost rooflineFt lightsCard totalMultiplier ;;
  let tier3Base := tier2Annual + lightsCost in
  let tier3Annual := tier3Base * 1.15 in
  Ok [ {| tier := grass_roots;
          tierName := "Grass Roots";
          annualPrice := Math_round tier1Annual;
          monthlyPrice := Math_round (tier1Annual / 12);
          breakdown := [ ("mowing", Math_round mowingCost);
                         ("leafCleanup", Math_round basicLeafCost) ] |};
       {| tier := premier;
          tierName := "Premier Lawn";
          annualPrice := Math_round tier2Annual;
          monthlyPrice := Math_round (tier2Annual / 12);
          breakdown := [ ("mowing", Math_round mowingCost);
                         ("leafCleanup", Math_round fullLeafCost);
                         ("seasonal", Math_round seasonalCost) ] |};
       {| tier := total_landscape;
          tierName := "Total Landscape";
          annualPrice := Math_round tier3Annual;
          monthlyPrice := Math_round (tier3Annual / 12);
          breakdown := [ ("mowing", Math_round mowingCost);
                         ("leafCleanup", Math_round fullLeafCost);
                         ("seasonal", Math_round seasonalCost);
                         ("lights", Math_round lightsCost);
                         ("premiumMarkup", Math_round (tier3Base * 0.15)) ] |} ].

Definition calculateMulchYardage (bedSqft : number) (depthInches : number) : number :=
  let cubicYards := (bedSqft * depthInches) / 324 in
  Math_ceil (cubicYards * 2) / 2.

(** [baseHours[serviceType]]: the object literal of [estimateLaborHours]. *)
Definition baseHours (lawnSqft : number) (serviceType : ServiceType) : number :=
  match serviceType with
  | mowing => lawnSqft / 5000
  | cleanup => lawnSqft / 2000
  | mulch => lawnSqft / 1000
  | softscape => lawnSqft / 500
  | maintenance => lawnSqft / 3000
  end.

Definition estimateLaborHours (serviceType : ServiceType) (lawnSqft : number)
    (complexityScore : number) : number :=
  let base := or_else (Some (baseHours lawnSqft serviceType)) 2 in
  let complexityFactor := complexityScore / 3 in
  let hours := base * complexityFactor in
  Math_ceil (hours * 2) / 2.

(** ** The upsell engine ([upsellEngine.ts])

    The [description] of an upsell is display text built from the same
    figures; it is left out of [Upsell]. *)

(** [ToNumber] of an optional number: [undefined] becomes [NaN]. *)
Definition num (x : option number) : number :=
  match x with
  | Some v => v
  | None => nan
  end.

(** [property.bedCondition !== 'good'] and [=== 'overgrown']. *)
Definition bedCondition_is (property : Property) (c : BedCondition.t) : bool :=
  match bedCondition property with
  | Some b => BedCondition.eqb b c
  | None => false
  end.

Definition push (upsells : list Upsell) (u : Upsell) : list Upsell :=
  upsells ++ [u].

Section UpsellRules.

Variable property : Property.
Variable tier : TierType.
Variable rateCardMap : list (string * RateCardRow).

(** 1. EDGING *)
Definition rule_edging (upsells : list Upsell) : list Upsell :=
  if present (bedSqft property)
     && (0 <? num (bedSqft property))
     && negb (bedCondition_is property BedCondition.good)
  then
    match Map_get "EDGING" rateCardMap with
    | Some edgingCard =>
        let bedPerimeter := Math_sqrt (num (bedSqft property)) * 4 in
        let price := bedPerimeter * base_rate edgingCard in
        push upsells {| u_serviceCode := "EDGING";
                        u_serviceName := "Professional Bed Edging";
                        price := Math_round price;
                        recommended := true |}
    | None => upsells
    end
  else upsells.

(** 2. BUSH TRIMMING *)
Definition rule_bush_trimming (upsells : list Upsell) : list Upsell :=
  if present (bushCount property) && (5 <? num (bushCount property))
  then
    match Map_get "BUSH_TRIMMING" rateCardMap with
    | Some bushCard =>
        let price := num (bushCount property) * base_rate bushCard in
        push upsells {| u_serviceCode := "BUSH_TRIMMING";
                        u_serviceName := "Seasonal Bush Trimming";
                        price := Math_round price;
                        recommended := bedCondition_is property BedCondition.overgrown |}
    | None => upsells
    end
  else upsells.

(** 3. MULCH INSTALLATION *)
Definition rule_mulch_install (upsells : list Upsell) : list Upsell :=
  if present (bedSqft property)
     && (200 <? num (bedSqft property))
     && negb (bedCondition_is property BedCondition.good)
  then
    match Map_get "MULCH_INSTALL" rateCardMap with
    | Some mulchCard =>
        let cubicYards := calculateMulchYardage (num (bedSqft property)) 3 in
        let price := cubicYards * base_rate mulchCard in
        push upsells {| u_serviceCode := "MULCH_INSTALL";
                        u_serviceName := "Fresh Mulch Installation";
                        price := Math_round price;
                        recommended := bedCondition_is property BedCondition.overgrown |}
    | None => upsells
    end
  else upsells.

(** 4. BED MAINTENANCE *)
Definition rule_bed_maintenance (upsells : list Upsell) : list Upsell :=
  match tier with
  | premier | total_landscape =>
      match Map_get "BED_MAINTENANCE" rateCardMap with
      | Some bedMaintenanceCard =>
          if present (bedSqft property) then
            let bedUnits := num (bedSqft property) / 100 in
            let monthlyPrice := bedUnits * base_rate bedMaintenanceCard in
            let annualPrice := monthlyPrice * 12 in
            push upsells {| u_serviceCode := "BED_MAINTENANCE";
                            u_serviceName := "Monthly Bed Maintenance";
                            price := Math_round annualPrice;
                            recommended := 500 <? num (bedSqft property) |}
          else upsells
      | None => upsells
      end
  | grass_roots => upsells
  end.

(** 5. LEAF CLEANUP UPGRADE *)
Definition rule_leaf_cleanup_upgrade (upsells : list Upsell) : list Upsell :=
  match tier, treeCoverage property with
  | grass_roots, Some Level.heavy =>
      match Map_get "LEAF_CLEANUP" rateCardMap with
      | Some leafCard =>
          if present (lawnSqft property) then
            let upgradePrice :=
              (num (lawnSqft property) / 1000) * base_rate leafCard * 1.5 in
            push upsells {| u_serviceCode := "LEAF_CLEANUP_UPGRADE";
                            u_serviceName := "Full Fall Cleanup Package";
                            price := Math_round upgradePrice;
                            recommended := true |}
          else upsells
      | None => upsells
      end
  | _, _ => upsells
  end.

(** 6. SEASONAL PACKAGE *)
Definition rule_seasonal_package (upsells : list Upsell) : list Upsell :=
  match tier with
  | grass_roots =>
      match Map_get "SEASONAL_PACKAGE" rateCardMap with
      | Some seasonalCard =>
          push upsells {| u_serviceCode := "SEASONAL_PACKAGE";
                          u_serviceName := "Seasonal Care Package";
                          price := Math_round (base_rate seasonalCard);
                          recommended :=
                            match grassHeight property with
                            | Some GrassHeight.overgrown => true
                            | _ => false
                            end |}
      | None => upsells
      end
  | _ => upsells
  end.

(** 7. CHRISTMAS LIGHTS *)
Definition rule_lights (upsells : list Upsell) : list Upsell :=
  match tier with
  | total_landscape => upsells
  | _ =>
      if present (rooflineFt property) then
        match Map_get "LIGHTS_INSTALL" rateCardMap with
        | Some lightsCard =>
            let price := num (rooflineFt property) * base_rate lightsCard in
            push upsells {| u_serviceCode := "LIGHTS_INSTALL";
                            u_serviceName := "Holiday Lights Installation";
                            price := Math_round price;
                            recommended := false |}
        | None => upsells
        end
      else upsells
  end.

End UpsellRules.

Definition generateUpsells (w : World) (property : Property)
    (serviceType : ServiceType) (tier : TierType) : result (list Upsell) :=
  let upsells := [] in
  match select_active_rate_cards w with
  | None => Ok []
  | Some rateCards =>
      let rateCardMap := map (fun rc => (service_code rc, rc)) rateCards in
      let upsells := rule_edging property rateCardMap upsells in
      let upsells := rule_bush_trimming property rateCardMap upsells in
      let upsells := rule_mulch_install property rateCardMap upsells in
      let upsells := rule_bed_maintenance property tier rateCardMap upsells in
      let upsells := rule_leaf_cleanup_upgrade property tier rateCardMap upsells in
      let upsells := rule_seasonal_package property tier rateCardMap upsells in
      let upsells := rule_lights property tier rateCardMap upsells in
      Ok upsells
  end.

(** ** The rest of the pricing engine *)

Record PricingCalculation : Type := {
  basePrice : number;
  complexityMultiplier : number;
  regionalMultiplier : number;
  distanceMiles : number;
  finalAnnualPrice : number;
  finalMonthlyPrice : number
}.

(** [t.tier === tier] *)
Definition TierType_eqb (a b : TierType) : bool :=
  match a, b with
  | grass_roots, grass_roots | premier, premier
  | total_landscape, total_landscape => true
  | _, _ => false
  end.

(** [allTiers.find((t) => t.tier === tier)] *)
Definition find_tier (allTiers : list TierQuote) (wanted : TierType) : option TierQuote :=
  find (fun t => TierType_eqb (tier t) wanted) allTiers.

(** [tier] is an optional argument; a tier name is a non-empty string, so
    [if (tier)] asks whether it was given. *)
Definition calculatePricing (w : World) (property : Property)
    (serviceType : ServiceType) (tier : option TierType)
    : result PricingCalculation :=
  allTiers <- calculateAllTiers w property ;;
  match tier with
  | Some tier =>
      match find_tier allTiers tier with
      | None => Throw (AppError "Invalid tier specified" 400)
      | Some selectedTier =>
          let distanceMiles :=
            calculateDistanceFromServiceCenter w (lat property) (lng property) in
          Ok {| basePrice := annualPrice selectedTier;
                complexityMultiplier :=
                  conditionScoreToMultiplier (or_else (conditionScore property) 3);
                regionalMultiplier := getRegionalMultiplier w (zipCode property);
                distanceMiles := distanceMiles;
                finalAnnualPrice := annualPrice selectedTier;
                finalMonthlyPrice := monthlyPrice selectedTier |}
      end
  | None =>
      match find_tier allTiers premier with
      | Some premierTier =>
          let distanceMiles :=
            calculateDistanceFromServiceCenter w (lat property) (lng property) in
          Ok {| basePrice := annualPrice premierTier;
                complexityMultiplier :=
                  conditionScoreToMultiplier (or_else (conditionScore property) 3);
                regionalMultiplier := getRegionalMultiplier w (zipCode property);
                distanceMiles := distanceMiles;
                finalAnnualPrice := annualPrice premierTier;
                finalMonthlyPrice := monthlyPrice premierTier |}
      | None =>
          Throw (TypeError "Cannot read properties of undefined (reading 'annualPrice')")
      end
  end.

Definition determineCrewSize (serviceType : ServiceType) (lawnSqft : number) : number :=
  if lawnSqft <? 5000 then 2
  else if lawnSqft <? 15000 then 3
  else 4.

(** ** The materials list ([upsellEngine.ts]) *)

Record MaterialItem : Type := {
  item : string;
  quantity : number;
  unit : string
}.

(** [materials.push(...items)] *)
Definition push_items (materials items : list MaterialItem) : list MaterialItem :=
  (materials ++ items)%list.

(** [selectedUpsells.includes(code)] *)
Definition includes (selectedUpsells : list string) (code : string) : bool :=
  existsb (String.eqb code) selectedUpsells.

Definition generateMaterialsList (property : Property) (serviceType : ServiceType)
    (selectedUpsells : list string) : list MaterialItem :=
  let materials := [] in
  let materials :=
    match serviceType with
    | mowing =>
        push_items materials
        [ {| item := "Premium Gasoline"; quantity := 5; unit := "gallons" |};
          {| item := "Trimmer Line"; quantity := 1; unit := "spool" |};
          {| item := "Mower Blades (replacement)"; quantity := 2; unit := "blades" |} ]
    | _ => materials
    end in
  let materials :=
    match serviceType with
    | cleanup =>
        let leafBags := Math_ceil (or_else (lawnSqft property) 5000 / 1000) in
        push_items materials
        [ {| item := "Heavy-duty Leaf Bags"; quantity := leafBags * 10; unit := "bags" |};
          {| item := "Debris Tarps"; quantity := 2; unit := "tarps" |} ]
    | _ => materials
    end in
  let materials :=
    if match serviceType with mulch => true | _ => false end
       || includes selectedUpsells "MULCH_INSTALL"
    then
      let cubicYards := calculateMulchYardage (or_else (bedSqft property) 500) 3 in
      push_items materials
      [ {| item := "Premium Hardwood Mulch"; quantity := cubicYards;
           unit := "cubic yards" |};
        {| item := "Landscape Fabric (optional)"; quantity := 1; unit := "roll" |};
        {| item := "Bed Edging Material"; quantity := 50; unit := "linear feet" |} ]
    else materials in
  let materials :=
    if includes selectedUpsells "BUSH_TRIMMING"
    then push_items materials
         [ {| item := "Hedge Trimmer Fuel Mix"; quantity := 2; unit := "quarts" |} ]
    else materials in
  let materials :=
    if includes selectedUpsells "SEASONAL_PACKAGE"
    then push_items materials
         [ {| item := "Lawn Fertilizer (22-0-10)"; quantity := 4; unit := "bags" |};
           {| item := "Core Aeration (equipment rental)"; quantity := 1;
              unit := "day" |} ]
    else materials in
  let materials :=
    if includes selectedUpsells "LIGHTS_INSTALL"
    then
      let rooflineFt := or_else (rooflineFt property) 100 in
      push_items materials
      [ {| item := "LED Christmas Lights"; quantity := Math_ceil (rooflineFt / 25);
           unit := "strands (25ft)" |};
        {| item := "Light Clips"; quantity := rooflineFt; unit := "clips" |};
        {| item := "Extension Cords"; quantity := 3; unit := "cords" |};
        {| item := "Outdoor Timers"; quantity := 2; unit := "timers" |} ]
    else materials in
  materials.

(** ** Aggregating the analyses of four angles ([aiVision.ts]) *)

Module Amount.

Inductive t : Type := minimal | moderate | heavy.

Definition eqb (a b : t) : bool :=
  match a, b with
  | minimal, minimal | moderate, moderate | heavy, heavy => true
  | _, _ => false
  end.

End Amount.

Module PropertyCondition.

Record t : Type := {
  conditionScore : option number;
  grassHeight : option GrassHeight.t;
  bushCount : option number;
  treeCoverage : option Level.t;
  debrisLevel : option Amount.t;
  leafVolume : option Amount.t;
  bedCondition : option BedCondition.t
}.

End PropertyCondition.

Definition GrassHeight_eqb (a b : GrassHeight.t) : bool :=
  match a, b with
  | GrassHeight.normal, GrassHeight.normal
  | GrassHeight.overgrown, GrassHeight.overgrown
  | GrassHeight.very_overgrown, GrassHeight.very_overgrown => true
  | _, _ => false
  end.

Definition Level_eqb (a b : Level.t) : bool :=
  match a, b with
  | Level.light, Level.light | Level.moderate, Level.moderate
  | Level.heavy, Level.heavy => true
  | _, _ => false
  end.

(** [Math.max(...values)]: [-Infinity] to start with; a [NaN] argument makes
    the result [NaN]; [+0] is larger than [-0]. *)
Fixpoint max_from (highest : number) (values : list number) : number :=
  match values with
  | [] => highest
  | value :: rest =>
      if is_nan value then nan
      else if Leibniz.eqb value zero && Leibniz.eqb highest neg_zero
      then max_from value rest
      else if highest <? value then max_from value rest
      else max_from highest rest
  end.

Definition Math_max (values : list number) : number := max_from neg_infinity values.

(** [analyses.find(a => a.field === v)?.field]: [v] when an analysis has it. *)
Definition find_field {A B : Type} (field : A -> option B) (eqb : B -> B -> bool)
    (v : B) (analyses : list A) : option B :=
  match find (fun a => match field a with
                       | Some x => eqb x v
                       | None => false
                       end) analyses with
  | Some a => field a
  | None => None
  end.

(** [x || d] on an optional string: a defined one is not empty here. *)
Definition or_default {B : Type} (x : option B) (d : B) : B :=
  match x with
  | Some v => v
  | None => d
  end.

Definition headings : list number := [0; 90; 180; 270].

(** The analyses that did not throw, in order. *)
Definition fulfilled {A : Type} (outcomes : list (result A)) : list A :=
  flat_map (fun r => match r with Ok a => [a] | Throw _ => [] end) outcomes.

(** The street-view URL is made of [lat], [lng] and the heading; what the
    vision model answers for it is a parameter. *)
Definition analyzePropertyMultiAngle
    (analyzePropertyCondition : number -> number -> number -> result PropertyCondition.t)
    (lat lng : number) : result PropertyCondition.t :=
  let analyses := fulfilled (map (analyzePropertyCondition lat lng) headings) in
  match analyses with
  | [] => Throw (AppError "Failed to analyze property from any angle" 500)
  | _ =>
      Ok {| PropertyCondition.conditionScore :=
              Some (Math_max (map (fun a => or_else (PropertyCondition.conditionScore a) 3)
                                  analyses));
            PropertyCondition.bushCount :=
              Some (Math_round
                      (fold_left (fun sum a => sum + or_else (PropertyCondition.bushCount a) 0)
                                 analyses 0
                       / of_Z (Z.of_nat (List.length analyses))));
            PropertyCondition.grassHeight :=
              Some (or_default
                      (find_field PropertyCondition.grassHeight GrassHeight_eqb
                                  GrassHeight.very_overgrown analyses)
                   (or_default
                      (find_field PropertyCondition.grassHeight GrassHeight_eqb
                                  GrassHeight.overgrown analyses)
                      GrassHeight.normal));
            PropertyCondition.treeCoverage :=
              Some (or_default
                      (find_field PropertyCondition.treeCoverage Level_eqb
                                  Level.heavy analyses)
                   (or_default
                      (find_field PropertyCondition.treeCoverage Level_eqb
                                  Level.moderate analyses)
                      Level.light));
            PropertyCondition.debrisLevel :=
              Some (or_default
                      (find_field PropertyCondition.debrisLevel Amount.eqb
                                  Amount.heavy analyses)
                   (or_default
                      (find_field PropertyCondition.debrisLevel Amount.eqb
                                  Amount.moderate analyses)
                      Amount.minimal));
            PropertyCondition.leafVolume :=
              Some (or_default
                      (find_field PropertyCondition.leafVolume Amount.eqb
                                  Amount.heavy analyses)
                   (or_default
                      (find_field PropertyCondition.leafVolume Amount.eqb
                                  Amount.moderate analyses)
                      Amount.minimal));
            PropertyCondition.bedCondition :=
              Some (or_default
                      (find_field PropertyCondition.bedCondition BedCondition.eqb
                                  BedCondition.overgrown analyses)
                   (or_default
                      (find_field PropertyCondition.bedCondition BedCondition.eqb
                                  BedCondition.needs_work analyses)
                      BedCondition.good)) |}
  end.

(** The condition [analyzePropertyCondition] falls back on when the vision
    call fails. *)
Definition default_condition : PropertyCondition.t :=
  {| PropertyCondition.conditionScore := Some 3;
     PropertyCondition.grassHeight := Some GrassHeight.normal;
     PropertyCondition.bushCount := Some 5;
     PropertyCondition.treeCoverage := Some Level.moderate;
     PropertyCondition.debrisLevel := Some Amount.minimal;
     PropertyCondition.leafVolume := Some Amount.minimal;
     PropertyCondition.bedCondition := Some BedCondition.good |}.

(** [analyzePropertyCondition] for the street-view URL of a heading.  Its
    [try] block, the call of the vision model and the parsing of the
    answer, is the parameter [vision]: it gives the analysis or throws.
    The function copies the seven fields of the analysis; whatever is
    thrown it catches, and returns the default condition. *)
Definition analyzePropertyCondition
    (vision : number -> number -> number -> result PropertyCondition.t)
    (lat lng heading : number) : result PropertyCondition.t :=
  match vision lat lng heading with
  | Ok analysis =>
      Ok {| PropertyCondition.conditionScore :=
              PropertyCondition.conditionScore analysis;
            PropertyCondition.grassHeight := PropertyCondition.grassHeight analysis;
            PropertyCondition.bushCount := PropertyCondition.bushCount analysis;
            PropertyCondition.treeCoverage := PropertyCondition.treeCoverage analysis;
            PropertyCondition.debrisLevel := PropertyCondition.debrisLevel analysis;
            PropertyCondition.leafVolume := PropertyCondition.leafVolume analysis;
            PropertyCondition.bedCondition := PropertyCondition.bedCondition analysis |}
  | Throw _ => Ok default_condition
  end.

(** ** Estimated measurements ([propertyLookup.ts]) *)

Module SlopeGrade.

Inductive t : Type := flat | moderate | steep.

End SlopeGrade.

Module PropertyMeasurements.

Record t : Type := {
  lotSizeSqft : option number;
  lawnSqft : option number;
  bedSqft : option number;
  drivewaySquft : option number;
  walkwayLinearFt : option number;
  rooflineFt : option number;
  slopeGrade : option SlopeGrade.t
}.

End PropertyMeasurements.

Definition estimateLawnArea (lotSizeSqft : number) : PropertyMeasurements.t :=
  let buildingFootprintRatio := 0.18 in
  let hardscapeRatio := 0.12 in
  let bedAreaRatio := 0.10 in
  let buildingSqft := Math_round (lotSizeSqft * buildingFootprintRatio) in
  let drivewaySquft := Math_round (lotSizeSqft * hardscapeRatio) in
  let bedSqft := Math_round (lotSizeSqft * bedAreaRatio) in
  let lawnSqft :=
    Math_round (lotSizeSqft - buildingSqft - drivewaySquft - bedSqft) in
  let buildingSide := Math_sqrt buildingSqft in
  let rooflineFt := Math_round (buildingSide * 4) in
  let walkwayLinearFt := Math_round (50 + (lotSizeSqft / 1000) * 5) in
  {| PropertyMeasurements.lotSizeSqft := Some lotSizeSqft;
     PropertyMeasurements.lawnSqft := Some lawnSqft;
     PropertyMeasurements.bedSqft := Some bedSqft;
     PropertyMeasurements.drivewaySquft := Some drivewaySquft;
     PropertyMeasurements.rooflineFt := Some rooflineFt;
     PropertyMeasurements.walkwayLinearFt := Some walkwayLinearFt;
     PropertyMeasurements.slopeGrade := Some SlopeGrade.flat |}.

(** ** The quote form ([QuoteForm.tsx]) *)

(** The fields of a quote that the form reads. *)
Module Quote.

Record t : Type := {
  finalAnnualPrice : number;
  finalMonthlyPrice : number
}.

End Quote.

(** The state update of [toggleUpsell]: from the previous selection to the
    next. *)
Definition toggleUpsell (prev : list string) (serviceCode : string) : list string :=
  if includes prev serviceCode
  then filter (fun code => negb (String.eqb code serviceCode)) prev
  else (prev ++ [serviceCode])%list.

Definition calculateTotal (quote : option Quote.t) (upsells : list Upsell)
    (selectedUpsells : list string) : number :=
  match quote with
  | None => 0
  | Some quote =>
      let basePrice := Quote.finalAnnualPrice quote in
      let upsellsTotal :=
        fold_left (fun sum u => sum + price u)
          (filter (fun u => includes selectedUpsells (u_serviceCode u)) upsells) 0 in
      basePrice + upsellsTotal
  end.

(** * Binary64 numbers that are not negative

    The value of such a number, infinity included, is an integer number of
    units of [2^-2148]; rounding to nearest-even, and the rounding of
    [Math.round], are functions on these integers. *)

Module Binary64.

Local Open Scope Z_scope.

(** Round to nearest, ties to even, of [X / 2^n]. *)
Definition rne (X n : Z) : Z :=
  let q := X / 2 ^ n in
  match 2 * (X mod 2 ^ n) ?= 2 ^ n with
  | Lt => q
  | Eq => if Z.even q then q else q + 1
  | Gt => q + 1
  end.

(** The unit: values are counted in units of [2^-scale], which is below
    half the smallest subnormal number. *)
Definition scale : Z := 2148.

(** The value that stands for [+Infinity]: [2^1024]. *)
Definition top : Z := 2 ^ (1024 + scale).

(** The value of a number that is not negative; zero for the others. *)
Definition val (x : spec_float) : Z :=
  match x with
  | S754_finite false m e => Zpos m * 2 ^ (e + scale)
  | S754_infinity false => top
  | _ => 0
  end.

(** Zero of either sign, a positive finite number or [+Infinity]. *)
Definition nonnegSF (x : spec_float) : bool :=
  match x with
  | S754_zero _ | S754_infinity false | S754_finite false _ _ => true
  | _ => false
  end.

(** The exponent of the unit in the last place of the binade of [X]. *)
Definition nexp (X : Z) : Z := Z.max (Z.log2 X - 52) 1074.

(** [X] rounded to 53 significant bits, before overflow. *)
Definition out (X : Z) : Z := rne X (nexp X) * 2 ^ nexp X.

(** [X] rounded to binary64: what overflows becomes [+Infinity]. *)
Definition rnd (X : Z) : Z := Z.min (out X) top.

(** The value of a primitive float. *)
Definition fval (x : float) : Z := val (Prim2SF x).

(** A primitive float that is not negative, and not NaN. *)
Definition nn (x : float) : Prop := nonnegSF (Prim2SF x) = true.

(** Round half up, on values. *)
Definition rh (V : Z) : Z := (2 * V + 2 ^ scale) / 2 ^ (scale + 1) * 2 ^ scale.

(** Round half up, in whole units. *)
Definition half_up (V : Z) : Z := (2 * V + 2 ^ scale) / 2 ^ (scale + 1).

(** [V] is a multiple of the unit in the last place of its binade: the
    values of binary64 numbers are such. *)
Definition repr (V : Z) : Prop := V mod 2 ^ nexp V = 0.

(** Half the unit in the last place of a number below [2^44]. *)
Definition eps : Z := 2 ^ (scale - 9).

(** Round to nearest, ties to even, of [N / M]. *)
Definition rne_div (N M : Z) : Z :=
  let q := N / M in
  match 2 * (N mod M) ?= M with
  | Lt => q
  | Eq => if Z.even q then q else q + 1
  | Gt => q + 1
  end.

(** The quotient [N / D] rounded to 53 significant bits, before overflow,
    and rounded to binary64. *)
Definition outq (N D : Z) : Z :=
  rne_div N (D * 2 ^ nexp (N / D)) * 2 ^ nexp (N / D).

Definition rndq (N D : Z) : Z := Z.min (outq N D) top.

(** The shift record that stands for [N / M]: its integer part, whether
    the rest is a half at least, and whether it is neither zero nor a
    half. *)
Definition rec_of (N M : Z) : shr_record :=
  {| shr_m := N / M;
     shr_r := M <=? 2 * (N mod M);
     shr_s := negb ((N mod M =? 0) || (2 * (N mod M) =? M)) |}.

(** Round up, in whole units. *)
Definition up (V : Z) : Z := - (- V / 2 ^ scale).

End Binary64.

Import Binary64.

(** * Catalogs, scenarios and the predicates of the statements *)

(** ** Catalogs *)

(** The catalog has an active entry for [code]. *)
Definition has_active (code : string) (rows : list RateCardRow) : Prop :=
  exists r, In r rows /\ service_code r = code /\ row_active r = true.

Definition has_activeb (code : string) (rows : list RateCardRow) : bool :=
  existsb (fun r => String.eqb (service_code r) code && row_active r) rows.

Definition required_codes : list string :=
  ["MOWING_BASE"; "LEAF_CLEANUP"; "SEASONAL_PACKAGE"; "LIGHTS_INSTALL"].

(** The card that [loadRateCards] makes of a row. *)
Definition card_of_row (row : RateCardRow) : RateCard :=
  {| serviceCode := service_code row;
     baseRate := base_rate row;
     factor := row_factor row;
     active := row_active row |}.

(** The catalog has an active entry for each code the tier calculator reads. *)
Definition catalog_complete (w : World) : Prop :=
  exists rows, rate_cards w = Some rows
               /\ Forall (fun code => has_active code rows) required_codes.

(** [m], [f], [s] and [l] are the mowing, full leaf cleanup, seasonal and
    lights costs that [calculateAllTiers] computes for [property]. *)
Definition component_costs (w : World) (property : Property)
    (m f s l : number) : Prop :=
  exists rateCards,
    loadRateCards w = Ok rateCards
    /\ calculateMowingCost (or_else (lawnSqft property) 0)
         (Map_get "MOWING_BASE" (rateCardMapOf rateCards))
         (totalMultiplierOf w property) = Ok m
    /\ calculateLeafCleanupCost (or_else (lawnSqft property) 0)
         (Map_get "LEAF_CLEANUP" (rateCardMapOf rateCards))
         (totalMultiplierOf w property) true = Ok f
    /\ calculateSeasonalPackageCost
         (Map_get "SEASONAL_PACKAGE" (rateCardMapOf rateCards))
         (totalMultiplierOf w property) = Ok s
    /\ calculateLightsCost (or_else (rooflineFt property) 0)
         (Map_get "LIGHTS_INSTALL" (rateCardMapOf rateCards))
         (totalMultiplierOf w property) = Ok l.

(** The seed rows of [database/schema.sql]. *)
Definition seed_row (code : string) (rate fac : number) : RateCardRow :=
  {| service_code := code; base_rate := rate; row_factor := fac; row_active := true |}.

Definition seed_rate_cards : list RateCardRow :=
  [ seed_row "MOWING_BASE" 4.50 30;
    seed_row "LEAF_CLEANUP" 6.00 2;
    seed_row "LIGHTS_INSTALL" 3.00 1;
    seed_row "SEASONAL_PACKAGE" 650.00 1;
    seed_row "MULCH_INSTALL" 95.00 1;
    seed_row "EDGING" 2.50 1;
    seed_row "BUSH_TRIMMING" 15.00 1;
    seed_row "BED_MAINTENANCE" 25.00 12 ].

Definition seed_regional_adjustments : list RegionalAdjustmentRow :=
  [ {| zip_code := "45247"; multiplier := 1.05; adj_active := true |};
    {| zip_code := "45242"; multiplier := 0.95; adj_active := true |};
    {| zip_code := "45243"; multiplier := 1.00; adj_active := true |};
    {| zip_code := "45244"; multiplier := 1.00; adj_active := true |} ].

(** A world with the given catalog, the seed adjustments, no environment
    override, and every property [miles] away from the service center. *)
Definition world_of (rows : option (list RateCardRow)) (miles : number) : World :=
  {| rate_cards := rows;
     regional_adjustments := seed_regional_adjustments;
     DEFAULT_REGIONAL_MULTIPLIER := None;
     SERVICE_AREA_RADIUS_MILES := None;
     calculateDistanceFromServiceCenter := fun _ _ => miles |}.

Definition seed_world : World := world_of (Some seed_rate_cards) 8.

(** The property of the specification's end-to-end scenario. *)
Definition scenario_property : Property :=
  {| lat := Some 39.2; lng := Some (-84.6); zipCode := Some "45247";
     lotSizeSqft := None; lawnSqft := Some 10000; bedSqft := Some 600;
     rooflineFt := Some 150; conditionScore := Some 4;
     grassHeight := Some GrassHeight.normal; bushCount := Some 8;
     treeCoverage := Some Level.moderate;
     bedCondition := Some BedCondition.overgrown |}.

(** The error kinds the repository defines for its callers are [AppError]s;
    a [TypeError] is the runtime's own. *)
Definition is_AppError (e : JsError) : bool :=
  match e with
  | AppError _ _ => true
  | TypeError _ => false
  end.

(** The seed catalog without its LIGHTS_INSTALL row. *)
Definition catalog_without_lights : list RateCardRow :=
  filter (fun r => negb (String.eqb (service_code r) "LIGHTS_INSTALL")) seed_rate_cards.

(** [score] is one of the five keys of the table. *)
Definition in_table (score : number) : bool :=
  existsb (fun k => score =? k) [1; 2; 3; 4; 5].

(** A property nothing is known about. *)
Definition blank_property : Property :=
  {| lat := None; lng := None; zipCode := None; lotSizeSqft := None;
     lawnSqft := None; bedSqft := None; rooflineFt := None;
     conditionScore := None; grassHeight := None; bushCount := None;
     treeCoverage := None; bedCondition := None |}.

(** The scenario property with another lawn. *)
Definition with_lawn (property : Property) (sqft : number) : Property :=
  {| lat := lat property; lng := lng property; zipCode := zipCode property;
     lotSizeSqft := lotSizeSqft property; lawnSqft := Some sqft;
     bedSqft := bedSqft property; rooflineFt := rooflineFt property;
     conditionScore := conditionScore property;
     grassHeight := grassHeight property; bushCount := bushCount property;
     treeCoverage := treeCoverage property;
     bedCondition := bedCondition property |}.

(** The square feet one hour covers, per service type. *)
Definition sqftPerHour (serviceType : ServiceType) : number :=
  match serviceType with
  | mowing => 5000
  | cleanup => 2000
  | mulch => 1000
  | softscape => 500
  | maintenance => 3000
  end.

(** The world with another [rate_cards] table. *)
Definition with_rate_cards (w : World) (rows : option (list RateCardRow)) : World :=
  {| rate_cards := rows;
     regional_adjustments := regional_adjustments w;
     DEFAULT_REGIONAL_MULTIPLIER := DEFAULT_REGIONAL_MULTIPLIER w;
     SERVICE_AREA_RADIUS_MILES := SERVICE_AREA_RADIUS_MILES w;
     calculateDistanceFromServiceCenter := calculateDistanceFromServiceCenter w |}.

(** The catalog without the rows of [code]. *)
Definition without_code (code : string) (rows : list RateCardRow) : list RateCardRow :=
  filter (fun r => negb (String.eqb (service_code r) code)) rows.

(** The rate card an upsell is priced from: its own service code, except
    for the leaf cleanup upgrade, which reads LEAF_CLEANUP. *)
Definition priced_from (u : Upsell) : string :=
  if String.eqb (u_serviceCode u) "LEAF_CLEANUP_UPGRADE" then "LEAF_CLEANUP"
  else u_serviceCode u.

(** The list has a recommended upsell of the given service code. *)
Definition recommends (upsells : list Upsell) (code : string) : Prop :=
  exists u, In u upsells /\ u_serviceCode u = code /\ recommended u = true.

Definition upsellMapOf (rateCards : list RateCardRow) : list (string * RateCardRow) :=
  map (fun rc => (service_code rc, rc)) rateCards.

Definition scenario_upsell_codes : list string :=
  ["EDGING"; "BUSH_TRIMMING"; "MULCH_INSTALL"; "BED_MAINTENANCE"].

(** The upsells that are not priced from the card [code]. *)
Definition not_priced_from (code : string) (upsells : list Upsell) : list Upsell :=
  filter (fun u => negb (String.eqb (priced_from u) code)) upsells.

(** The sum of the line items of a tier's breakdown. *)
Definition breakdown_total (t : TierQuote) : number :=
  fold_left add (map snd (breakdown t)) 0.

(** The scenario property with a small lawn, a 124 ft roofline and an
    average condition. *)
Definition small_property : Property :=
  {| lat := Some 39.2; lng := Some (-84.6); zipCode := Some "45247";
     lotSizeSqft := None; lawnSqft := Some 1050; bedSqft := Some 600;
     rooflineFt := Some 124; conditionScore := Some 3;
     grassHeight := Some GrassHeight.normal; bushCount := Some 8;
     treeCoverage := Some Level.moderate;
     bedCondition := Some BedCondition.overgrown |}.

(** ** Ranges of numbers *)

(** A finite number that is not negative. *)
Definition finite_nonneg (v : number) : Prop :=
  (0 <=? v) = true /\ (v <? infinity) = true.

(** A finite number above zero. *)
Definition finite_positive (v : number) : Prop :=
  (0 <? v) = true /\ (v <? infinity) = true.

(** A measurement of the snapshot: absent, or finite and not negative. *)
Definition measurement_ok (x : option number) : Prop :=
  match x with
  | Some v => finite_nonneg v
  | None => True
  end.

(** The invariant of a rate-card entry: [baseRate >= 0] and [factor >= 1]. *)
Definition rate_invariant (r : RateCardRow) : Prop :=
  finite_nonneg (base_rate r)
  /\ (1 <=? row_factor r) = true /\ (row_factor r <? infinity) = true.

(** The seed world, except that the adjustment stored for ZIP 45247 is
    [-1.00]. *)
Definition negative_adjustment_world : World :=
  {| rate_cards := Some seed_rate_cards;
     regional_adjustments :=
       [ {| zip_code := "45247"; multiplier := -1.00; adj_active := true |} ];
     DEFAULT_REGIONAL_MULTIPLIER := None;
     SERVICE_AREA_RADIUS_MILES := None;
     calculateDistanceFromServiceCenter := fun _ _ => 8 |}.

(** [x] is the non-negative whole number [k]. *)
Definition whole (x : number) (k : Z) : Prop :=
  nn x /\ fval x = (k * 2 ^ scale)%Z /\ (0 <= k)%Z.

(** [a] and [b] are at most [k] apart. *)
Definition within (a b k : number) : Prop :=
  (a <=? b + k) = true /\ (b <=? a + k) = true.

(** A cost between zero and [2^40]. *)
Definition moderate (c : number) : Prop :=
  (0 <=? c) = true /\ (c <=? 1099511627776) = true.

(** A catalog whose four rates are 0.5, with a factor of 1. *)
Definition half_rate_cards : list RateCardRow :=
  [ seed_row "MOWING_BASE" 0.5 1; seed_row "LEAF_CLEANUP" 0.5 1;
    seed_row "SEASONAL_PACKAGE" 0.5 1; seed_row "LIGHTS_INSTALL" 0.5 1 ].

(** The seed world with that catalog. *)
Definition half_rate_world : World := world_of (Some half_rate_cards) 8.

(** A property in ZIP 45243 (regional multiplier 1.00) in good condition
    (complexity multiplier 1.0), with a 1000 sq ft lawn and a 97 ft
    roofline. *)
Definition half_rate_property : Property :=
  {| lat := Some 39.2; lng := Some (-84.6); zipCode := Some "45243";
     lotSizeSqft := None; lawnSqft := Some 1000; bedSqft := Some 600;
     rooflineFt := Some 97; conditionScore := Some 2;
     grassHeight := Some GrassHeight.normal; bushCount := Some 8;
     treeCoverage := Some Level.moderate;
     bedCondition := Some BedCondition.overgrown |}.

(** ** The predicates and scenarios of the further properties *)

(** The quote [calculatePricing] makes of a tier. *)
Definition quoted (w : World) (property : Property) (t : TierQuote)
    : PricingCalculation :=
  {| basePrice := annualPrice t;
     complexityMultiplier :=
       conditionScoreToMultiplier (or_else (conditionScore property) 3);
     regionalMultiplier := getRegionalMultiplier w (zipCode property);
     distanceMiles :=
       calculateDistanceFromServiceCenter w (lat property) (lng property);
     finalAnnualPrice := annualPrice t;
     finalMonthlyPrice := monthlyPrice t |}.

(** The order in which the rules run. *)
Definition upsell_order : list string :=
  [ "EDGING"; "BUSH_TRIMMING"; "MULCH_INSTALL"; "BED_MAINTENANCE";
    "LEAF_CLEANUP_UPGRADE"; "SEASONAL_PACKAGE"; "LIGHTS_INSTALL" ].

(** The upsells a tier already includes, or is never offered. *)
Definition never_offered (tier : TierType) : list string :=
  match tier with
  | grass_roots => [ "BED_MAINTENANCE" ]
  | premier => [ "LEAF_CLEANUP_UPGRADE"; "SEASONAL_PACKAGE" ]
  | total_landscape =>
      [ "LEAF_CLEANUP_UPGRADE"; "SEASONAL_PACKAGE"; "LIGHTS_INSTALL" ]
  end.

(** The codes of the upsells of a list. *)
Definition codes (upsells : list Upsell) : list string :=
  map u_serviceCode upsells.

(** A rule run on the empty list gives no upsell or one, of its own code. *)
Definition at_most_one (code : string) (offer : list Upsell) : Prop :=
  offer = [] \/ exists u, offer = [u] /\ u_serviceCode u = code.

(** The scenario property with its beds in good condition. *)
Definition tidy_property : Property :=
  {| lat := Some 39.2; lng := Some (-84.6); zipCode := Some "45247";
     lotSizeSqft := None; lawnSqft := Some 10000; bedSqft := Some 600;
     rooflineFt := Some 150; conditionScore := Some 2;
     grassHeight := Some GrassHeight.normal; bushCount := Some 8;
     treeCoverage := Some Level.moderate;
     bedCondition := Some BedCondition.good |}.

(** The upsell codes that bring materials with them. *)
Definition material_codes : list string :=
  [ "MULCH_INSTALL"; "BUSH_TRIMMING"; "SEASONAL_PACKAGE"; "LIGHTS_INSTALL" ].

(** How severe a reading is; an absent one counts as the mildest. *)
Definition grass_rank (g : option GrassHeight.t) : nat :=
  match g with
  | Some GrassHeight.very_overgrown => 2
  | Some GrassHeight.overgrown => 1
  | _ => 0
  end.

Definition level_rank (l : option Level.t) : nat :=
  match l with
  | Some Level.heavy => 2
  | Some Level.moderate => 1
  | _ => 0
  end.

Definition amount_rank (a : option Amount.t) : nat :=
  match a with
  | Some Amount.heavy => 2
  | Some Amount.moderate => 1
  | _ => 0
  end.

Definition bed_rank (b : option BedCondition.t) : nat :=
  match b with
  | Some BedCondition.overgrown => 2
  | Some BedCondition.needs_work => 1
  | _ => 0
  end.

(** The analyses [analyzePropertyMultiAngle] aggregates. *)
Definition angle_analyses
    (analyzePropertyCondition : number -> number -> number -> result PropertyCondition.t)
    (lat lng : number) : list PropertyCondition.t :=
  fulfilled (map (analyzePropertyCondition lat lng) headings).

(** An analysis for the statements: the second angle shows overgrown beds
    and a score of 4, the third cannot be analysed. *)
Definition sample_analysis (lat lng heading : number) : result PropertyCondition.t :=
  if heading =? 90 then
    Ok {| PropertyCondition.conditionScore := Some 4;
          PropertyCondition.grassHeight := Some GrassHeight.overgrown;
          PropertyCondition.bushCount := Some 7;
          PropertyCondition.treeCoverage := Some Level.moderate;
          PropertyCondition.debrisLevel := Some Amount.moderate;
          PropertyCondition.leafVolume := None;
          PropertyCondition.bedCondition := Some BedCondition.overgrown |}
  else if heading =? 180 then
    Throw (AppError "No response from AI vision model" 500)
  else Ok default_condition.

(** A vision model that answers nothing, whatever the angle. *)
Definition failing_vision (lat lng heading : number) : result PropertyCondition.t :=
  Throw (AppError "No response from AI vision model" 500).

(** The scores [Math.max] is given. *)
Definition angle_scores (analyses : list PropertyCondition.t) : list number :=
  map (fun a => or_else (PropertyCondition.conditionScore a) 3) analyses.

(** The hours of [estimateLaborHours] before they are rounded. *)
Definition laborHours (serviceType : ServiceType) (lawnSqft complexityScore : number)
    : number :=
  or_else (Some (baseHours lawnSqft serviceType)) 2 * (complexityScore / 3).

(** Two quotes for the same tier, the second one not cheaper. *)
Definition not_cheaper (s l : TierQuote) : Prop :=
  tier s = tier l
  /\ (annualPrice s <=? annualPrice l) = true
  /\ (monthlyPrice s <=? monthlyPrice l) = true.

(** * Binary64 arithmetic on non-negative numbers *)

Module Binary64Facts.

Local Open Scope Z_scope.

Lemma digits2_pos_size (p : positive) : digits2_pos p = Pos.size p.
Proof. induction p; simpl; congruence. Qed.

Lemma digits2_log2 (p : positive) : Zpos (digits2_pos p) = Z.log2 (Zpos p) + 1.
Proof.
  induction p; simpl digits2_pos; rewrite ?Pos2Z.inj_succ, ?IHp; simpl Z.log2.
  - destruct p; simpl; lia.
  - destruct p; simpl; lia.
  - reflexivity.
Qed.

Lemma iter_pos_iter {A : Type} (f : A -> A) (n : positive) (x : A) :
  iter_pos f n x = Pos.iter f x n.
Proof.
  revert x. induction n; intros x; simpl.
  - rewrite !IHn. 
    assert (H : forall k y, Pos.iter f (f y) k = f (Pos.iter f y k)).
    { intros k y. rewrite <- Pos.iter_swap. reflexivity. }
    rewrite H. rewrite H. reflexivity.
  - rewrite !IHn. reflexivity.
  - reflexivity.
Qed.
Lemma shr_1_spec (m : Z) (r s : bool) :
  0 <= m ->
  shr_1 {| shr_m := m; shr_r := r; shr_s := s |}
  = {| shr_m := m / 2; shr_r := Z.odd m; shr_s := r || s |}.
Proof.
  intros Hm. destruct m as [|p|p]; [reflexivity| |lia].
  destruct p as [p|p|]; unfold shr_1.
  - f_equal. rewrite Pos2Z.inj_xI. apply Z.div_unique with (r := 1); lia.
  - f_equal. rewrite Pos2Z.inj_xO. apply Z.div_unique with (r := 0); lia.
  - reflexivity.
Qed.

Lemma shr_iter (M : Z) (p : positive) :
  0 <= M ->
  Pos.iter shr_1 {| shr_m := M; shr_r := false; shr_s := false |} p
  = {| shr_m := M / 2 ^ Zpos p;
       shr_r := Z.odd (M / 2 ^ (Zpos p - 1));
       shr_s := negb (M mod 2 ^ (Zpos p - 1) =? 0) |}.
Proof.
  intros HM. induction p as [|p IH] using Pos.peano_ind.
  - change (Pos.iter shr_1 ?x 1) with (shr_1 x). rewrite shr_1_spec by trivial.
    change (2 ^ (1 - 1)) with 1. rewrite Z.div_1_r, Z.mod_1_r. reflexivity.
  - rewrite Pos.iter_succ, IH.
    rewrite shr_1_spec by (apply Z.div_pos; lia).
    rewrite Pos2Z.inj_succ.
    replace (Z.succ (Zpos p) - 1) with (Zpos p) by lia.
    f_equal.
    + rewrite Z.div_div by lia. f_equal.
      rewrite Z.pow_succ_r by lia. lia.
    + assert (H2 : 2 ^ Zpos p = 2 ^ (Zpos p - 1) * 2).
      { replace (Zpos p) with (Z.succ (Zpos p - 1)) at 1 by lia.
        rewrite Z.pow_succ_r by lia. lia. }
      rewrite H2 at 1.
      assert (Hc : 0 < 2 ^ (Zpos p - 1)) by (apply Z.pow_pos_nonneg; lia).
      set (c := 2 ^ (Zpos p - 1)) in *.
      rewrite Z.rem_mul_r by lia.
      set (a := M mod c).
      set (b := M / c).
      assert (Ha : 0 <= a < c) by (apply Z.mod_pos_bound; lia).
      rewrite (Zmod_odd b).
      destruct (Z.odd b); cbn [orb].
      * symmetry. apply negb_true_iff. apply Z.eqb_neq. lia.
      * f_equal. f_equal. lia.
Qed.

Lemma rne_shr (M : Z) (p : positive) :
  0 <= M ->
  let r := Pos.iter shr_1 {| shr_m := M; shr_r := false; shr_s := false |} p in
  round_nearest_even (shr_m r) (loc_of_shr_record r) = rne M (Zpos p).
Proof.
  intros HM r. subst r. rewrite shr_iter by trivial.
  unfold rne.
  assert (H2 : 2 ^ Zpos p = 2 ^ (Zpos p - 1) * 2).
  { replace (Zpos p) with (Z.succ (Zpos p - 1)) at 1 by lia.
    rewrite Z.pow_succ_r by lia. lia. }
  assert (Hc : 0 < 2 ^ (Zpos p - 1)) by (apply Z.pow_pos_nonneg; lia).
  rewrite H2. set (c := 2 ^ (Zpos p - 1)) in *.
  rewrite Z.rem_mul_r by lia. rewrite <- Z.div_div by lia.
  set (a := M mod c). set (b := M / c).
  assert (Ha : 0 <= a < c) by (apply Z.mod_pos_bound; lia).
  rewrite (Zmod_odd b). cbn [shr_m loc_of_shr_record].
  destruct (Z.odd b).
  - destruct (Z.eqb_spec a 0) as [Ha0|Ha0]; cbn [negb round_nearest_even].
    + rewrite Ha0. replace (2 * (0 + c * 1) ?= c * 2) with Eq; trivial.
      symmetry. apply Z.compare_eq_iff. lia.
    + replace (2 * (a + c * 1) ?= c * 2) with Gt; trivial.
      symmetry. apply Z.compare_gt_iff. lia.
  - replace (2 * (a + c * 0) ?= c * 2) with Lt.
    + now destruct (negb (a =? 0)).
    + symmetry. apply Z.compare_lt_iff. lia.
Qed.

Lemma rne_0 (X : Z) : rne X 0 = X.
Proof.
  unfold rne. change (2 ^ 0) with 1. rewrite Z.mod_1_r, Z.div_1_r. reflexivity.
Qed.

Lemma rne_bounds (X n : Z) :
  0 <= n -> X / 2 ^ n <= rne X n <= X / 2 ^ n + 1.
Proof.
  intros Hn. unfold rne.
  destruct (2 * (X mod 2 ^ n) ?= 2 ^ n); try destruct (Z.even _); lia.
Qed.

Lemma rne_mono (X Y n : Z) :
  0 <= n -> X <= Y -> rne X n <= rne Y n.
Proof.
  intros Hn HXY.
  assert (Hc : 0 < 2 ^ n) by (apply Z.pow_pos_nonneg; lia).
  assert (Hq : X / 2 ^ n <= Y / 2 ^ n) by (apply Z.div_le_mono; lia).
  destruct (Z.eq_dec (X / 2 ^ n) (Y / 2 ^ n)) as [E|NE].
  - assert (Hr : X mod 2 ^ n <= Y mod 2 ^ n).
    { rewrite !Z.mod_eq by lia. rewrite E. lia. }
    unfold rne. rewrite E.
    destruct (Z.compare_spec (2 * (X mod 2 ^ n)) (2 ^ n));
      destruct (Z.compare_spec (2 * (Y mod 2 ^ n)) (2 ^ n));
      try destruct (Z.even _); lia.
  - pose proof (rne_bounds X n Hn). pose proof (rne_bounds Y n Hn). lia.
Qed.

Lemma rne_exact (X n : Z) :
  0 <= n -> X mod 2 ^ n = 0 -> rne X n = X / 2 ^ n.
Proof.
  intros Hn H. unfold rne. rewrite H.
  assert (Hc : 0 < 2 ^ n) by (apply Z.pow_pos_nonneg; lia).
  replace (2 * 0 ?= 2 ^ n) with Lt
    by (symmetry; apply Z.compare_lt_iff; lia).
  reflexivity.
Qed.

Lemma rne_shift (X n k : Z) :
  0 <= n -> 0 <= k -> rne (X * 2 ^ k) (n + k) = rne X n.
Proof.
  intros Hn Hk. unfold rne.
  assert (Hc : 0 < 2 ^ n) by (apply Z.pow_pos_nonneg; lia).
  assert (Hd : 0 < 2 ^ k) by (apply Z.pow_pos_nonneg; lia).
  rewrite Z.pow_add_r by lia.
  rewrite Z.div_mul_cancel_r by lia.
  rewrite Z.mul_mod_distr_r by lia.
  replace (2 * (X mod 2 ^ n * 2 ^ k) ?= 2 ^ n * 2 ^ k)
    with (2 * (X mod 2 ^ n) ?= 2 ^ n); trivial.
  destruct (Z.compare_spec (2 * (X mod 2 ^ n)) (2 ^ n)); symmetry.
  - apply Z.compare_eq_iff. nia.
  - apply Z.compare_lt_iff. nia.
  - apply Z.compare_gt_iff. nia.
Qed.

(** [|X - rne X n * 2^n| <= 2^n / 2], stated without halves. *)
Lemma rne_error (X n : Z) :
  0 <= n -> Z.abs (2 * X - 2 * (rne X n * 2 ^ n)) <= 2 ^ n.
Proof.
  intros Hn.
  assert (Hc : 0 < 2 ^ n) by (apply Z.pow_pos_nonneg; lia).
  pose proof (Z.mod_pos_bound X (2 ^ n) Hc) as Hr.
  pose proof (Z.div_mod X (2 ^ n) ltac:(lia)) as Hdm.
  unfold rne.
  destruct (Z.compare_spec (2 * (X mod 2 ^ n)) (2 ^ n));
    try destruct (Z.even _); nia.
Qed.

(** ** Values of non-negative binary64 numbers, in units of [2^-2148] *)

Lemma fexp_eq (x : Z) : fexp prec emax x = Z.max (x - 53) (-1074).
Proof. reflexivity. Qed.

Lemma nexp_pos_mul (M : positive) (e : Z) :
  - scale <= e ->
  nexp (Zpos M * 2 ^ (e + scale))
  = fexp prec emax (Zpos (digits2_pos M) + e) + scale.
Proof.
  intros He. unfold nexp. rewrite Z.log2_mul_pow2 by lia.
  rewrite fexp_eq, digits2_log2. unfold scale in *. lia.
Qed.

Lemma pos_lt_pow_digits (M : positive) : Zpos M < 2 ^ Zpos (digits2_pos M).
Proof.
  rewrite digits2_log2. pose proof (Z.log2_spec (Zpos M) ltac:(lia)) as H.
  unfold Z.succ in H. lia.
Qed.

Lemma pos_ge_pow_digits (M : positive) : 2 ^ (Zpos (digits2_pos M) - 1) <= Zpos M.
Proof.
  rewrite digits2_log2. pose proof (Z.log2_spec (Zpos M) ltac:(lia)) as H.
  replace (Z.log2 (Zpos M) + 1 - 1) with (Z.log2 (Zpos M)) by lia. lia.
Qed.

Lemma Zdigits2_le (R k : Z) : 0 < R < 2 ^ k -> 0 <= k -> Zdigits2 R <= k.
Proof.
  intros [H0 H1] Hk. destruct R as [|p|p]; try lia.
  unfold Zdigits2. rewrite digits2_log2.
  assert (Z.log2 (Zpos p) < k) by (apply Z.log2_lt_pow2; lia). lia.
Qed.

(** The first shift of [binary_round_aux]. *)
Lemma shr_fexp_rne (M : positive) (e : Z) :
  e <= fexp prec emax (Zpos (digits2_pos M) + e) ->
  let E := fexp prec emax (Zpos (digits2_pos M) + e) in
  let r := shr_fexp prec emax (Zpos M) e loc_Exact in
  round_nearest_even (shr_m (fst r)) (loc_of_shr_record (fst r)) = rne (Zpos M) (E - e)
  /\ snd r = E.
Proof.
  intros He E r. subst r. unfold shr_fexp.
  change (Zdigits2 (Zpos M)) with (Zpos (digits2_pos M)). fold E.
  cbn [shr_record_of_loc]. unfold shr.
  destruct (E - e) as [|p|p] eqn:En; cbn [fst snd].
  - rewrite rne_0. split; [reflexivity|lia].
  - rewrite iter_pos_iter, rne_shr by lia. split; [reflexivity|lia].
  - subst E. lia.
Qed.

Lemma out_pos_mul (M : positive) (e : Z) :
  - scale <= e ->
  e <= fexp prec emax (Zpos (digits2_pos M) + e) ->
  let E := fexp prec emax (Zpos (digits2_pos M) + e) in
  out (Zpos M * 2 ^ (e + scale)) = rne (Zpos M) (E - e) * 2 ^ (E + scale).
Proof.
  intros Hs He E. unfold out. rewrite nexp_pos_mul by trivial. fold E.
  replace (E + scale) with ((E - e) + (e + scale)) at 1 by lia.
  rewrite rne_shift by lia. reflexivity.
Qed.

Lemma rne_mantissa_bounds (M : positive) (e : Z) :
  e <= fexp prec emax (Zpos (digits2_pos M) + e) ->
  let E := fexp prec emax (Zpos (digits2_pos M) + e) in
  0 <= rne (Zpos M) (E - e) <= 2 ^ 53
  /\ (-1074 < E -> 2 ^ 52 <= rne (Zpos M) (E - e)).
Proof.
  intros He E.
  pose proof (rne_bounds (Zpos M) (E - e) ltac:(lia)) as Hb.
  pose proof (pos_lt_pow_digits M) as Hlt.
  pose proof (pos_ge_pow_digits M) as Hge.
  set (d := Zpos (digits2_pos M)) in *.
  assert (Hd : 0 < d) by (subst d; lia).
  assert (HE : E = Z.max (d + e - 53) (-1074)) by (subst E; apply fexp_eq).
  assert (Hc : 0 < 2 ^ (E - e)) by (apply Z.pow_pos_nonneg; lia).
  split.
  - split.
    + assert (0 <= Zpos M / 2 ^ (E - e)) by (apply Z.div_pos; lia). lia.
    + assert (Zpos M / 2 ^ (E - e) < 2 ^ 53); [|lia].
      apply Z.div_lt_upper_bound; trivial.
      rewrite <- Z.pow_add_r by lia.
      eapply Z.lt_le_trans; [exact Hlt|].
      apply Z.pow_le_mono_r; lia.
  - intros Hn.
    assert (HE' : E - e = d - 53) by lia.
    assert (2 ^ 52 <= Zpos M / 2 ^ (E - e)); [|lia].
    apply Z.div_le_lower_bound; trivial.
    rewrite HE'. rewrite <- Z.pow_add_r by lia.
    replace (d - 53 + 52) with (d - 1) by lia. exact Hge.
Qed.

(** The second shift of [binary_round_aux]: a rounded mantissa of 54 bits is
    [2^53], and is halved exactly. *)
Lemma shr_fexp_renorm (R E : Z) :
  0 <= R <= 2 ^ 53 -> -1074 <= E ->
  let r := shr_fexp prec emax R E loc_Exact in
  (R < 2 ^ 53 /\ shr_m (fst r) = R /\ snd r = E)
  \/ (R = 2 ^ 53 /\ shr_m (fst r) = 2 ^ 52 /\ snd r = E + 1).
Proof.
  intros HR HE r. subst r. unfold shr_fexp. cbn [shr_record_of_loc].
  destruct (Z.eq_dec R (2 ^ 53)) as [->|Hne].
  - right.
    replace (fexp prec emax (Zdigits2 (2 ^ 53) + E) - E) with 1
      by (rewrite fexp_eq; change (Zdigits2 (2 ^ 53)) with 54; lia).
    unfold shr. rewrite iter_pos_iter.
    change (Pos.iter shr_1 ?x 1) with (shr_1 x).
    rewrite shr_1_spec by lia. cbn [fst snd shr_m].
    change (2 ^ 53 / 2) with (2 ^ 52). auto.
  - left.
    assert (Hn : fexp prec emax (Zdigits2 R + E) - E <= 0).
    { rewrite fexp_eq. destruct (Z.eq_dec R 0) as [->|H0].
      - change (Zdigits2 0) with 0. lia.
      - pose proof (Zdigits2_le R 53 ltac:(lia) ltac:(lia)). lia. }
    unfold shr. destruct (fexp prec emax (Zdigits2 R + E) - E) as [|p|p]; try lia;
      cbn [fst snd shr_m]; (split; [lia|split; reflexivity]).
Qed.

Lemma pow2_pos (k : Z) : 0 <= k -> 0 < 2 ^ k.
Proof. intros H. apply Z.pow_pos_nonneg; lia. Qed.

Lemma mul_pow_le (a b k l : Z) :
  0 <= a <= b -> 0 <= k <= l -> a * 2 ^ k <= b * 2 ^ l.
Proof.
  intros Ha Hk. pose proof (pow2_pos k ltac:(lia)).
  apply Z.mul_le_mono_nonneg; try lia.
  apply Z.pow_le_mono_r; lia.
Qed.

Lemma top_eq (a b : Z) : a + b = 1024 -> 0 <= a -> 0 <= b + scale ->
  2 ^ a * 2 ^ (b + scale) = top.
Proof.
  intros H Ha Hb. unfold top. rewrite <- Z.pow_add_r by lia. f_equal. lia.
Qed.

Lemma binary_round_aux_val (M : positive) (e : Z) :
  - scale <= e ->
  e <= fexp prec emax (Zpos (digits2_pos M) + e) ->
  let r := binary_round_aux prec emax false (Zpos M) e loc_Exact in
  nonnegSF r = true /\ val r = rnd (Zpos M * 2 ^ (e + scale)).
Proof.
  intros Hs He r. subst r. unfold binary_round_aux.
  pose proof (shr_fexp_rne M e He) as [HR HE]. cbv zeta in HR, HE.
  pose proof (rne_mantissa_bounds M e He) as [HRb HRn]. cbv zeta in HRb, HRn.
  pose proof (out_pos_mul M e Hs He) as Hout. cbv zeta in Hout.
  destruct (shr_fexp prec emax (Zpos M) e loc_Exact) as [mrs' e'].
  cbn [fst snd] in HR, HE. rewrite HR. subst e'.
  set (E := fexp prec emax (Zpos (digits2_pos M) + e)) in *.
  set (R := rne (Zpos M) (E - e)) in *.
  assert (HEm : -1074 <= E) by (subst E; rewrite fexp_eq; lia).
  assert (HEs : 0 <= E + scale) by (unfold scale; lia).
  pose proof (pow2_pos (E + scale) HEs) as HpE.
  pose proof (shr_fexp_renorm R E HRb HEm) as Hren. cbv zeta in Hren.
  destruct (shr_fexp prec emax R E loc_Exact) as [mrs'' e''].
  cbn [fst snd] in Hren.
  unfold rnd. rewrite Hout.
  assert (Htop : 0 < top) by (apply pow2_pos; unfold scale; lia).
  destruct Hren as [[Hlt [Hm He'']]|[Heq [Hm He'']]]; rewrite Hm; subst e''.
  - destruct R as [|m|m] eqn:ER; [| |lia].
    + split; [reflexivity|]. cbn [val]. lia.
    + destruct (Z.leb_spec E (emax - prec)) as [Hle|Hgt];
        (split; [reflexivity|]); cbn [val]; change (emax - prec) with 971 in *.
      * assert (Zpos m * 2 ^ (E + scale) <= top); [|lia].
        rewrite <- (top_eq 53 971) by (unfold scale; lia).
        apply mul_pow_le; unfold scale; lia.
      * assert (top <= Zpos m * 2 ^ (E + scale)); [|lia].
        rewrite <- (top_eq 52 972) by (unfold scale; lia).
        specialize (HRn ltac:(lia)).
        apply mul_pow_le; unfold scale; lia.
  - change (2 ^ 52) with (Zpos (2 ^ 52)%positive). cbv iota.
    change (Zpos (2 ^ 52)%positive) with (2 ^ 52).
    assert (Hv : 2 ^ 52 * 2 ^ (E + 1 + scale) = R * 2 ^ (E + scale)).
    { rewrite Heq. replace (E + 1 + scale) with (Z.succ (E + scale)) by lia.
      rewrite Z.pow_succ_r by lia. change (2 ^ 53) with (2 ^ 52 * 2). lia. }
    destruct (Z.leb_spec (E + 1) (emax - prec)) as [Hle|Hgt];
        (split; [reflexivity|]); cbn [val]; change (emax - prec) with 971 in *.
    + change (Zpos (2 ^ 52)%positive) with (2 ^ 52). rewrite Hv.
      assert (R * 2 ^ (E + scale) <= top); [|lia].
      rewrite Heq. rewrite <- (top_eq 53 971) by (unfold scale; lia).
      apply mul_pow_le; unfold scale; lia.
    + assert (top <= R * 2 ^ (E + scale)); [|lia].
      rewrite Heq. rewrite <- (top_eq 53 971) by (unfold scale; lia).
      apply mul_pow_le; unfold scale; lia.
Qed.

Lemma iter_xO_pow (m d : positive) :
  Zpos (Pos.iter xO m d) = Zpos m * 2 ^ Zpos d.
Proof.
  induction d as [|d IH] using Pos.peano_ind.
  - change (Pos.iter xO m 1) with (xO m). rewrite Pos2Z.inj_xO. lia.
  - rewrite Pos.iter_succ, Pos2Z.inj_xO, IH, Pos2Z.inj_succ, Z.pow_succ_r by lia. lia.
Qed.

Lemma digits_iter_xO (m d : positive) :
  Zpos (digits2_pos (Pos.iter xO m d)) = Zpos (digits2_pos m) + Zpos d.
Proof.
  induction d as [|d IH] using Pos.peano_ind.
  - simpl. lia.
  - rewrite Pos.iter_succ. cbn [digits2_pos]. rewrite Pos2Z.inj_succ, IH. lia.
Qed.

Lemma binary_round_val (M : positive) (e : Z) :
  - scale <= e ->
  let r := binary_round prec emax false M e in
  nonnegSF r = true /\ val r = rnd (Zpos M * 2 ^ (e + scale)).
Proof.
  intros Hs r. subst r. unfold binary_round, shl_align.
  set (E := fexp prec emax (Zpos (digits2_pos M) + e)).
  assert (HE : -1074 <= E) by (subst E; rewrite fexp_eq; lia).
  destruct (E - e) as [|p|p] eqn:Ed.
  - apply binary_round_aux_val; trivial. fold E. lia.
  - apply binary_round_aux_val; trivial. fold E. lia.
  - replace (Zpos M * 2 ^ (e + scale))
      with (Zpos (Pos.iter xO M p) * 2 ^ (E + scale)).
    + apply binary_round_aux_val; [unfold scale; lia|].
      rewrite digits_iter_xO.
      replace (Zpos (digits2_pos M) + Zpos p + E) with (Zpos (digits2_pos M) + e) by lia.
      fold E. lia.
    + rewrite iter_xO_pow. rewrite <- Z.mul_assoc, <- Z.pow_add_r by (unfold scale; lia).
      f_equal. f_equal. lia.
Qed.

(** What validity says of a finite number. *)
Lemma valid_finite (s : bool) (m : positive) (e : Z) :
  valid_binary (S754_finite s m e) = true ->
  -1074 <= e <= 971
  /\ Zpos m < 2 ^ 53
  /\ (-1074 < e -> 2 ^ 52 <= Zpos m)
  /\ fexp prec emax (Zpos (digits2_pos m) + e) = e.
Proof.
  unfold valid_binary, bounded, canonical_mantissa.
  intros H. apply andb_true_iff in H. destruct H as [Hc Hb].
  apply Z.eqb_eq in Hc. apply Z.leb_le in Hb. change (emax - prec) with 971 in Hb.
  pose proof (pos_lt_pow_digits m) as Hlt.
  pose proof (pos_ge_pow_digits m) as Hge.
  rewrite fexp_eq in Hc.
  set (d := Zpos (digits2_pos m)) in *.
  assert (0 < d) by (subst d; lia).
  repeat split; try lia.
  - eapply Z.lt_le_trans; [exact Hlt|]. apply Z.pow_le_mono_r; lia.
  - intros He. replace 52 with (d - 1) by lia. exact Hge.
  - rewrite fexp_eq. fold d. lia.
Qed.

Lemma rnd_0 : rnd 0 = 0.
Proof. reflexivity. Qed.

Lemma top_pos : 0 < top.
Proof. apply pow2_pos. unfold scale. lia. Qed.

Lemma rnd_top : rnd top = top.
Proof.
  unfold rnd, out, nexp, top. rewrite Z.log2_pow2 by (unfold scale; lia).
  rewrite Z.max_l by (unfold scale; lia).
  rewrite rne_exact.
  - rewrite <- Z.pow_sub_r by (unfold scale; lia).
    rewrite <- Z.pow_add_r by (unfold scale; lia).
    replace (1024 + scale - (1024 + scale - 52) + (1024 + scale - 52))
      with (1024 + scale) by lia.
    apply Z.min_id.
  - unfold scale; lia.
  - replace (1024 + scale) with (52 + (1024 + scale - 52)) at 1 by lia.
    rewrite Z.pow_add_r by (unfold scale; lia). apply Z.mod_mul.
    pose proof (pow2_pos (1024 + scale - 52)). unfold scale in *. lia.
Qed.

Lemma rnd_valid (x : spec_float) :
  valid_binary x = true -> nonnegSF x = true -> rnd (val x) = val x.
Proof.
  intros Hv Hn. destruct x as [s|[]| |[] m e]; try discriminate Hn;
    try exact rnd_0; try exact rnd_top.
  apply valid_finite in Hv. destruct Hv as [He [Hm [_ Hf]]].
  cbn [val]. unfold rnd, out.
  rewrite nexp_pos_mul by (unfold scale; lia). rewrite Hf.
  replace (e + scale) with (0 + (e + scale)) at 2 by lia.
  rewrite rne_shift, rne_0 by (unfold scale; lia).
  apply Z.min_l.
  rewrite <- (top_eq 53 971) by (unfold scale; lia).
  apply mul_pow_le; unfold scale; lia.
Qed.

Lemma val_finite_lt_top (s : bool) (m : positive) (e : Z) :
  valid_binary (S754_finite s m e) = true -> val (S754_finite s m e) < top.
Proof.
  intros Hv. apply valid_finite in Hv. destruct Hv as [He [Hm _]].
  destruct s; cbn [val]; [apply top_pos|].
  rewrite <- (top_eq 53 971) by (unfold scale; lia).
  pose proof (pow2_pos (e + scale) ltac:(unfold scale; lia)).
  assert (2 ^ (e + scale) <= 2 ^ (971 + scale)) by (apply Z.pow_le_mono_r; unfold scale; lia).
  nia.
Qed.

Lemma val_nonneg (x : spec_float) : 0 <= val x.
Proof.
  pose proof top_pos.
  destruct x as [s|[]| |[] m e]; cbn [val]; lia.
Qed.

Lemma nexp_ge (X : Z) : 1074 <= nexp X.
Proof. unfold nexp. lia. Qed.

Lemma nexp_mono (X Y : Z) : X <= Y -> nexp X <= nexp Y.
Proof.
  intros H. unfold nexp. pose proof (Z.log2_le_mono X Y H). lia.
Qed.

Lemma out_upper (X : Z) :
  0 < X -> out X <= 2 ^ Z.max (Z.log2 X + 1) (nexp X).
Proof.
  intros HX. unfold out.
  pose proof (nexp_ge X) as Hn.
  pose proof (rne_bounds X (nexp X) ltac:(lia)) as Hb.
  pose proof (Z.log2_spec X HX) as HL. unfold Z.succ in HL.
  pose proof (Z.log2_nonneg X) as HL0.
  pose proof (pow2_pos (nexp X) ltac:(lia)) as Hp.
  destruct (Z.le_gt_cases (nexp X) (Z.log2 X + 1)) as [Hle|Hgt].
  - rewrite Z.max_l by lia.
    assert (Hq : X / 2 ^ nexp X < 2 ^ (Z.log2 X + 1 - nexp X)).
    { apply Z.div_lt_upper_bound; trivial.
      rewrite <- Z.pow_add_r by lia.
      replace (nexp X + (Z.log2 X + 1 - nexp X)) with (Z.log2 X + 1) by lia. lia. }
    assert (Hpow : 2 ^ (Z.log2 X + 1) = 2 ^ (Z.log2 X + 1 - nexp X) * 2 ^ nexp X).
    { rewrite <- Z.pow_add_r by lia. f_equal. lia. }
    rewrite Hpow. apply Z.mul_le_mono_nonneg_r; lia.
  - rewrite Z.max_r by lia.
    assert (Hq : X / 2 ^ nexp X = 0).
    { apply Z.div_small. split; [lia|].
      eapply Z.lt_le_trans; [apply HL|]. apply Z.pow_le_mono_r; lia. }
    nia.
Qed.

Lemma out_lower (Y : Z) :
  0 < Y -> 1074 < nexp Y -> 2 ^ Z.log2 Y <= out Y.
Proof.
  intros HY Hn. unfold out.
  assert (HnY : nexp Y = Z.log2 Y - 52) by (unfold nexp in *; lia).
  pose proof (rne_bounds Y (nexp Y) ltac:(lia)) as Hb.
  pose proof (Z.log2_spec Y HY) as HL.
  pose proof (pow2_pos (nexp Y) ltac:(lia)) as Hp.
  assert (Hq : 2 ^ 52 <= Y / 2 ^ nexp Y).
  { apply Z.div_le_lower_bound; trivial.
    rewrite <- Z.pow_add_r by lia.
    replace (nexp Y + 52) with (Z.log2 Y) by lia. lia. }
  assert (Hpow : 2 ^ Z.log2 Y = 2 ^ 52 * 2 ^ nexp Y).
  { rewrite <- Z.pow_add_r by lia. f_equal. lia. }
  rewrite Hpow. apply Z.mul_le_mono_nonneg_r; lia.
Qed.

Lemma out_0 : out 0 = 0.
Proof. reflexivity. Qed.

Lemma out_nonneg (X : Z) : 0 <= X -> 0 <= out X.
Proof.
  intros HX. unfold out.
  pose proof (nexp_ge X) as Hn.
  pose proof (rne_bounds X (nexp X) ltac:(lia)) as Hb.
  pose proof (pow2_pos (nexp X) ltac:(lia)) as Hp.
  assert (0 <= X / 2 ^ nexp X) by (apply Z.div_pos; lia).
  nia.
Qed.

Lemma out_mono (X Y : Z) : 0 <= X -> X <= Y -> out X <= out Y.
Proof.
  intros HX HXY.
  destruct (Z.eq_dec X 0) as [->|HX0].
  - rewrite out_0. apply out_nonneg. lia.
  - pose proof (nexp_mono X Y HXY) as Hn.
    pose proof (nexp_ge X) as HnX.
    destruct (Z.eq_dec (nexp X) (nexp Y)) as [E|NE].
    + unfold out. rewrite <- E.
      pose proof (pow2_pos (nexp X) ltac:(lia)).
      apply Z.mul_le_mono_nonneg_r; [lia|].
      apply rne_mono; lia.
    + eapply Z.le_trans; [apply out_upper; lia|].
      eapply Z.le_trans; [|apply out_lower; lia].
      apply Z.pow_le_mono_r; [lia|].
      unfold nexp in *. 
      pose proof (Z.log2_le_mono X Y HXY). lia.
Qed.

Lemma rnd_mono (X Y : Z) : 0 <= X -> X <= Y -> rnd X <= rnd Y.
Proof.
  intros HX HXY. unfold rnd. pose proof (out_mono X Y HX HXY). lia.
Qed.

Lemma rnd_nonneg (X : Z) : 0 <= X -> 0 <= rnd X.
Proof.
  intros HX. unfold rnd. pose proof (out_nonneg X HX). pose proof top_pos. lia.
Qed.

Lemma rnd_le_top (X : Z) : rnd X <= top.
Proof. unfold rnd. lia. Qed.

Lemma rnd_ge_top (X : Z) : top <= X -> rnd X = top.
Proof.
  intros H. pose proof top_pos.
  pose proof (rnd_mono top X ltac:(lia) H) as Hm. rewrite rnd_top in Hm.
  pose proof (rnd_le_top X). lia.
Qed.

(** On valid non-negative numbers the comparison of binary64 is the
    comparison of values. *)
Lemma SFleb_val (x y : spec_float) :
  valid_binary x = true -> valid_binary y = true ->
  nonnegSF x = true -> nonnegSF y = true ->
  SFleb x y = true <-> val x <= val y.
Proof.
  intros Vx Vy Nx Ny. pose proof top_pos as Ht.
  destruct x as [sx|[]| |[] mx ex]; try discriminate Nx;
    destruct y as [sy|[]| |[] my ey]; try discriminate Ny;
    unfold SFleb; cbn [SFcompare val].
  - split; [lia|reflexivity].
  - split; [lia|reflexivity].
  - pose proof (val_nonneg (S754_finite false my ey)) as H. cbn [val] in H.
    split; [lia|reflexivity].
  - split; [discriminate|lia].
  - split; [lia|reflexivity].
  - pose proof (val_finite_lt_top _ _ _ Vy) as H. cbn [val] in H.
    split; [discriminate|lia].
  - apply valid_finite in Vx. destruct Vx as [He [Hm _]].
    pose proof (pow2_pos (ex + scale) ltac:(unfold scale; lia)).
    split; [discriminate|]. nia.
  - pose proof (val_finite_lt_top _ _ _ Vx) as H. cbn [val] in H.
    split; [lia|reflexivity].
  - apply valid_finite in Vx. destruct Vx as [Hex [Hmx [Hnx _]]].
    apply valid_finite in Vy. destruct Vy as [Hey [Hmy [Hny _]]].
    pose proof (pow2_pos (ex + scale) ltac:(unfold scale; lia)) as Hpx.
    pose proof (pow2_pos (ey + scale) ltac:(unfold scale; lia)) as Hpy.
    destruct (Z.compare_spec ex ey) as [E|L|G].
    + subst ey. rewrite Pos.compare_cont_spec. cbn [Pos.switch_Eq].
      change (Pos.compare mx my) with (Z.compare (Zpos mx) (Zpos my)).
      destruct (Z.compare_spec (Zpos mx) (Zpos my)); split; trivial;
        try discriminate; nia.
    + split; trivial. intros _.
      assert (Hs : 2 ^ (ey + scale) = 2 ^ (ey - ex) * 2 ^ (ex + scale)).
      { rewrite <- Z.pow_add_r by (unfold scale; lia). f_equal. lia. }
      specialize (Hny ltac:(lia)).
      assert (2 = 2 ^ 1) by reflexivity.
      assert (2 ^ 1 <= 2 ^ (ey - ex)) by (apply Z.pow_le_mono_r; lia).
      change (2 ^ 53) with (2 * 2 ^ 52) in Hmx.
      rewrite Hs. nia.
    + split; [discriminate|]. intros Hle. exfalso.
      assert (Hs : 2 ^ (ex + scale) = 2 ^ (ex - ey) * 2 ^ (ey + scale)).
      { rewrite <- Z.pow_add_r by (unfold scale; lia). f_equal. lia. }
      specialize (Hnx ltac:(lia)).
      assert (2 ^ 1 <= 2 ^ (ex - ey)) by (apply Z.pow_le_mono_r; lia).
      change (2 ^ 1) with 2 in *.
      change (2 ^ 53) with (2 * 2 ^ 52) in Hmy.
      rewrite Hs in Hle. nia.
Qed.

Lemma shl_align_val (m : positive) (e e' : Z) :
  e' <= e -> Zpos (fst (shl_align m e e')) = Zpos m * 2 ^ (e - e').
Proof.
  intros H. unfold shl_align.
  destruct (e' - e) as [|p|p] eqn:E; cbn [fst].
  - replace (e - e') with 0 by lia. lia.
  - lia.
  - rewrite iter_xO_pow. f_equal. f_equal. lia.
Qed.

Lemma SFadd_val (x y : spec_float) :
  valid_binary x = true -> valid_binary y = true ->
  nonnegSF x = true -> nonnegSF y = true ->
  nonnegSF (SF64add x y) = true /\ val (SF64add x y) = rnd (val x + val y).
Proof.
  intros Vx Vy Nx Ny. pose proof top_pos as Ht.
  unfold SF64add.
  destruct x as [sx|[]| |[] mx ex]; try discriminate Nx;
    destruct y as [sy|[]| |[] my ey]; try discriminate Ny.
  - split; [now destruct sx, sy|]. now destruct sx, sy.
  - split; [reflexivity|]. cbn [SFadd val]. rewrite Z.add_0_l. now rewrite rnd_top.
  - split; [reflexivity|]. cbn [SFadd]. change (val (S754_zero sx)) with 0.
    rewrite Z.add_0_l. rewrite (rnd_valid _ Vy eq_refl). reflexivity.
  - split; [reflexivity|]. cbn [SFadd val]. rewrite Z.add_0_r. now rewrite rnd_top.
  - split; [reflexivity|]. cbn [SFadd val]. symmetry. apply rnd_ge_top. lia.
  - split; [reflexivity|]. cbn [SFadd]. symmetry. apply rnd_ge_top.
    pose proof (val_nonneg (S754_finite false my ey)). cbn [val] in *. lia.
  - split; [reflexivity|]. cbn [SFadd]. change (val (S754_zero sy)) with 0.
    rewrite Z.add_0_r. rewrite (rnd_valid _ Vx eq_refl). reflexivity.
  - split; [reflexivity|]. cbn [SFadd]. symmetry. apply rnd_ge_top.
    pose proof (val_nonneg (S754_finite false mx ex)). cbn [val] in *. lia.
  - apply valid_finite in Vx. destruct Vx as [Hex _].
    apply valid_finite in Vy. destruct Vy as [Hey _].
    cbn [SFadd cond_Zopp].
    set (ez := Z.min ex ey).
    assert (Hz : ez <= ex /\ ez <= ey /\ -1074 <= ez) by (subst ez; lia).
    destruct Hz as [Hzx [Hzy Hzm]].
    change (Zpos (fst (shl_align mx ex ez)) + Zpos (fst (shl_align my ey ez)))
      with (Zpos (fst (shl_align mx ex ez) + fst (shl_align my ey ez))).
    cbn [binary_normalize].
    replace (val (S754_finite false mx ex) + val (S754_finite false my ey))
      with (Zpos (fst (shl_align mx ex ez) + fst (shl_align my ey ez))
            * 2 ^ (ez + scale)).
    + apply binary_round_val. unfold scale. lia.
    + rewrite Pos2Z.inj_add, !shl_align_val by lia. cbn [val].
      rewrite Z.mul_add_distr_r, <- !Z.mul_assoc, <- !Z.pow_add_r
        by (unfold scale; lia).
      f_equal; f_equal; f_equal; lia.
Qed.

Lemma digits_mul_ge (a b : positive) :
  Zpos (digits2_pos a) + Zpos (digits2_pos b) - 1 <= Zpos (digits2_pos (a * b)).
Proof.
  rewrite !digits2_log2, Pos2Z.inj_mul.
  pose proof (Z.log2_mul_below (Zpos a) (Zpos b) ltac:(lia) ltac:(lia)). lia.
Qed.

Lemma SFmul_val (x y : spec_float) :
  valid_binary x = true -> valid_binary y = true ->
  nonnegSF x = true -> nonnegSF y = true ->
  val x < top -> val y < top ->
  nonnegSF (SF64mul x y) = true
  /\ val (SF64mul x y) = rnd (val x * val y / 2 ^ scale).
Proof.
  intros Vx Vy Nx Ny Fx Fy. pose proof top_pos as Ht.
  unfold SF64mul.
  destruct x as [sx|[]| |[] mx ex]; try discriminate Nx; try (cbn [val] in Fx; lia);
    destruct y as [sy|[]| |[] my ey]; try discriminate Ny; try (cbn [val] in Fy; lia).
  - split; [reflexivity|]. cbn [SFmul val]. reflexivity.
  - split; [reflexivity|]. cbn [SFmul val]. reflexivity.
  - split; [reflexivity|]. cbn [SFmul val]. rewrite Z.mul_0_r. reflexivity.
  - pose proof (digits_mul_ge mx my) as Hd.
    apply valid_finite in Vx. destruct Vx as [Hex [Hmx [Hnx Hfx]]].
    apply valid_finite in Vy. destruct Vy as [Hey [Hmy [Hny Hfy]]].
    rewrite fexp_eq in Hfx, Hfy.
    cbn [SFmul xorb].
    replace (val (S754_finite false mx ex) * val (S754_finite false my ey) / 2 ^ scale)
      with (Zpos (mx * my) * 2 ^ (ex + ey + scale)).
    + apply binary_round_aux_val; [unfold scale; lia|].
      rewrite fexp_eq. lia.
    + cbn [val]. rewrite Pos2Z.inj_mul.
      replace (Zpos mx * 2 ^ (ex + scale) * (Zpos my * 2 ^ (ey + scale)))
        with (Zpos mx * Zpos my * 2 ^ (ex + ey + scale) * 2 ^ scale).
      * rewrite Z.div_mul; trivial.
        pose proof (pow2_pos scale ltac:(unfold scale; lia)). lia.
      * rewrite <- !Z.mul_assoc. f_equal.
        rewrite (Z.mul_comm (2 ^ (ex + scale))), <- !Z.mul_assoc. f_equal.
        rewrite <- !Z.pow_add_r by (unfold scale; lia). f_equal. lia.
Qed.

Lemma shr_1_nonneg (r : shr_record) : 0 <= shr_m r -> 0 <= shr_m (shr_1 r).
Proof.
  destruct r as [m r s]. cbn [shr_m]. intros H.
  rewrite shr_1_spec by trivial. cbn [shr_m]. apply Z.div_pos; lia.
Qed.

Lemma shr_1_le (r : shr_record) : 0 <= shr_m r -> shr_m (shr_1 r) <= shr_m r.
Proof.
  destruct r as [m r s]. cbn [shr_m]. intros H.
  rewrite shr_1_spec by trivial. cbn [shr_m].
  apply Z.div_le_upper_bound; lia.
Qed.

Lemma shr_m_iter (r : shr_record) (p : positive) :
  0 <= shr_m r ->
  shr_m (Pos.iter shr_1 r p) = shr_m r / 2 ^ Zpos p.
Proof.
  intros H. induction p as [|p IH] using Pos.peano_ind.
  - change (Pos.iter shr_1 r 1) with (shr_1 r).
    destruct r as [m r s]. cbn [shr_m] in *. rewrite shr_1_spec by trivial.
    reflexivity.
  - rewrite Pos.iter_succ.
    assert (Hn : 0 <= shr_m (Pos.iter shr_1 r p)).
    { rewrite IH. apply Z.div_pos; [lia|]. apply pow2_pos. lia. }
    destruct (Pos.iter shr_1 r p) as [m' r' s']. cbn [shr_m] in *.
    rewrite shr_1_spec by trivial. cbn [shr_m]. rewrite IH.
    rewrite Z.div_div by (try apply pow2_pos; lia).
    rewrite Pos2Z.inj_succ, Z.pow_succ_r by lia. f_equal. lia.
Qed.

Lemma shr_record_of_loc_m (m : Z) (l : location) : shr_m (shr_record_of_loc m l) = m.
Proof. destruct l as [|[]]; reflexivity. Qed.

(** One shift of [binary_round_aux], for any location: the exponent is the
    larger of [e] and [fexp], the mantissa is divided accordingly. *)
Lemma shr_fexp_any (m e : Z) (l : location) :
  0 <= m ->
  let r := shr_fexp prec emax m e l in
  let e1 := Z.max e (fexp prec emax (Zdigits2 m + e)) in
  snd r = e1 /\ shr_m (fst r) = m / 2 ^ (e1 - e).
Proof.
  intros Hm r e1. subst r e1. unfold shr_fexp, shr.
  destruct (fexp prec emax (Zdigits2 m + e) - e) as [|p|p] eqn:E; cbn [fst snd].
  - rewrite shr_record_of_loc_m. rewrite Z.max_l by lia.
    replace (e - e) with 0 by lia. rewrite Z.div_1_r. split; [lia|reflexivity].
  - rewrite iter_pos_iter, shr_m_iter by (rewrite shr_record_of_loc_m; lia).
    rewrite shr_record_of_loc_m. rewrite Z.max_r by lia.
    split; [lia|]. f_equal. f_equal. lia.
  - rewrite shr_record_of_loc_m. rewrite Z.max_l by lia.
    replace (e - e) with 0 by lia. rewrite Z.div_1_r. split; [lia|reflexivity].
Qed.

Lemma round_nearest_even_bounds (m : Z) (l : location) :
  m <= round_nearest_even m l <= m + 1.
Proof.
  destruct l as [|[]]; cbn [round_nearest_even]; try destruct (Z.even m); lia.
Qed.

Lemma Zdigits2_log2 (m : Z) : 0 < m -> Zdigits2 m = Z.log2 m + 1.
Proof.
  intros H. destruct m as [|p|p]; try lia. apply digits2_log2.
Qed.

Lemma Zdigits2_nonneg (m : Z) : 0 <= Zdigits2 m.
Proof. destruct m; simpl; lia. Qed.

Lemma Zdigits2_mono (a b : Z) : 0 <= a <= b -> Zdigits2 a <= Zdigits2 b.
Proof.
  intros [Ha Hab]. destruct (Z.eq_dec a 0) as [->|H0].
  - apply Zdigits2_nonneg.
  - rewrite !Zdigits2_log2 by lia. pose proof (Z.log2_le_mono a b Hab). lia.
Qed.

Lemma Zdigits2_succ (a : Z) : 0 <= a -> Zdigits2 (a + 1) <= Zdigits2 a + 1.
Proof.
  intros Ha. destruct (Z.eq_dec a 0) as [->|H0]; [simpl; lia|].
  rewrite !Zdigits2_log2 by lia.
  pose proof (Z.log2_succ_le a). unfold Z.succ in *. lia.
Qed.

Lemma Zdigits2_div_pow (m k : Z) :
  0 <= m -> 0 <= k -> Zdigits2 (m / 2 ^ k) <= Z.max (Zdigits2 m - k) 0.
Proof.
  intros Hm Hk. pose proof (pow2_pos k Hk) as Hp.
  destruct (Z.eq_dec (m / 2 ^ k) 0) as [->|H0]; [simpl; lia|].
  assert (Hq : 0 < m / 2 ^ k).
  { assert (0 <= m / 2 ^ k) by (apply Z.div_pos; lia). lia. }
  assert (Hmp : 0 < m).
  { destruct (Z.eq_dec m 0) as [->|]; [|lia]. rewrite Z.div_0_l in H0; lia. }
  rewrite !Zdigits2_log2 by lia.
  assert (Z.log2 (m / 2 ^ k) <= Z.log2 m - k); [|lia].
  assert (Z.log2 (m / 2 ^ k) < Z.log2 m - k + 1); [|lia].
  apply Z.log2_lt_pow2; trivial.
  apply Z.div_lt_upper_bound; trivial.
  destruct (Z.le_gt_cases 0 (Z.log2 m - k + 1)).
  - rewrite <- Z.pow_add_r by lia.
    replace (k + (Z.log2 m - k + 1)) with (Z.succ (Z.log2 m)) by lia.
    apply Z.log2_spec. lia.
  - exfalso. assert (m < 2 ^ k); [|apply H0, Z.div_small; lia].
    eapply Z.lt_le_trans; [apply (Z.log2_spec m Hmp)|].
    apply Z.pow_le_mono_r; lia.
Qed.

(** [binary_round_aux] on a non-negative mantissa gives a non-negative
    number, and no infinity when the input is below [2^1023]. *)
Lemma binary_round_aux_nonneg (m e : Z) (l : location) :
  0 <= m ->
  nonnegSF (binary_round_aux prec emax false m e l) = true
  /\ (e <= 971 -> Zdigits2 m + e <= 1023 ->
      binary_round_aux prec emax false m e l <> S754_infinity false).
Proof.
  intros Hm. unfold binary_round_aux.
  pose proof (shr_fexp_any m e l Hm) as [He1 Hm1]. cbv zeta in He1, Hm1.
  destruct (shr_fexp prec emax m e l) as [mrs' e']. cbn [fst snd] in He1, Hm1.
  rewrite <- He1 in Hm1.
  assert (Hk : 0 <= e' - e) by lia.
  assert (Hm1' : 0 <= shr_m mrs').
  { rewrite Hm1. apply Z.div_pos; [lia|]. apply pow2_pos. lia. }
  pose proof (round_nearest_even_bounds (shr_m mrs') (loc_of_shr_record mrs')) as Hr.
  set (m2 := round_nearest_even (shr_m mrs') (loc_of_shr_record mrs')) in *.
  pose proof (shr_fexp_any m2 e' loc_Exact ltac:(lia)) as [He2 Hm2]. cbv zeta in He2, Hm2.
  destruct (shr_fexp prec emax m2 e' loc_Exact) as [mrs'' e'']. cbn [fst snd] in He2, Hm2.
  rewrite <- He2 in Hm2.
  assert (Hm2' : 0 <= shr_m mrs'').
  { rewrite Hm2. apply Z.div_pos; [lia|]. apply pow2_pos. lia. }
  destruct (shr_m mrs'') as [|p|p] eqn:Ep; [| |lia].
  - split; [reflexivity|]. intros _ _. discriminate.
  - destruct (Z.leb_spec e'' (emax - prec)) as [Hle|Hgt]; (split; [reflexivity|]).
    + intros _ _. discriminate.
    + intros He Hd. exfalso. change (emax - prec) with 971 in Hgt.
      rewrite fexp_eq in He1.
      assert (Hd2 : Zdigits2 m2 <= Z.max (Zdigits2 m - (e' - e)) 0 + 1).
      { eapply Z.le_trans; [apply (Zdigits2_mono m2 (shr_m mrs' + 1)); lia|].
        eapply Z.le_trans; [apply Zdigits2_succ; lia|].
        rewrite Hm1. pose proof (Zdigits2_div_pow m (e' - e) Hm Hk). lia. }
      rewrite fexp_eq in He2. lia.
Qed.

Lemma div_eucl_div (a b q r : Z) : Z.div_eucl a b = (q, r) -> q = a / b /\ r = a mod b.
Proof. intros H. unfold Z.div, Z.modulo. rewrite H. auto. Qed.

(** The quotient mantissa of [SFdiv_core_binary]. *)
Lemma SFdiv_core_binary_bounds (m1 m2 : positive) (e1 e2 : Z) :
  let '(q, e', l) := SFdiv_core_binary prec emax (Zpos m1) e1 (Zpos m2) e2 in
  0 <= q
  /\ e' <= fexp prec emax (Zpos (digits2_pos m1) + e1 - (Zpos (digits2_pos m2) + e2))
  /\ Zdigits2 q + e'
     <= Z.max (Zpos (digits2_pos m1) + e1 - (Zpos (digits2_pos m2) + e2) + 1) e'.
Proof.
  unfold SFdiv_core_binary.
  change (Zdigits2 (Zpos m1)) with (Zpos (digits2_pos m1)).
  change (Zdigits2 (Zpos m2)) with (Zpos (digits2_pos m2)).
  set (d1 := Zpos (digits2_pos m1)). set (d2 := Zpos (digits2_pos m2)).
  set (e' := Z.min (fexp prec emax (d1 + e1 - (d2 + e2))) (e1 - e2)).
  set (s := e1 - e2 - e').
  assert (Hs : 0 <= s) by (subst s e'; lia).
  set (m' := match s with Zpos _ => Z.shiftl (Zpos m1) s | Z0 => Zpos m1 | Zneg _ => 0 end).
  assert (Hm' : m' = Zpos m1 * 2 ^ s).
  { subst m'. destruct s as [|p|p] eqn:Es; try lia.
    apply Z.shiftl_mul_pow2. lia. }
  destruct (Z.div_eucl m' (Zpos m2)) as [q r] eqn:Ed.
  apply div_eucl_div in Ed. destruct Ed as [Hq _].
  pose proof (pow2_pos s Hs) as Hps.
  assert (Hq0 : 0 <= q) by (subst q; apply Z.div_pos; lia).
  split; [exact Hq0|]. split; [subst e'; lia|].
  destruct (Z.eq_dec q 0) as [->|Hq1]; [simpl; lia|].
  rewrite Zdigits2_log2 by lia.
  assert (Z.log2 q < d1 + s - d2 + 1); [|lia].
  pose proof (pos_lt_pow_digits m1) as H1. fold d1 in H1.
  pose proof (pos_ge_pow_digits m2) as H2. fold d2 in H2.
  assert (Hd2 : 0 < d2) by (subst d2; lia).
  assert (Hd1 : 0 < d1) by (subst d1; lia).
  pose proof (pow2_pos (d2 - 1) ltac:(lia)) as Hp2.
  destruct (Z.le_gt_cases 0 (d1 + s - d2 + 1)) as [Hk|Hk].
  - apply Z.log2_lt_pow2; [lia|].
    subst q. apply Z.div_lt_upper_bound; [lia|].
    rewrite Hm'.
    assert (Hpow : 2 ^ (d2 - 1) * 2 ^ (d1 + s - d2 + 1) = 2 ^ d1 * 2 ^ s).
    { rewrite <- !Z.pow_add_r by lia. f_equal. lia. }
    pose proof (pow2_pos (d1 + s - d2 + 1) Hk). nia.
  - exfalso. apply Hq1. subst q. apply Z.div_small. split; [lia|].
    rewrite Hm'.
    assert (2 ^ d1 * 2 ^ s <= 2 ^ (d2 - 1)).
    { rewrite <- Z.pow_add_r by lia. apply Z.pow_le_mono_r; lia. }
    nia.
Qed.

Lemma SFdiv_nonneg (x y : spec_float) :
  valid_binary x = true -> valid_binary y = true ->
  nonnegSF x = true -> nonnegSF y = true ->
  0 < val y < top ->
  nonnegSF (SF64div x y) = true
  /\ (val x < top -> 2 ^ (scale + 1) <= val y -> SF64div x y <> S754_infinity false).
Proof.
  intros Vx Vy Nx Ny Fy. pose proof top_pos as Ht. unfold SF64div.
  destruct y as [sy|[]| |[] my ey]; try discriminate Ny; cbn [val] in Fy; try lia.
  destruct x as [sx|[]| |[] mx ex]; try discriminate Nx; cbn [SFdiv xorb].
  - split; [reflexivity|]. discriminate.
  - split; [reflexivity|]. cbn [val]. lia.
  - pose proof (SFdiv_core_binary_bounds mx my ex ey) as Hc.
    destruct (SFdiv_core_binary prec emax (Zpos mx) ex (Zpos my) ey) as [[q e'] l].
    destruct Hc as [Hq [He' Hd]].
    pose proof (binary_round_aux_nonneg q e' l Hq) as [Hn Hf].
    split; [exact Hn|]. intros _ Hy. cbn [val] in Hy. apply Hf.
    + apply valid_finite in Vx. destruct Vx as [Hex [Hmx [_ Hfx]]].
      rewrite fexp_eq in Hfx, He'.
      apply valid_finite in Vy. destruct Vy as [Hey _].
      pose proof (pos_lt_pow_digits my) as Hlt.
      assert (Hd2 : scale + 1 < Zpos (digits2_pos my) + (ey + scale)).
      { apply (Z.pow_lt_mono_r_iff 2); [lia|unfold scale; lia|].
        rewrite (Z.pow_add_r 2 (Zpos (digits2_pos my))) by (unfold scale; lia).
        pose proof (pow2_pos (ey + scale) ltac:(unfold scale; lia)). nia. }
      lia.
    + apply valid_finite in Vx. destruct Vx as [Hex [Hmx [_ Hfx]]].
      rewrite fexp_eq in Hfx, He'.
      apply valid_finite in Vy. destruct Vy as [Hey _].
      pose proof (pos_lt_pow_digits my) as Hlt.
      assert (Hd2 : scale + 1 < Zpos (digits2_pos my) + (ey + scale)).
      { apply (Z.pow_lt_mono_r_iff 2); [lia|unfold scale; lia|].
        rewrite (Z.pow_add_r 2 (Zpos (digits2_pos my))) by (unfold scale; lia).
        pose proof (pow2_pos (ey + scale) ltac:(unfold scale; lia)). nia. }
      lia.
Qed.

Local Open Scope float_scope.

(** ** Non-negative numbers *)

Lemma nn_leb (x : float) : nn x <-> (0 <=? x) = true.
Proof.
  unfold nn. rewrite leb_spec.
  change (Prim2SF 0) with (S754_zero false).
  destruct (Prim2SF x) as [s|[]| |[] m e]; cbn; intuition congruence.
Qed.

Lemma fval_nonneg (x : float) : (0 <= fval x)%Z.
Proof. apply val_nonneg. Qed.

Lemma fval_le_top (x : float) : nn x -> (fval x <= top)%Z.
Proof.
  unfold nn, fval. intros H. pose proof (Prim2SF_valid x) as V.
  destruct (Prim2SF x) as [s|[]| |[] m e]; try discriminate H; cbn [val];
    pose proof top_pos; try lia.
  pose proof (val_finite_lt_top _ _ _ V) as Hlt. cbn [val] in Hlt. lia.
Qed.

Lemma leb_fval (x y : float) :
  nn x -> nn y -> (x <=? y) = true <-> (fval x <= fval y)%Z.
Proof.
  intros Hx Hy. rewrite leb_spec.
  apply SFleb_val; trivial; apply Prim2SF_valid.
Qed.

Lemma add_fval (x y : float) :
  nn x -> nn y -> nn (x + y) /\ fval (x + y) = rnd (fval x + fval y).
Proof.
  intros Hx Hy. unfold nn, fval. rewrite add_spec.
  apply SFadd_val; trivial; apply Prim2SF_valid.
Qed.

Lemma mul_fval (x y : float) :
  nn x -> nn y -> (fval x < top)%Z -> (fval y < top)%Z ->
  nn (x * y) /\ fval (x * y) = rnd (fval x * fval y / 2 ^ scale).
Proof.
  intros Hx Hy Fx Fy. unfold nn, fval. rewrite mul_spec.
  apply SFmul_val; trivial; apply Prim2SF_valid.
Qed.

(** Infinity times a positive finite number is infinity. *)
Lemma mul_inf (x y : float) :
  nn x -> nn y -> fval x = top -> (0 < fval y)%Z ->
  nn (x * y) /\ fval (x * y) = top.
Proof.
  unfold nn, fval. intros Hx Hy Fx Fy. rewrite mul_spec.
  pose proof (Prim2SF_valid x) as Vx.
  destruct (Prim2SF x) as [sx|[]| |[] mx ex]; try discriminate Hx.
  - cbn [val] in Fx. pose proof top_pos. lia.
  - destruct (Prim2SF y) as [sy|[]| |[] my ey]; try discriminate Hy;
      cbn [val] in Fy; try lia; split; reflexivity.
  - pose proof (val_finite_lt_top _ _ _ Vx). lia.
Qed.

(** A non-negative number times a positive finite one. *)
Lemma mul_nn (x y : float) :
  nn x -> nn y -> (0 < fval y < top)%Z -> nn (x * y).
Proof.
  intros Hx Hy Fy. pose proof (fval_le_top x Hx) as Hle.
  destruct (Z.eq_dec (fval x) top) as [E|NE].
  - apply mul_inf; trivial; lia.
  - apply mul_fval; trivial; lia.
Qed.

Lemma rnd_fval (x : float) : nn x -> rnd (fval x) = fval x.
Proof.
  intros H. apply rnd_valid; trivial. apply Prim2SF_valid.
Qed.

Lemma div_scale_le (V c : Z) :
  (0 <= V)%Z -> (0 <= c <= 2 ^ scale)%Z -> (V * c / 2 ^ scale <= V)%Z.
Proof.
  intros HV Hc. pose proof (pow2_pos scale ltac:(unfold scale; lia)).
  apply Z.div_le_upper_bound; nia.
Qed.

Lemma div_scale_ge (V c : Z) :
  (0 <= V)%Z -> (2 ^ scale <= c)%Z -> (V <= V * c / 2 ^ scale)%Z.
Proof.
  intros HV Hc. pose proof (pow2_pos scale ltac:(unfold scale; lia)).
  apply Z.div_le_lower_bound; nia.
Qed.

(** Multiplying by a factor of at most one does not increase a number, by
    a factor of at least one does not decrease it. *)
Lemma mul_le_self (x c : float) :
  nn x -> nn c -> (0 < fval c <= 2 ^ scale)%Z ->
  nn (x * c) /\ (fval (x * c) <= fval x)%Z.
Proof.
  intros Hx Hc Fc. pose proof (fval_le_top x Hx) as Hle.
  assert (Hct : (2 ^ scale < top)%Z).
  { unfold top. apply Z.pow_lt_mono_r; unfold scale; lia. }
  destruct (Z.eq_dec (fval x) top) as [E|NE].
  - destruct (mul_inf x c Hx Hc E ltac:(lia)) as [H1 H2]. split; trivial. lia.
  - destruct (mul_fval x c Hx Hc ltac:(lia) ltac:(lia)) as [H1 H2].
    split; trivial. rewrite H2.
    assert (H : (rnd (fval x * fval c / 2 ^ scale) <= rnd (fval x))%Z).
    { apply rnd_mono.
      - apply Z.div_pos; [|apply pow2_pos; unfold scale; lia].
        pose proof (fval_nonneg x). nia.
      - apply div_scale_le; [apply fval_nonneg|lia]. }
    now rewrite (rnd_fval x Hx) in H.
Qed.

Lemma mul_ge_self (x c : float) :
  nn x -> nn c -> (2 ^ scale <= fval c < top)%Z ->
  nn (x * c) /\ (fval x <= fval (x * c))%Z.
Proof.
  intros Hx Hc Fc. pose proof (fval_le_top x Hx) as Hle.
  pose proof (pow2_pos scale ltac:(unfold scale; lia)) as Hs.
  destruct (Z.eq_dec (fval x) top) as [E|NE].
  - destruct (mul_inf x c Hx Hc E ltac:(lia)) as [H1 H2]. split; trivial. lia.
  - destruct (mul_fval x c Hx Hc ltac:(lia) ltac:(lia)) as [H1 H2].
    split; trivial. rewrite H2.
    assert (H : (rnd (fval x) <= rnd (fval x * fval c / 2 ^ scale))%Z).
    { apply rnd_mono; [apply fval_nonneg|].
      apply div_scale_ge; [apply fval_nonneg|lia]. }
    now rewrite (rnd_fval x Hx) in H.
Qed.

Lemma add_le_mono_r (a b c : float) :
  nn a -> nn b -> nn c -> (fval b <= fval c)%Z ->
  (fval (a + b) <= fval (a + c))%Z.
Proof.
  intros Ha Hb Hc Hbc.
  destruct (add_fval a b Ha Hb) as [_ ->].
  destruct (add_fval a c Ha Hc) as [_ ->].
  pose proof (fval_nonneg a). pose proof (fval_nonneg b).
  apply rnd_mono; lia.
Qed.

Lemma add_ge_l (a s : float) :
  nn a -> nn s -> (fval a <= fval (a + s))%Z.
Proof.
  intros Ha Hs.
  destruct (add_fval a s Ha Hs) as [_ ->].
  pose proof (fval_nonneg a). pose proof (fval_nonneg s).
  assert (H1 : (rnd (fval a) <= rnd (fval a + fval s))%Z) by (apply rnd_mono; lia).
  now rewrite (rnd_fval a Ha) in H1.
Qed.

Lemma div_nn (x c : float) :
  nn x -> nn c -> (0 < fval c < top)%Z -> nn (x / c).
Proof.
  unfold nn, fval. intros Hx Hc Fc. rewrite div_spec.
  apply SFdiv_nonneg; trivial; apply Prim2SF_valid.
Qed.

Lemma div_finite (x c : float) :
  nn x -> nn c -> (fval x < top)%Z -> (2 ^ (scale + 1) <= fval c < top)%Z ->
  (fval (x / c) < top)%Z.
Proof.
  intros Hx Hc Fx Fc.
  pose proof (div_nn x c Hx Hc) as Hn.
  assert (F0 : (0 < fval c < top)%Z).
  { pose proof (pow2_pos (scale + 1) ltac:(unfold scale; lia)). lia. }
  specialize (Hn F0).
  unfold nn, fval in *. pose proof (Prim2SF_valid (x / c)) as V.
  rewrite div_spec in *.
  destruct (SFdiv_nonneg (Prim2SF x) (Prim2SF c) (Prim2SF_valid x) (Prim2SF_valid c)
              Hx Hc F0) as [_ Hninf].
  specialize (Hninf Fx ltac:(lia)).
  destruct (SF64div (Prim2SF x) (Prim2SF c)) as [s|[]| |[] m e]; try discriminate Hn.
  - apply top_pos.
  - congruence.
  - apply (val_finite_lt_top false). exact V.
Qed.

Local Open Scope Z_scope.

Lemma rh_mono (V W : Z) : V <= W -> rh V <= rh W.
Proof.
  intros H. unfold rh.
  pose proof (pow2_pos scale ltac:(unfold scale; lia)).
  pose proof (pow2_pos (scale + 1) ltac:(unfold scale; lia)).
  apply Z.mul_le_mono_nonneg_r; [lia|].
  apply Z.div_le_mono; lia.
Qed.

Lemma rh_integer (k : Z) : rh (k * 2 ^ scale) = k * 2 ^ scale.
Proof.
  unfold rh. f_equal.
  pose proof (pow2_pos scale ltac:(unfold scale; lia)).
  rewrite Z.pow_add_r by (unfold scale; lia). change (2 ^ 1) with 2.
  replace (2 * (k * 2 ^ scale) + 2 ^ scale) with ((2 * k + 1) * 2 ^ scale) by lia.
  rewrite (Z.mul_comm (2 ^ scale) 2).
  rewrite Z.div_mul_cancel_r by lia.
  symmetry. apply Z.div_unique with (r := 1); lia.
Qed.

Lemma rnd_integer (q : Z) : 0 <= q < 2 ^ 53 -> rnd (q * 2 ^ scale) = q * 2 ^ scale.
Proof.
  intros Hq. destruct (Z.eq_dec q 0) as [->|H0]; [reflexivity|].
  pose proof (pow2_pos scale ltac:(unfold scale; lia)) as Hs.
  assert (HL : Z.log2 q < 53) by (apply Z.log2_lt_pow2; lia).
  pose proof (Z.log2_nonneg q) as HL0.
  unfold rnd, out.
  assert (Hn : nexp (q * 2 ^ scale) <= scale).
  { unfold nexp. rewrite Z.log2_mul_pow2 by (unfold scale; lia). unfold scale. lia. }
  pose proof (nexp_ge (q * 2 ^ scale)) as Hn0.
  set (n := nexp (q * 2 ^ scale)) in *.
  assert (Hpow : 2 ^ scale = 2 ^ (scale - n) * 2 ^ n).
  { rewrite <- Z.pow_add_r by lia. f_equal. lia. }
  pose proof (pow2_pos n ltac:(lia)) as Hpn.
  rewrite rne_exact.
  - rewrite Hpow at 1. rewrite Z.mul_assoc, Z.div_mul by lia.
    rewrite <- Z.mul_assoc, <- Hpow.
    apply Z.min_l.
    rewrite <- (top_eq 53 971) by (unfold scale; lia).
    apply mul_pow_le; unfold scale; lia.
  - lia.
  - rewrite Hpow, Z.mul_assoc. apply Z.mod_mul. lia.
Qed.

Lemma Prim2SF_of_pos (q : positive) :
  Zpos q < 2 ^ 53 ->
  nonnegSF (Prim2SF (of_Z (Zpos q))) = true
  /\ val (Prim2SF (of_Z (Zpos q))) = Zpos q * 2 ^ scale.
Proof.
  intros Hq. unfold of_Z. rewrite of_uint63_spec.
  change (Uint63Axioms.of_Z (Zpos q)) with (Uint63.of_Z (Zpos q)).
  rewrite Uint63.of_Z_spec.
  rewrite Z.mod_small.
  - cbn [binary_normalize].
    rewrite <- (rnd_integer (Zpos q)) by lia.
    apply (binary_round_val q 0). unfold scale. lia.
  - split; [lia|]. eapply Z.lt_trans; [exact Hq|]. reflexivity.
Qed.

Lemma Math_round_fval (x : float) :
  nn x -> nn (Math_round x) /\ fval (Math_round x) = rh (fval x).
Proof.
  unfold nn, fval, Math_round. intros Hx.
  pose proof (Prim2SF_valid x) as Vx.
  destruct (Prim2SF x) as [s|[]| |[] m e] eqn:E; try discriminate Hx.
  - rewrite E. split; [trivial|]. cbn [val]. reflexivity.
  - rewrite E. split; [trivial|]. cbn [val]. unfold top.
    rewrite Z.pow_add_r by (unfold scale; lia). now rewrite rh_integer.
  - apply valid_finite in Vx. destruct Vx as [He [Hm _]].
    destruct (Z.leb_spec 0 e) as [H0|H0].
    + rewrite E. split; [trivial|]. cbn [val].
      rewrite Z.pow_add_r by (unfold scale; lia).
      rewrite Z.mul_assoc. now rewrite rh_integer.
    + cbn [cond_Zopp].
      assert (Hq : (2 * Zpos m + 2 ^ (- e)) / 2 ^ (- e + 1)
                   = (2 * (Zpos m * 2 ^ (e + scale)) + 2 ^ scale) / 2 ^ (scale + 1)).
      { pose proof (pow2_pos (e + scale) ltac:(unfold scale; lia)) as Hp.
        replace (2 * (Zpos m * 2 ^ (e + scale)) + 2 ^ scale)
          with ((2 * Zpos m + 2 ^ (- e)) * 2 ^ (e + scale)).
        - replace (2 ^ (scale + 1)) with (2 ^ (- e + 1) * 2 ^ (e + scale)).
          + pose proof (pow2_pos (- e + 1) ltac:(lia)).
            rewrite Z.div_mul_cancel_r by lia. reflexivity.
          + rewrite <- Z.pow_add_r by (unfold scale; lia). f_equal. lia.
        - rewrite Z.mul_add_distr_r. f_equal; [lia|].
          rewrite <- Z.pow_add_r by (unfold scale; lia). f_equal. lia. }
      assert (Hqb : 0 <= (2 * Zpos m + 2 ^ (- e)) / 2 ^ (- e + 1) < 2 ^ 53).
      { pose proof (pow2_pos (- e) ltac:(lia)) as Hp.
        assert (Hp1 : 2 ^ (- e + 1) = 2 * 2 ^ (- e)).
        { rewrite Z.pow_add_r by lia. change (2 ^ 1) with 2. lia. }
        split.
        - apply Z.div_pos; lia.
        - apply Z.div_lt_upper_bound; [lia|]. rewrite Hp1. 
          assert (2 <= 2 ^ (- e)).
          { change 2 with (2 ^ 1) at 1. apply Z.pow_le_mono_r; lia. }
          nia. }
      unfold rh. cbn [val]. rewrite <- Hq.
      destruct ((2 * Zpos m + 2 ^ (- e)) / 2 ^ (- e + 1)) as [|q|q] eqn:Eq; [| |lia].
      * cbn [Z.eqb signed_zero]. split; reflexivity.
      * cbn [Z.eqb]. apply Prim2SF_of_pos. lia.
Qed.

Lemma Math_round_mono (x y : float) :
  nn x -> nn y -> fval x <= fval y -> fval (Math_round x) <= fval (Math_round y).
Proof.
  intros Hx Hy H.
  destruct (Math_round_fval x Hx) as [_ ->].
  destruct (Math_round_fval y Hy) as [_ ->].
  now apply rh_mono.
Qed.

(** The error of rounding a value below [2^K]. *)
Lemma rnd_error (X K : Z) :
  0 <= X < 2 ^ K -> 1127 <= K <= 1023 + scale ->
  Z.abs (2 * rnd X - 2 * X) <= 2 ^ (K - 53).
Proof.
  intros [H0 HX] HK.
  pose proof (nexp_ge X) as Hn.
  assert (Hn' : nexp X <= K - 53).
  { unfold nexp. destruct (Z.eq_dec X 0) as [->|Hx]; [simpl; lia|].
    assert (Z.log2 X < K) by (apply Z.log2_lt_pow2; lia). lia. }
  pose proof (rne_error X (nexp X) ltac:(lia)) as He.
  fold (out X) in He.
  assert (Hp : 2 ^ nexp X <= 2 ^ (K - 53)) by (apply Z.pow_le_mono_r; lia).
  assert (Hout : out X <= top).
  { assert (2 * 2 ^ K <= top).
    { unfold top. replace (2 * 2 ^ K) with (2 ^ (K + 1)).
      - apply Z.pow_le_mono_r; lia.
      - rewrite Z.pow_add_r by lia. lia. }
    assert (2 ^ (K - 53) <= 2 ^ K) by (apply Z.pow_le_mono_r; lia).
    lia. }
  unfold rnd. rewrite Z.min_l by trivial. lia.
Qed.

Lemma rh_half_up (V : Z) : rh V = half_up V * 2 ^ scale.
Proof. reflexivity. Qed.

Lemma half_up_spec (V : Z) :
  2 * (2 ^ scale * half_up V) <= 2 * V + 2 ^ scale
  /\ 2 * V + 2 ^ scale < 2 * (2 ^ scale * half_up V) + 2 * 2 ^ scale.
Proof.
  unfold half_up.
  pose proof (pow2_pos scale ltac:(unfold scale; lia)) as HU.
  assert (H2 : 2 ^ (scale + 1) = 2 * 2 ^ scale).
  { rewrite Z.pow_add_r by (unfold scale; lia). change (2 ^ 1) with 2. lia. }
  rewrite H2.
  pose proof (Z.div_mod (2 * V + 2 ^ scale) (2 * 2 ^ scale) ltac:(lia)) as Hd.
  pose proof (Z.mod_pos_bound (2 * V + 2 ^ scale) (2 * 2 ^ scale) ltac:(lia)) as Hm.
  lia.
Qed.

Lemma half_up_nonneg (V : Z) : 0 <= V -> 0 <= half_up V.
Proof.
  intros H. unfold half_up.
  pose proof (pow2_pos scale ltac:(unfold scale; lia)).
  apply Z.div_pos; [lia|]. apply pow2_pos. unfold scale. lia.
Qed.

Lemma half_up_le (V k : Z) : 0 <= V <= k * 2 ^ scale -> half_up V <= k.
Proof.
  intros [H0 H]. pose proof (half_up_spec V) as [H1 _].
  pose proof (pow2_pos scale ltac:(unfold scale; lia)) as HU.
  assert (2 * 2 ^ scale * half_up V < 2 * 2 ^ scale * (k + 1)) by lia.
  assert (half_up V < k + 1); [|lia].
  apply (Z.mul_lt_mono_pos_l (2 * 2 ^ scale)); lia.
Qed.

Lemma rnd_exact (V : Z) : 0 <= V < top -> repr V -> rnd V = V.
Proof.
  intros [H0 Ht] H. unfold rnd, out.
  pose proof (nexp_ge V) as Hn.
  pose proof (pow2_pos (nexp V) ltac:(lia)) as Hp.
  rewrite rne_exact by (trivial; lia).
  pose proof (Z.div_mod V (2 ^ nexp V) ltac:(lia)) as Hd.
  unfold repr in H. rewrite H in Hd.
  replace (V / 2 ^ nexp V * 2 ^ nexp V) with V by lia. lia.
Qed.

Lemma repr_top : repr top.
Proof.
  unfold repr, nexp, top.
  rewrite Z.log2_pow2 by (unfold scale; lia).
  rewrite Z.max_l by (unfold scale; lia).
  replace (2 ^ (1024 + scale)) with (2 ^ 52 * 2 ^ (1024 + scale - 52)).
  - apply Z.mod_mul.
    pose proof (pow2_pos (1024 + scale - 52) ltac:(unfold scale; lia)). lia.
  - rewrite <- Z.pow_add_r by (unfold scale; lia). f_equal; lia.
Qed.

Lemma repr_val (x : spec_float) :
  valid_binary x = true -> nonnegSF x = true -> repr (val x).
Proof.
  intros V N. destruct x as [s|[]| |[] m e]; try discriminate N; cbn [val] in *.
  - reflexivity.
  - apply repr_top.
  - apply valid_finite in V. destruct V as [He [_ [_ Hf]]].
    unfold repr. rewrite nexp_pos_mul by (unfold scale; lia). rewrite Hf.
    apply Z.mod_mul. pose proof (pow2_pos (e + scale) ltac:(unfold scale; lia)). lia.
Qed.

Lemma repr_mul_pow (q j : Z) :
  0 < q < 2 ^ 53 -> 1074 <= j -> repr (q * 2 ^ j).
Proof.
  intros Hq Hj. unfold repr.
  assert (HL : Z.log2 q < 53) by (apply Z.log2_lt_pow2; lia).
  assert (Hn : nexp (q * 2 ^ j) <= j).
  { unfold nexp. rewrite Z.log2_mul_pow2 by lia. lia. }
  pose proof (nexp_ge (q * 2 ^ j)) as Hn0.
  set (n := nexp (q * 2 ^ j)) in *.
  assert (Hpow : 2 ^ j = 2 ^ (j - n) * 2 ^ n).
  { rewrite <- Z.pow_add_r by lia. f_equal. lia. }
  rewrite Hpow, Z.mul_assoc. apply Z.mod_mul.
  pose proof (pow2_pos n ltac:(lia)). lia.
Qed.

Lemma repr_0 : repr 0.
Proof. reflexivity. Qed.

(** A representable value above [V] is above it by a unit in the last place
    of [V] at least. *)
Lemma repr_gap (V A : Z) :
  0 <= V < A -> repr V -> repr A -> V + 2 ^ nexp V <= A.
Proof.
  intros [H0 HA] RV RA. unfold repr in *.
  pose proof (nexp_ge V) as Hn.
  pose proof (nexp_mono V A ltac:(lia)) as Hm.
  pose proof (pow2_pos (nexp V) ltac:(lia)) as Hp.
  assert (HA' : A mod 2 ^ nexp V = 0).
  { assert (Hpow : 2 ^ nexp A = 2 ^ (nexp A - nexp V) * 2 ^ nexp V).
    { rewrite <- Z.pow_add_r by lia. f_equal. lia. }
    pose proof (Z.div_mod A (2 ^ nexp A) ltac:(pose proof (pow2_pos (nexp A)); lia)) as Hd.
    rewrite RA, Z.add_0_r, Hpow in Hd.
    rewrite Hd. rewrite Z.mul_comm, Z.mul_assoc. apply Z.mod_mul. lia. }
  pose proof (Z.div_mod A (2 ^ nexp V) ltac:(lia)) as HdA.
  pose proof (Z.div_mod V (2 ^ nexp V) ltac:(lia)) as HdV.
  rewrite HA' in HdA. rewrite RV in HdV.
  assert (V / 2 ^ nexp V < A / 2 ^ nexp V) by nia.
  nia.
Qed.

Lemma nexp_double (V : Z) : 0 < V -> nexp (2 * V) <= nexp V + 1.
Proof.
  intros H. unfold nexp.
  replace (2 * V) with (V * 2 ^ 1) by (change (2 ^ 1) with 2; lia).
  rewrite Z.log2_mul_pow2 by lia. lia.
Qed.

(** Rounding the sum of two values that stay below representable [A] and
    [B] stays below [A + B]. *)
Lemma rnd_add_below (Va Vb A B : Z) :
  0 <= Va < A -> 0 <= Vb < B -> repr Va -> repr Vb -> repr A -> repr B ->
  rnd (Va + Vb) < A + B.
Proof.
  intros Ha Hb Ra Rb RA RB.
  pose proof (repr_gap Va A Ha Ra RA) as Ga.
  pose proof (repr_gap Vb B Hb Rb RB) as Gb.
  assert (Ho : out (Va + Vb) < A + B); [|unfold rnd; lia].
  destruct (Z.eq_dec (Va + Vb) 0) as [E|NE].
  - rewrite E, out_0. lia.
  - pose proof (nexp_ge (Va + Vb)) as Hn.
    pose proof (rne_error (Va + Vb) (nexp (Va + Vb)) ltac:(lia)) as He.
    fold (out (Va + Vb)) in He.
    pose proof (pow2_pos (nexp Va) ltac:(pose proof (nexp_ge Va); lia)) as Hpa.
    pose proof (pow2_pos (nexp Vb) ltac:(pose proof (nexp_ge Vb); lia)) as Hpb.
    assert (Hx : 2 ^ nexp (Va + Vb) <= 2 * 2 ^ Z.max (nexp Va) (nexp Vb)).
    { replace (2 * 2 ^ Z.max (nexp Va) (nexp Vb))
        with (2 ^ (Z.max (nexp Va) (nexp Vb) + 1)).
      - apply Z.pow_le_mono_r; [lia|].
        destruct (Z.le_ge_cases Va Vb).
        + pose proof (nexp_mono (Va + Vb) (2 * Vb) ltac:(lia)).
          pose proof (nexp_double Vb ltac:(lia)). lia.
        + pose proof (nexp_mono (Va + Vb) (2 * Va) ltac:(lia)).
          pose proof (nexp_double Va ltac:(lia)). lia.
      - rewrite Z.pow_add_r by (pose proof (nexp_ge Va); lia).
        change (2 ^ 1) with 2. lia. }
    assert (2 ^ Z.max (nexp Va) (nexp Vb) < 2 ^ nexp Va + 2 ^ nexp Vb).
    { destruct (Z.max_spec (nexp Va) (nexp Vb)) as [[_ ->]|[_ ->]]; lia. }
    lia.
Qed.

Lemma repr_fval (x : float) : nn x -> repr (fval x).
Proof. intros N. apply repr_val; [apply Prim2SF_valid|exact N]. Qed.

Lemma unit_halves : 2 ^ scale = 2 * 2 ^ (scale - 1).
Proof. reflexivity. Qed.

(** Sums that stay below a number of half units. *)
Lemma add_below (a b : float) (qa qb : Z) :
  nn a -> nn b -> 0 < qa < 2 ^ 53 -> 0 < qb < 2 ^ 53 ->
  2 * fval a < qa * 2 ^ scale -> 2 * fval b < qb * 2 ^ scale ->
  2 * fval (a + b) < (qa + qb) * 2 ^ scale.
Proof.
  intros Na Nb Ha Hb La Lb.
  destruct (add_fval a b Na Nb) as [_ V]. rewrite V.
  pose proof unit_halves as HU.
  pose proof (pow2_pos (scale - 1) ltac:(unfold scale; lia)) as HP.
  pose proof (fval_nonneg a). pose proof (fval_nonneg b).
  pose proof (rnd_add_below (fval a) (fval b)
                (qa * 2 ^ (scale - 1)) (qb * 2 ^ (scale - 1))
                ltac:(nia) ltac:(nia) (repr_fval a Na) (repr_fval b Nb)
                (repr_mul_pow qa (scale - 1) Ha ltac:(unfold scale; lia))
                (repr_mul_pow qb (scale - 1) Hb ltac:(unfold scale; lia))).
  nia.
Qed.

(** Sums that stay above a number of half units. *)
Lemma add_above (a b : float) (q : Z) :
  nn a -> nn b -> q < 2 ^ 53 ->
  q * 2 ^ scale <= 2 * (fval a + fval b) ->
  q * 2 ^ scale <= 2 * fval (a + b).
Proof.
  intros Na Nb Hq L.
  destruct (add_fval a b Na Nb) as [N V].
  pose proof unit_halves as HU.
  pose proof (pow2_pos (scale - 1) ltac:(unfold scale; lia)) as HP.
  pose proof (fval_nonneg (a + b)) as H0.
  destruct (Z.le_gt_cases q 0) as [Hn|Hp]; [nia|].
  rewrite V.
  assert (Ht : q * 2 ^ (scale - 1) < top).
  { assert (2 ^ 53 * 2 ^ (scale - 1) <= top).
    { unfold top. rewrite <- Z.pow_add_r by (unfold scale; lia).
      apply Z.pow_le_mono_r; unfold scale; lia. }
    nia. }
  pose proof (rnd_mono (q * 2 ^ (scale - 1)) (fval a + fval b)
                ltac:(nia) ltac:(nia)) as Hm.
  rewrite rnd_exact in Hm;
    [nia|nia|apply repr_mul_pow; [lia|unfold scale; lia]].
Qed.

End Binary64Facts.

Import Binary64Facts.

(** * Properties *)

(** ** The catalog and the map built from it *)

Lemma has_activeb_spec (code : string) (rows : list RateCardRow) :
  has_activeb code rows = true <-> has_active code rows.
Proof.
  unfold has_activeb, has_active. rewrite existsb_exists.
  split; intros [r [Hin H]]; exists r; split; trivial.
  - apply andb_true_iff in H. destruct H as [H1 H2].
    apply String.eqb_eq in H1. auto.
  - destruct H as [H1 H2]. rewrite H2, andb_true_r. now apply String.eqb_eq.
Qed.

Lemma Map_get_In {V : Type} (k : string) (entries : list (string * V)) (v : V) :
  Map_get k entries = Some v -> In (k, v) entries.
Proof.
  induction entries as [|[k' v'] rest IH]; simpl; [discriminate|].
  destruct (Map_get k rest) as [v''|].
  - intros H. right. apply IH. exact H.
  - destruct (String.eqb_spec k k') as [->|_]; [|discriminate].
    intros H. injection H as ->. now left.
Qed.

Lemma Map_get_None {V : Type} (k : string) (entries : list (string * V)) :
  Map_get k entries = None <-> forall v, ~ In (k, v) entries.
Proof.
  induction entries as [|[k' v'] rest IH]; simpl.
  - split; auto.
  - destruct (Map_get k rest) as [v''|] eqn:E.
    + split; [discriminate|]. intros H. exfalso.
      apply (H v''). right. now apply Map_get_In.
    + destruct (String.eqb_spec k k') as [->|Hne].
      * split; [discriminate|]. intros H. exfalso. apply (H v'). now left.
      * split; trivial. intros _ v [H|H].
        -- injection H as H1 H2. congruence.
        -- destruct IH as [IH _]. now apply (IH eq_refl v).
Qed.

Lemma Map_get_is_Some {V : Type} (k : string) (entries : list (string * V)) (v : V) :
  In (k, v) entries -> exists v', Map_get k entries = Some v'.
Proof.
  intros Hin. destruct (Map_get k entries) as [v'|] eqn:E; [now exists v'|].
  exfalso. destruct (Map_get_None k entries) as [H _]. exact (H E v Hin).
Qed.

Lemma loadRateCards_Some (w : World) (rows : list RateCardRow) :
  rate_cards w = Some rows ->
  loadRateCards w = Ok (map card_of_row (filter row_active rows)).
Proof.
  intros H. unfold loadRateCards, select_active_rate_cards. now rewrite H.
Qed.

Lemma loaded_card_row (rows : list RateCardRow) (code : string) (rc : RateCard) :
  Map_get code (rateCardMapOf (map card_of_row (filter row_active rows))) = Some rc ->
  exists r, In r rows /\ row_active r = true /\ service_code r = code
            /\ rc = card_of_row r.
Proof.
  intros H. apply Map_get_In in H. unfold rateCardMapOf in H.
  apply in_map_iff in H. destruct H as [rc' [Heq Hin]].
  injection Heq as Hk ->.
  apply in_map_iff in Hin. destruct Hin as [r [<- Hin]].
  apply filter_In in Hin. destruct Hin as [Hin Hact].
  exists r. auto.
Qed.

Lemma loaded_card_present (rows : list RateCardRow) (code : string) :
  has_active code rows ->
  exists rc, Map_get code (rateCardMapOf (map card_of_row (filter row_active rows)))
             = Some rc.
Proof.
  intros [r [Hin [Hc Ha]]].
  apply Map_get_is_Some with (v := card_of_row r).
  unfold rateCardMapOf. apply in_map_iff. exists (card_of_row r). split.
  - simpl. now rewrite Hc.
  - apply in_map. apply filter_In. auto.
Qed.

Lemma loaded_card_absent (rows : list RateCardRow) (code : string) :
  ~ has_active code rows ->
  Map_get code (rateCardMapOf (map card_of_row (filter row_active rows))) = None.
Proof.
  intros Hno.
  destruct (Map_get code _) as [rc|] eqn:E; trivial.
  exfalso. apply Hno. apply loaded_card_row in E.
  destruct E as [r [Hin [Ha [Hc _]]]]. exists r. auto.
Qed.

(** ** Numbers *)

Lemma mul_comm (x y : number) : x * y = y * x.
Proof.
  apply Prim2SF_inj. rewrite !mul_spec. unfold SF64mul.
  destruct (Prim2SF x) as [sx|sx| |sx mx ex], (Prim2SF y) as [sy|sy| |sy my ey];
    simpl; rewrite ?(xorb_comm sy sx); try reflexivity.
  now rewrite (Pos.mul_comm my mx), (Z.add_comm ey ex).
Qed.

(** ** The tiers of a complete catalog *)

Lemma component_costs_exist (w : World) (property : Property) :
  catalog_complete w -> exists m f s l, component_costs w property m f s l.
Proof.
  intros [rows [Hrows Hall]].
  unfold required_codes in Hall.
  repeat match goal with
         | H : Forall _ (_ :: _) |- _ =>
             let H1 := fresh "Hc" in
             apply Forall_cons_iff in H; destruct H as [H1 H];
             apply loaded_card_present in H1; destruct H1 as [? H1]
         end.
  unfold component_costs. rewrite (loadRateCards_Some _ _ Hrows).
  do 4 eexists. eexists. split; [reflexivity|].
  rewrite Hc, Hc0, Hc1, Hc2.
  unfold calculateMowingCost, calculateLeafCleanupCost,
    calculateSeasonalPackageCost, calculateLightsCost. simpl.
  repeat split; reflexivity.
Qed.

Lemma seed_world_complete : catalog_complete seed_world.
Proof.
  exists seed_rate_cards. split; [reflexivity|].
  repeat constructor; apply has_activeb_spec; vm_compute; reflexivity.
Qed.

Lemma calculateAllTiers_ok (w : World) (property : Property) (m f s l : number) :
  component_costs w property m f s l ->
  calculateAllTiers w property =
  Ok [ {| tier := grass_roots;
          tierName := "Grass Roots";
          annualPrice := Math_round (m + f * 0.25);
          monthlyPrice := Math_round ((m + f * 0.25) / 12);
          breakdown := [ ("mowing", Math_round m);
                         ("leafCleanup", Math_round (f * 0.25)) ] |};
       {| tier := premier;
          tierName := "Premier Lawn";
          annualPrice := Math_round (m + f + s);
          monthlyPrice := Math_round ((m + f + s) / 12);
          breakdown := [ ("mowing", Math_round m);
                         ("leafCleanup", Math_round f);
                         ("seasonal", Math_round s) ] |};
       {| tier := total_landscape;
          tierName := "Total Landscape";
          annualPrice := Math_round ((m + f + s + l) * 1.15);
          monthlyPrice := Math_round ((m + f + s + l) * 1.15 / 12);
          breakdown := [ ("mowing", Math_round m);
                         ("leafCleanup", Math_round f);
                         ("seasonal", Math_round s);
                         ("lights", Math_round l);
                         ("premiumMarkup", Math_round ((m + f + s + l) * 0.15)) ] |} ].
Proof.
  intros [rateCards [Hload [Hm [Hf [Hs Hl]]]]].
  unfold calculateAllTiers. rewrite Hload. cbn [bind].
  rewrite Hm. cbn [bind]. rewrite Hf. cbn [bind].
  rewrite Hs. cbn [bind]. rewrite Hl. cbn [bind]. reflexivity.
Qed.

(** ** Total Landscape *)

(** C1.  When the catalog has active entries for the four tier-pricing
    codes, [calculateAllTiers] returns three tiers, the third of which is
    total_landscape; its annualPrice is
    [round (1.15 * (mowing + full leaf cleanup + seasonal + lights))] and its
    breakdown lists the four (rounded) pre-markup costs and a premiumMarkup
    line [round (0.15 * subtotal)]. *)
Theorem total_landscape_markup (w : World) (property : Property) :
  catalog_complete w ->
  exists m f s l t1 t2 t3,
    component_costs w property m f s l
    /\ calculateAllTiers w property = Ok [t1; t2; t3]
    /\ tier t3 = total_landscape
    /\ annualPrice t3 = Math_round (1.15 * (m + f + s + l))
    /\ breakdown t3 = [ ("mowing", Math_round m);
                        ("leafCleanup", Math_round f);
                        ("seasonal", Math_round s);
                        ("lights", Math_round l);
                        ("premiumMarkup", Math_round (0.15 * (m + f + s + l))) ].
Proof.
  intros Hc.
  destruct (component_costs_exist w property Hc) as [m [f [s [l H]]]].
  exists m, f, s, l. do 3 eexists.
  split; [exact H|]. split; [apply calculateAllTiers_ok; exact H|].
  cbn [tier annualPrice breakdown].
  rewrite (mul_comm 1.15), (mul_comm 0.15). auto.
Qed.

Lemma total_landscape_markup_witness :
  exists m f s l t1 t2 t3,
    component_costs seed_world scenario_property m f s l
    /\ calculateAllTiers seed_world scenario_property = Ok [t1; t2; t3]
    /\ tier t3 = total_landscape
    /\ annualPrice t3 = Math_round (1.15 * (m + f + s + l))
    /\ breakdown t3 = [ ("mowing", Math_round m);
                        ("leafCleanup", Math_round f);
                        ("seasonal", Math_round s);
                        ("lights", Math_round l);
                        ("premiumMarkup", Math_round (0.15 * (m + f + s + l))) ].
Proof.
  apply (total_landscape_markup seed_world scenario_property).
  exact seed_world_complete.
Defined.

(** ** A missing rate card *)

Lemma missing_card_throws (w : World) (property : Property)
    (rows : list RateCardRow) :
  rate_cards w = Some rows ->
  Exists (fun code => ~ has_active code rows) required_codes ->
  calculateAllTiers w property
  = Throw (TypeError "Cannot read properties of undefined (reading 'baseRate')").
Proof.
  intros Hrows Hex.
  unfold calculateAllTiers. rewrite (loadRateCards_Some _ _ Hrows). cbn [bind].
  set (cards := rateCardMapOf _).
  unfold required_codes in Hex.
  assert (Hcases :
    Map_get "MOWING_BASE" cards = None \/ Map_get "LEAF_CLEANUP" cards = None
    \/ Map_get "SEASONAL_PACKAGE" cards = None
    \/ Map_get "LIGHTS_INSTALL" cards = None).
  { repeat match goal with
           | H : Exists _ (_ :: _) |- _ =>
               apply Exists_cons in H; destruct H as [H|H];
               [apply loaded_card_absent in H; auto|]
           end.
    inversion Hex. }
  unfold calculateMowingCost, calculateLeafCleanupCost,
    calculateSeasonalPackageCost, calculateLightsCost.
  destruct (Map_get "MOWING_BASE" cards); [|reflexivity]. cbn [deref bind].
  destruct (Map_get "LEAF_CLEANUP" cards); [|reflexivity]. cbn [deref bind].
  destruct (Map_get "SEASONAL_PACKAGE" cards); [|reflexivity]. cbn [deref bind].
  destruct (Map_get "LIGHTS_INSTALL" cards); [|reflexivity].
  exfalso. destruct Hcases as [H|[H|[H|H]]]; discriminate.
Qed.

(** C3, as the code has it.  When one of the four required codes has no
    active row, [calculateAllTiers] returns no tier at all: it throws, and
    what it throws is the runtime's [TypeError] for reading [baseRate] of
    [undefined]; no rate is defaulted. *)
Theorem missing_rate_card_is_a_TypeError (w : World) (property : Property)
    (rows : list RateCardRow) :
  rate_cards w = Some rows ->
  Exists (fun code => ~ has_active code rows) required_codes ->
  exists e,
    calculateAllTiers w property = Throw e
    /\ e = TypeError "Cannot read properties of undefined (reading 'baseRate')"
    /\ is_AppError e = false.
Proof.
  intros Hrows Hex. eexists. split; [|split; reflexivity].
  now apply missing_card_throws with (rows := rows).
Qed.

Lemma lights_not_in_catalog_without_lights :
  ~ has_active "LIGHTS_INSTALL" catalog_without_lights.
Proof.
  intros H. apply has_activeb_spec in H. vm_compute in H. discriminate.
Qed.

Lemma missing_rate_card_is_a_TypeError_witness :
  exists e,
    calculateAllTiers (world_of (Some catalog_without_lights) 8) scenario_property
    = Throw e
    /\ e = TypeError "Cannot read properties of undefined (reading 'baseRate')"
    /\ is_AppError e = false.
Proof.
  apply (missing_rate_card_is_a_TypeError
           (world_of (Some catalog_without_lights) 8) scenario_property
           catalog_without_lights).
  - reflexivity.
  - unfold required_codes. do 3 apply Exists_cons_tl. apply Exists_cons_hd.
    exact lights_not_in_catalog_without_lights.
Defined.

(** C3 as stated fails: with the LIGHTS_INSTALL row gone, the error that
    reaches the caller is not one of the application's error kinds. *)
Lemma missing_rate_card_no_configuration_error :
  exists e,
    calculateAllTiers (world_of (Some catalog_without_lights) 8) scenario_property
    = Throw e
    /\ is_AppError e = false.
Proof.
  eexists. split; [vm_compute; reflexivity|reflexivity].
Qed.

(** ** The multipliers *)

(** C4.  The five table entries; the fallback 1.0 for any other score; and a
    property without a condition score is priced with score 3, multiplier
    1.10: the combined multiplier of [calculateAllTiers] has it, and for a
    complete catalog the annual prices [calculateAllTiers] returns are made
    of the four costs computed with that multiplier. *)
Theorem conditionScoreToMultiplier_table (w : World) (score : number)
    (property : Property) :
  in_table score = false ->
  conditionScore property = None ->
  conditionScoreToMultiplier 1 = 0.90
  /\ conditionScoreToMultiplier 2 = 1.00
  /\ conditionScoreToMultiplier 3 = 1.10
  /\ conditionScoreToMultiplier 4 = 1.25
  /\ conditionScoreToMultiplier 5 = 1.50
  /\ conditionScoreToMultiplier score = 1.0
  /\ complexityMultiplierOf property = conditionScoreToMultiplier 3
  /\ totalMultiplierOf w property
     = getRegionalMultiplier w (zipCode property) * 1.10
       * calculateDistanceMultiplier w
           (calculateDistanceFromServiceCenter w (lat property) (lng property))
  /\ (catalog_complete w ->
      let multiplier :=
        getRegionalMultiplier w (zipCode property) * 1.10
        * calculateDistanceMultiplier w
            (calculateDistanceFromServiceCenter w (lat property) (lng property)) in
      exists rateCards m f s l t1 t2 t3,
        loadRateCards w = Ok rateCards
        /\ calculateMowingCost (or_else (lawnSqft property) 0)
             (Map_get "MOWING_BASE" (rateCardMapOf rateCards)) multiplier = Ok m
        /\ calculateLeafCleanupCost (or_else (lawnSqft property) 0)
             (Map_get "LEAF_CLEANUP" (rateCardMapOf rateCards)) multiplier true = Ok f
        /\ calculateSeasonalPackageCost
             (Map_get "SEASONAL_PACKAGE" (rateCardMapOf rateCards)) multiplier = Ok s
        /\ calculateLightsCost (or_else (rooflineFt property) 0)
             (Map_get "LIGHTS_INSTALL" (rateCardMapOf rateCards)) multiplier = Ok l
        /\ calculateAllTiers w property = Ok [t1; t2; t3]
        /\ annualPrice t1 = Math_round (m + f * 0.25)
        /\ annualPrice t2 = Math_round (m + f + s)
        /\ annualPrice t3 = Math_round ((m + f + s + l) * 1.15)).
Proof.
  intros Hs Hp.
  repeat (split; [vm_compute; reflexivity|]).
  split.
  { unfold in_table in Hs. cbn [existsb] in Hs.
    repeat (apply orb_false_iff in Hs; destruct Hs as [? Hs]).
    unfold conditionScoreToMultiplier, multipliers. cbn [index].
    repeat match goal with H : (score =? _) = false |- _ => rewrite H; clear H end.
    reflexivity. }
  assert (Hc : complexityMultiplierOf property = conditionScoreToMultiplier 3).
  { unfold complexityMultiplierOf. rewrite Hp. reflexivity. }
  split; [exact Hc|].
  assert (Ht : totalMultiplierOf w property
               = getRegionalMultiplier w (zipCode property) * 1.10
                 * calculateDistanceMultiplier w
                     (calculateDistanceFromServiceCenter w (lat property)
                        (lng property))).
  { unfold totalMultiplierOf. rewrite Hc.
    replace (conditionScoreToMultiplier 3) with 1.10 by (vm_compute; reflexivity).
    reflexivity. }
  split; [exact Ht|].
  intros Hcat. cbv zeta.
  destruct (component_costs_exist w property Hcat) as [m [f [s [l Hcc]]]].
  pose proof (calculateAllTiers_ok w property m f s l Hcc) as Hall.
  destruct Hcc as [rateCards [Hload [Hm [Hf [Hsn Hl]]]]].
  rewrite Ht in Hm, Hf, Hsn, Hl.
  exists rateCards, m, f, s, l. do 3 eexists.
  split; [exact Hload|]. split; [exact Hm|]. split; [exact Hf|].
  split; [exact Hsn|]. split; [exact Hl|].
  split; [exact Hall|]. repeat split.
Qed.

Lemma conditionScoreToMultiplier_table_witness :
  conditionScoreToMultiplier 1 = 0.90
  /\ conditionScoreToMultiplier 2 = 1.00
  /\ conditionScoreToMultiplier 3 = 1.10
  /\ conditionScoreToMultiplier 4 = 1.25
  /\ conditionScoreToMultiplier 5 = 1.50
  /\ conditionScoreToMultiplier 7 = 1.0
  /\ complexityMultiplierOf blank_property = conditionScoreToMultiplier 3
  /\ totalMultiplierOf seed_world blank_property
     = getRegionalMultiplier seed_world (zipCode blank_property) * 1.10
       * calculateDistanceMultiplier seed_world
           (calculateDistanceFromServiceCenter seed_world
              (lat blank_property) (lng blank_property))
  /\ exists t1 t2 t3,
       calculateAllTiers seed_world blank_property = Ok [t1; t2; t3]
       /\ annualPrice t1 = 0 /\ annualPrice t2 = 715 /\ annualPrice t3 = 822.
Proof.
  destruct (conditionScoreToMultiplier_table seed_world 7 blank_property)
    as [H1 [H2 [H3 [H4 [H5 [H6 [H7 [H8 H9]]]]]]]].
  - vm_compute; reflexivity.
  - reflexivity.
  - repeat (split; [assumption|]).
    destruct (H9 seed_world_complete)
      as [rateCards [m [f [s [l [t1 [t2 [t3 [Hload [Hm [Hf [Hs [Hl [Hall [A1 [A2 A3]]]]]]]]]]]]]]]].
    exists t1, t2, t3. split; [exact Hall|].
    injection Hload as <-.
    injection Hm as <-. injection Hf as <-. injection Hs as <-. injection Hl as <-.
    rewrite A1, A2, A3. repeat split; vm_compute; reflexivity.
Defined.

(** C5.  With SERVICE_AREA_RADIUS_MILES unset the radius is 25, and the
    multiplier at 0, 10, 10.01, 20, 20.01, 25 and 25.01 miles is 1.00, 1.00,
    1.05, 1.05, 1.10, 1.10 and 1.20: the distances 10, 20 and 25 belong to
    the band they close. *)
Theorem calculateDistanceMultiplier_bands (w : World) :
  SERVICE_AREA_RADIUS_MILES w = None ->
  map (calculateDistanceMultiplier w) [0; 10; 10.01; 20; 20.01; 25; 25.01]
  = [1.00; 1.00; 1.05; 1.05; 1.10; 1.10; 1.20]
  /\ forall d,
       calculateDistanceMultiplier w d
       = if d <=? 10 then 1.00
         else if d <=? 20 then 1.05
         else if d <=? 25 then 1.10
         else 1.20.
Proof.
  intros H. unfold calculateDistanceMultiplier. rewrite H.
  split; [vm_compute; reflexivity|reflexivity].
Qed.

Lemma calculateDistanceMultiplier_bands_witness :
  map (calculateDistanceMultiplier seed_world) [0; 10; 10.01; 20; 20.01; 25; 25.01]
  = [1.00; 1.00; 1.05; 1.05; 1.10; 1.10; 1.20]
  /\ forall d,
       calculateDistanceMultiplier seed_world d
       = if d <=? 10 then 1.00
         else if d <=? 20 then 1.05
         else if d <=? 25 then 1.10
         else 1.20.
Proof.
  apply (calculateDistanceMultiplier_bands seed_world). reflexivity.
Defined.

(** ** Monthly prices *)

(** C7, as the code has it.  Each tier's monthlyPrice is the rounding of
    the tier's annual total before that total is rounded: [round (A / 12)]
    where annualPrice is [round A], and [A] is [m + 0.25 f], [m + f + s] and
    [1.15 (m + f + s + l)] for the three tiers. *)
Theorem monthlyPrice_of_unrounded_annual (w : World) (property : Property)
    (m f s l : number) :
  component_costs w property m f s l ->
  exists t1 t2 t3,
    calculateAllTiers w property = Ok [t1; t2; t3]
    /\ Forall2 (fun t A => annualPrice t = Math_round A
                           /\ monthlyPrice t = Math_round (A / 12))
         [t1; t2; t3]
         [m + f * 0.25; m + f + s; (m + f + s + l) * 1.15].
Proof.
  intros H. do 3 eexists. split; [apply calculateAllTiers_ok; exact H|].
  repeat constructor.
Qed.

Lemma monthlyPrice_of_unrounded_annual_witness :
  exists t1 t2 t3,
    calculateAllTiers seed_world scenario_property = Ok [t1; t2; t3]
    /\ Forall2 (fun t A => annualPrice t = Math_round A
                           /\ monthlyPrice t = Math_round (A / 12))
         [t1; t2; t3]
         [1771.88 + 157.5 * 0.25; 1771.88 + 157.5 + 853.13;
          (1771.88 + 157.5 + 853.13 + 590.63) * 1.15].
Proof.
  apply (monthlyPrice_of_unrounded_annual seed_world scenario_property
           1771.88 157.5 853.13 590.63).
  eexists. split; [reflexivity|].
  repeat split; vm_compute; reflexivity.
Defined.

(** C7 as stated fails: for the scenario property with a 5000 sq ft lawn
    and the seed catalog, the grass_roots tier costs 906 a year and 75 a
    month, while [round (906 / 12)] is 76. *)
Lemma monthlyPrice_not_from_annualPrice :
  exists t1 t2 t3,
    calculateAllTiers seed_world (with_lawn scenario_property 5000)
    = Ok [t1; t2; t3]
    /\ tier t1 = grass_roots
    /\ annualPrice t1 = 906
    /\ monthlyPrice t1 = 75
    /\ Math_round (annualPrice t1 / 12) = 76.
Proof.
  do 3 eexists. split; [vm_compute; reflexivity|].
  repeat split; vm_compute; reflexivity.
Qed.

(** ** Labor hours *)

(** C8, as the code has it.  Whenever the base hours [lawnSqft / ratio] are
    a non-zero number, the estimate is [(lawnSqft / ratio) * (score / 3)]
    rounded up to the next half hour, [ceil (2 h) / 2]. *)
Theorem estimateLaborHours_formula (serviceType : ServiceType)
    (lawnSqft complexityScore : number) :
  truthy (lawnSqft / sqftPerHour serviceType) = true ->
  estimateLaborHours serviceType lawnSqft complexityScore
  = Math_ceil ((lawnSqft / sqftPerHour serviceType) * (complexityScore / 3) * 2) / 2.
Proof.
  intros H. unfold estimateLaborHours.
  replace (baseHours lawnSqft serviceType) with (lawnSqft / sqftPerHour serviceType)
    by (destruct serviceType; reflexivity).
  cbn [or_else]. rewrite H. reflexivity.
Qed.

Lemma estimateLaborHours_formula_witness :
  estimateLaborHours mowing 10000 4
  = Math_ceil ((10000 / sqftPerHour mowing) * (4 / 3) * 2) / 2.
Proof.
  apply (estimateLaborHours_formula mowing 10000 4). vm_compute; reflexivity.
Defined.

(** C8 as stated fails at a lawn of zero square feet: the formula gives 0
    hours, the code 2. *)
Lemma estimateLaborHours_zero_lawn :
  estimateLaborHours mowing 0 3 = 2
  /\ Math_ceil ((0 / sqftPerHour mowing) * (3 / 3) * 2) / 2 = 0.
Proof.
  split; vm_compute; reflexivity.
Qed.

(** ** Upsells *)

Lemma upsell_card_present (rows : list RateCardRow) (code : string) :
  has_active code rows ->
  exists rc, Map_get code (upsellMapOf (filter row_active rows)) = Some rc.
Proof.
  intros [r [Hin [Hc Ha]]].
  apply Map_get_is_Some with (v := r).
  unfold upsellMapOf. apply in_map_iff. exists r. split.
  - now rewrite Hc.
  - apply filter_In. auto.
Qed.

Lemma Map_get_without_code (rows : list RateCardRow) (code k : string) :
  Map_get k (upsellMapOf (filter row_active (without_code code rows)))
  = if String.eqb k code then None
    else Map_get k (upsellMapOf (filter row_active rows)).
Proof.
  induction rows as [|r rows IH]; simpl.
  - now destruct (String.eqb k code).
  - destruct (String.eqb_spec k code) as [Hk|Hk];
      destruct (String.eqb_spec (service_code r) code) as [Hr|Hr]; simpl.
    + exact IH.
    + destruct (row_active r); simpl; [|exact IH]. rewrite IH.
      destruct (String.eqb_spec k (service_code r)); congruence.
    + rewrite IH. destruct (row_active r); simpl; trivial.
      destruct (String.eqb_spec k (service_code r)); [congruence|].
      now destruct (Map_get k (upsellMapOf (filter row_active rows))).
    + destruct (row_active r); simpl; [|exact IH]. now rewrite IH.
Qed.

Section UpsellFacts.

Variable property : Property.
Variable tier : TierType.

(** Every rule appends at most one upsell to the list it is given. *)
Ltac rule_cases :=
  repeat match goal with
         | |- context [match ?x with _ => _ end] => destruct x eqn:?
         end.

Lemma rule_bush_trimming_keeps m ups u :
  In u ups -> In u (rule_bush_trimming property m ups).
Proof.
  intros H. unfold rule_bush_trimming, push. rule_cases; trivial.
  apply in_or_app; now left.
Qed.

Lemma rule_mulch_install_keeps m ups u :
  In u ups -> In u (rule_mulch_install property m ups).
Proof.
  intros H. unfold rule_mulch_install, push. rule_cases; trivial.
  apply in_or_app; now left.
Qed.

Lemma rule_bed_maintenance_keeps m ups u :
  In u ups -> In u (rule_bed_maintenance property tier m ups).
Proof.
  intros H. unfold rule_bed_maintenance, push. rule_cases; trivial.
  all: apply in_or_app; now left.
Qed.

Lemma rule_leaf_cleanup_upgrade_keeps m ups u :
  In u ups -> In u (rule_leaf_cleanup_upgrade property tier m ups).
Proof.
  intros H. unfold rule_leaf_cleanup_upgrade, push. rule_cases; trivial.
  all: apply in_or_app; now left.
Qed.

Lemma rule_seasonal_package_keeps m ups u :
  In u ups -> In u (rule_seasonal_package property tier m ups).
Proof.
  intros H. unfold rule_seasonal_package, push. rule_cases; trivial.
  all: apply in_or_app; now left.
Qed.

Lemma rule_lights_keeps m ups u :
  In u ups -> In u (rule_lights property tier m ups).
Proof.
  intros H. unfold rule_lights, push. rule_cases; trivial.
  all: apply in_or_app; now left.
Qed.

End UpsellFacts.

Lemma in_push_new (ups : list Upsell) (u : Upsell) : In u (push ups u).
Proof. unfold push. apply in_or_app. right. now left. Qed.

Lemma in_push_old (ups : list Upsell) (u v : Upsell) :
  In u ups -> In u (push ups v).
Proof. intros H. unfold push. apply in_or_app. now left. Qed.

(** C9.  A property with 600 sq ft of overgrown beds and 8 bushes, quoted
    for the premier tier from a catalog with active EDGING, BUSH_TRIMMING,
    MULCH_INSTALL and BED_MAINTENANCE rows, gets all four upsells, each of
    them recommended. *)
Theorem upsell_trigger_scenario (w : World) (property : Property)
    (serviceType : ServiceType) (rows : list RateCardRow) :
  rate_cards w = Some rows ->
  Forall (fun code => has_active code rows) scenario_upsell_codes ->
  bedSqft property = Some 600 ->
  bedCondition property = Some BedCondition.overgrown ->
  bushCount property = Some 8 ->
  exists upsells,
    generateUpsells w property serviceType premier = Ok upsells
    /\ Forall (recommends upsells) scenario_upsell_codes.
Proof.
  intros Hrows Hall Hbed Hcond Hbush.
  unfold scenario_upsell_codes in *.
  repeat match goal with
         | H : Forall _ (_ :: _) |- _ =>
             let H1 := fresh "Hc" in
             apply Forall_cons_iff in H; destruct H as [H1 H];
             apply upsell_card_present in H1; destruct H1 as [? H1]
         end.
  unfold generateUpsells, select_active_rate_cards. rewrite Hrows.
  cbn [option_map]. fold (upsellMapOf (filter row_active rows)).
  set (M := upsellMapOf (filter row_active rows)) in *.
  eexists. split; [reflexivity|].
  assert (Hgood : bedCondition_is property BedCondition.good = false)
    by (unfold bedCondition_is; now rewrite Hcond).
  assert (Hover : bedCondition_is property BedCondition.overgrown = true)
    by (unfold bedCondition_is; now rewrite Hcond).
  assert (E1 : exists u, rule_edging property M [] = push [] u
                         /\ u_serviceCode u = "EDGING" /\ recommended u = true).
  { unfold rule_edging. rewrite Hbed, Hgood, Hc. cbn [present num negb].
    replace (truthy 600 && (0 <? 600) && true) with true by (vm_compute; reflexivity).
    eexists. split; [reflexivity|]. split; reflexivity. }
  destruct E1 as [u1 [-> [C1 R1]]].
  set (ups1 := push [] u1).
  assert (E2 : exists u, rule_bush_trimming property M ups1 = push ups1 u
                         /\ u_serviceCode u = "BUSH_TRIMMING" /\ recommended u = true).
  { unfold rule_bush_trimming. rewrite Hbush, Hover, Hc0. cbn [present num].
    replace (truthy 8 && (5 <? 8)) with true by (vm_compute; reflexivity).
    eexists. split; [reflexivity|]. split; reflexivity. }
  destruct E2 as [u2 [-> [C2 R2]]].
  set (ups2 := push ups1 u2).
  assert (E3 : exists u, rule_mulch_install property M ups2 = push ups2 u
                         /\ u_serviceCode u = "MULCH_INSTALL" /\ recommended u = true).
  { unfold rule_mulch_install. rewrite Hbed, Hgood, Hover, Hc1. cbn [present num negb].
    replace (truthy 600 && (200 <? 600) && true) with true by (vm_compute; reflexivity).
    eexists. split; [reflexivity|]. split; reflexivity. }
  destruct E3 as [u3 [-> [C3 R3]]].
  set (ups3 := push ups2 u3).
  assert (E4 : exists u, rule_bed_maintenance property premier M ups3 = push ups3 u
                         /\ u_serviceCode u = "BED_MAINTENANCE" /\ recommended u = true).
  { unfold rule_bed_maintenance. rewrite Hbed, Hc2. cbn [present num].
    replace (truthy 600) with true by (vm_compute; reflexivity).
    eexists. split; [reflexivity|]. split; [reflexivity|].
    cbn [recommended]. vm_compute; reflexivity. }
  destruct E4 as [u4 [-> [C4 R4]]].
  set (ups4 := push ups3 u4).
  assert (Hkeep : forall u, In u ups4 ->
    In u (rule_lights property premier M
            (rule_seasonal_package property premier M
               (rule_leaf_cleanup_upgrade property premier M ups4)))).
  { intros u Hu. now apply rule_lights_keeps, rule_seasonal_package_keeps,
      rule_leaf_cleanup_upgrade_keeps. }
  repeat constructor.
  - exists u1. repeat split; trivial. apply Hkeep.
    subst ups4 ups3 ups2 ups1. auto using in_push_new, in_push_old.
  - exists u2. repeat split; trivial. apply Hkeep.
    subst ups4 ups3 ups2. auto using in_push_new, in_push_old.
  - exists u3. repeat split; trivial. apply Hkeep.
    subst ups4 ups3. auto using in_push_new, in_push_old.
  - exists u4. repeat split; trivial. apply Hkeep.
    subst ups4. auto using in_push_new, in_push_old.
Qed.

Lemma upsell_trigger_scenario_witness :
  exists upsells,
    generateUpsells seed_world scenario_property mowing premier = Ok upsells
    /\ Forall (recommends upsells) scenario_upsell_codes.
Proof.
  apply (upsell_trigger_scenario seed_world scenario_property mowing seed_rate_cards);
    try reflexivity.
  repeat constructor; apply has_activeb_spec; vm_compute; reflexivity.
Defined.

Lemma not_priced_from_push (code : string) (ups : list Upsell) (u : Upsell) :
  not_priced_from code (push ups u)
  = if String.eqb (priced_from u) code then not_priced_from code ups
    else push (not_priced_from code ups) u.
Proof.
  unfold not_priced_from, push. rewrite filter_app. simpl.
  destruct (String.eqb (priced_from u) code); simpl; trivial.
  apply app_nil_r.
Qed.

Section WithoutCode.

Variable property : Property.
Variable tier : TierType.
Variable rows : list RateCardRow.
Variable code : string.

Let M := upsellMapOf (filter row_active rows).
Let M' := upsellMapOf (filter row_active (without_code code rows)).

(** A rule run on the smaller catalog, on a list without the upsells of
    [code], gives what the rule gives on the whole catalog, less the upsells
    of [code]. *)
Ltac rule_without :=
  intros; subst M M'; cbv beta delta [rule_edging rule_bush_trimming
    rule_mulch_install rule_bed_maintenance rule_leaf_cleanup_upgrade
    rule_seasonal_package rule_lights];
  rewrite Map_get_without_code;
  repeat match goal with
         | |- context [if ?c then _ else _] =>
             lazymatch c with
             | String.eqb _ code => fail
             | _ => destruct c
             end
         | |- context [match tier with _ => _ end] => destruct tier
         | |- context [match treeCoverage property with _ => _ end] =>
             destruct (treeCoverage property) as [[]|]
         | |- context [match Map_get ?k ?m with _ => _ end] =>
             destruct (Map_get k m)
         end;
  rewrite ?not_priced_from_push; unfold priced_from; cbn [u_serviceCode];
  repeat match goal with
         | |- context [String.eqb ?a "LEAF_CLEANUP_UPGRADE"] =>
             let b := eval vm_compute in (String.eqb a "LEAF_CLEANUP_UPGRADE") in
             change (String.eqb a "LEAF_CLEANUP_UPGRADE") with b; cbv iota
         end;
  repeat match goal with
         | |- context [String.eqb ?k code] => destruct (String.eqb k code)
         end;
  reflexivity.

Lemma rule_edging_without ups :
  rule_edging property M' (not_priced_from code ups)
  = not_priced_from code (rule_edging property M ups).
Proof. rule_without. Qed.

Lemma rule_bush_trimming_without ups :
  rule_bush_trimming property M' (not_priced_from code ups)
  = not_priced_from code (rule_bush_trimming property M ups).
Proof. rule_without. Qed.

Lemma rule_mulch_install_without ups :
  rule_mulch_install property M' (not_priced_from code ups)
  = not_priced_from code (rule_mulch_install property M ups).
Proof. rule_without. Qed.

Lemma rule_bed_maintenance_without ups :
  rule_bed_maintenance property tier M' (not_priced_from code ups)
  = not_priced_from code (rule_bed_maintenance property tier M ups).
Proof. rule_without. Qed.

Lemma rule_leaf_cleanup_upgrade_without ups :
  rule_leaf_cleanup_upgrade property tier M' (not_priced_from code ups)
  = not_priced_from code (rule_leaf_cleanup_upgrade property tier M ups).
Proof. rule_without. Qed.

Lemma rule_seasonal_package_without ups :
  rule_seasonal_package property tier M' (not_priced_from code ups)
  = not_priced_from code (rule_seasonal_package property tier M ups).
Proof. rule_without. Qed.

Lemma rule_lights_without ups :
  rule_lights property tier M' (not_priced_from code ups)
  = not_priced_from code (rule_lights property tier M ups).
Proof. rule_without. Qed.

End WithoutCode.

(** C10.  Without a catalog [generateUpsells] returns the empty list, and
    with a catalog it always returns a list; taking the rows of any one code
    out of the catalog removes from that list exactly the upsells priced
    from that code: the other rules contribute what they contributed
    before, in the same order. *)
Theorem generateUpsells_missing_cards (w : World) (property : Property)
    (serviceType : ServiceType) (tier : TierType) (rows : list RateCardRow)
    (code : string) :
  rate_cards w = Some rows ->
  generateUpsells (with_rate_cards w None) property serviceType tier = Ok []
  /\ exists upsells,
       generateUpsells w property serviceType tier = Ok upsells
       /\ generateUpsells (with_rate_cards w (Some (without_code code rows)))
            property serviceType tier
          = Ok (not_priced_from code upsells).
Proof.
  intros Hrows. split; [reflexivity|].
  unfold generateUpsells, select_active_rate_cards. rewrite Hrows.
  cbn [with_rate_cards rate_cards option_map].
  eexists. split; [reflexivity|]. f_equal.
  fold (upsellMapOf (filter row_active rows)).
  fold (upsellMapOf (filter row_active (without_code code rows))).
  rewrite <- rule_lights_without, <- rule_seasonal_package_without,
    <- rule_leaf_cleanup_upgrade_without, <- rule_bed_maintenance_without,
    <- rule_mulch_install_without, <- rule_bush_trimming_without,
    <- rule_edging_without.
  reflexivity.
Qed.

Lemma generateUpsells_missing_cards_witness :
  generateUpsells (with_rate_cards seed_world None) scenario_property mowing premier
  = Ok []
  /\ exists upsells,
       generateUpsells seed_world scenario_property mowing premier = Ok upsells
       /\ generateUpsells
            (with_rate_cards seed_world (Some (without_code "EDGING" seed_rate_cards)))
            scenario_property mowing premier
          = Ok (not_priced_from "EDGING" upsells).
Proof.
  apply (generateUpsells_missing_cards seed_world scenario_property mowing premier
           seed_rate_cards "EDGING").
  reflexivity.
Defined.

(** ** The order of the tiers *)

Lemma ltb_infinity (v : number) :
  nn v -> (v <? infinity) = true -> (fval v < top)%Z.
Proof.
  unfold nn, fval. rewrite ltb_spec. intros Hn H.
  pose proof (Prim2SF_valid v) as V.
  change (Prim2SF infinity) with (S754_infinity false) in H.
  destruct (Prim2SF v) as [s|[]| |[] m e]; try discriminate Hn; try discriminate H.
  - apply top_pos.
  - now apply (val_finite_lt_top false).
Qed.

Lemma finite_nonneg_nn (v : number) :
  finite_nonneg v -> nn v /\ (fval v < top)%Z.
Proof.
  intros [H0 Hi]. apply nn_leb in H0. split; trivial. now apply ltb_infinity.
Qed.

Lemma val_finite_pos (m : positive) (e : Z) :
  valid_binary (S754_finite false m e) = true ->
  (0 < val (S754_finite false m e))%Z.
Proof.
  intros V. apply valid_finite in V. destruct V as [He _]. cbn [val].
  pose proof (pow2_pos (e + scale) ltac:(unfold scale; lia)). lia.
Qed.

Lemma ltb_0 (v : number) : (0 <? v) = true -> nn v /\ (0 < fval v)%Z.
Proof.
  unfold nn, fval. rewrite ltb_spec. intros H.
  pose proof (Prim2SF_valid v) as V.
  change (Prim2SF 0) with (S754_zero false) in H.
  destruct (Prim2SF v) as [s|[]| |[] m e]; try discriminate H.
  - split; [reflexivity|apply top_pos].
  - split; [reflexivity|now apply val_finite_pos].
Qed.

Lemma leb_1 (v : number) : (1 <=? v) = true -> nn v /\ (0 < fval v)%Z.
Proof.
  unfold nn, fval. rewrite leb_spec. intros H.
  pose proof (Prim2SF_valid v) as V.
  change (Prim2SF 1) with (S754_finite false 4503599627370496 (-52)) in H.
  destruct (Prim2SF v) as [s|[]| |[] m e]; try discriminate H.
  - split; [reflexivity|apply top_pos].
  - split; [reflexivity|now apply val_finite_pos].
Qed.

Lemma finite_positive_nn (v : number) :
  finite_positive v -> nn v /\ (0 < fval v < top)%Z.
Proof.
  intros [H0 Hi]. apply ltb_0 in H0. destruct H0 as [Hn H0].
  split; trivial. split; trivial. now apply ltb_infinity.
Qed.

Lemma const_facts :
  nn 1000 /\ (2 ^ (scale + 1) <= fval 1000 < top)%Z
  /\ nn 100 /\ (0 < fval 100 < top)%Z
  /\ nn 0.25 /\ (0 < fval 0.25 <= 2 ^ scale)%Z
  /\ nn 1.15 /\ (2 ^ scale <= fval 1.15 < top)%Z
  /\ nn 0 /\ fval 0 = 0%Z.
Proof.
  unfold nn.
  repeat match goal with
         | |- _ /\ _ => split
         | |- (_ <= _)%Z => apply Z.leb_le
         | |- (_ < _)%Z => apply Z.ltb_lt
         end; vm_compute; reflexivity.
Qed.

(** Rounding a non-negative cost to cents keeps it non-negative. *)
Lemma round_cents_nn (cost : number) :
  nn cost -> nn (Math_round (cost * 100) / 100).
Proof.
  intros H. destruct const_facts as [_ [_ [H100 [F100 _]]]].
  apply div_nn; trivial.
  apply Math_round_fval. now apply mul_nn.
Qed.

Lemma or_else_0 (x : option number) :
  measurement_ok x -> finite_nonneg (or_else x 0).
Proof.
  assert (H0 : finite_nonneg 0) by (split; reflexivity).
  destruct x as [v|]; cbn [measurement_ok or_else]; trivial.
  intros H. now destruct (truthy v).
Qed.

Section Costs.

Variables (lawn roofline mult : number) (rc : RateCard).
Hypothesis Hlawn : finite_nonneg lawn.
Hypothesis Hroof : finite_nonneg roofline.
Hypothesis Hmult : finite_positive mult.
Hypothesis Hbase : finite_nonneg (baseRate rc).
Hypothesis Hfac1 : (1 <=? factor rc) = true.
Hypothesis Hfac2 : (factor rc <? infinity) = true.

Lemma area_cost_nn :
  nn (Math_round ((lawn / 1000) * baseRate rc * factor rc * mult * 100) / 100).
Proof.
  destruct const_facts as [H1000 [F1000 _]].
  destruct (finite_nonneg_nn _ Hlawn) as [Nl Fl].
  destruct (finite_nonneg_nn _ Hbase) as [Nb Fb].
  destruct (finite_positive_nn _ Hmult) as [Nm Fm].
  destruct (leb_1 _ Hfac1) as [Nf Ff].
  pose proof (ltb_infinity _ Nf Hfac2) as Ff'.
  apply round_cents_nn.
  apply mul_nn; trivial.
  apply mul_nn; [|trivial|lia].
  apply mul_fval; trivial.
  - apply div_nn; trivial. pose proof (pow2_pos (scale + 1) ltac:(unfold scale; lia)). lia.
  - now apply div_finite.
Qed.

Lemma flat_cost_nn :
  nn (Math_round (baseRate rc * mult * 100) / 100).
Proof.
  destruct (finite_nonneg_nn _ Hbase) as [Nb Fb].
  destruct (finite_positive_nn _ Hmult) as [Nm Fm].
  apply round_cents_nn. now apply mul_nn.
Qed.

Lemma length_cost_nn :
  nn (Math_round (roofline * baseRate rc * mult * 100) / 100).
Proof.
  destruct (finite_nonneg_nn _ Hroof) as [Nr Fr].
  destruct (finite_nonneg_nn _ Hbase) as [Nb Fb].
  destruct (finite_positive_nn _ Hmult) as [Nm Fm].
  apply round_cents_nn. apply mul_nn; trivial.
  now apply mul_fval.
Qed.

End Costs.

(** The three annual totals of non-negative component costs are ordered. *)
Lemma tiers_ordered (m f s l : number) :
  nn m -> nn f -> nn s -> nn l ->
  (Math_round (m + f * 0.25) <=? Math_round (m + f + s)) = true
  /\ (Math_round (m + f + s) <=? Math_round ((m + f + s + l) * 1.15)) = true.
Proof.
  intros Nm Nf Ns Nl.
  destruct const_facts as [_ [_ [_ [_ [H25 [F25 [H115 [F115 _]]]]]]]].
  destruct (mul_le_self f 0.25 Nf H25 F25) as [Nb Hb].
  destruct (add_fval m (f * 0.25) Nm Nb) as [N1 _].
  destruct (add_fval m f Nm Nf) as [Nmf _].
  destruct (add_fval (m + f) s Nmf Ns) as [N2 _].
  destruct (add_fval (m + f + s) l N2 Nl) as [N3b _].
  destruct (mul_ge_self (m + f + s + l) 1.15 N3b H115 F115) as [N3 H3].
  pose proof (add_le_mono_r m (f * 0.25) f Nm Nb Nf Hb) as H12.
  pose proof (add_ge_l (m + f) s Nmf Ns) as H22.
  pose proof (add_ge_l (m + f + s) l N2 Nl) as H23.
  split.
  - apply leb_fval; try (apply Math_round_fval; trivial).
    apply Math_round_mono; trivial. lia.
  - apply leb_fval; try (apply Math_round_fval; trivial).
    apply Math_round_mono; trivial. lia.
Qed.

Lemma loaded_card_invariant (rows : list RateCardRow) (code : string) :
  Forall rate_invariant rows ->
  has_active code rows ->
  exists rc,
    Map_get code (rateCardMapOf (map card_of_row (filter row_active rows))) = Some rc
    /\ finite_nonneg (baseRate rc)
    /\ (1 <=? factor rc) = true /\ (factor rc <? infinity) = true.
Proof.
  intros Hinv Hact.
  destruct (loaded_card_present rows code Hact) as [rc Hrc].
  exists rc. split; trivial.
  destruct (loaded_card_row rows code rc Hrc) as [r [Hin [_ [_ ->]]]].
  rewrite Forall_forall in Hinv. exact (Hinv r Hin).
Qed.

(** C2, as the code has it.  For a snapshot whose lawn and roofline are
    absent or finite and non-negative, a catalog whose entries satisfy
    [baseRate >= 0] and [factor >= 1] and has the four required codes, and a
    combined multiplier that is positive and finite, the three annual prices
    are ordered. *)
Theorem tier_prices_ordered (w : World) (property : Property)
    (rows : list RateCardRow) :
  rate_cards w = Some rows ->
  Forall (fun code => has_active code rows) required_codes ->
  Forall rate_invariant rows ->
  measurement_ok (lawnSqft property) ->
  measurement_ok (rooflineFt property) ->
  finite_positive (totalMultiplierOf w property) ->
  exists t1 t2 t3,
    calculateAllTiers w property = Ok [t1; t2; t3]
    /\ tier t1 = grass_roots /\ tier t2 = premier /\ tier t3 = total_landscape
    /\ (annualPrice t1 <=? annualPrice t2) = true
    /\ (annualPrice t2 <=? annualPrice t3) = true.
Proof.
  intros Hrows Hall Hinv Hlawn Hroof Hmult.
  unfold required_codes in Hall.
  repeat match goal with
         | H : Forall _ (_ :: _) |- _ =>
             let H1 := fresh "Hc" in
             apply Forall_cons_iff in H; destruct H as [H1 H];
             apply (loaded_card_invariant rows _ Hinv) in H1;
             destruct H1 as [? [H1 [? [? ?]]]]
         end.
  apply or_else_0 in Hlawn, Hroof.
  do 3 eexists. split.
  - apply calculateAllTiers_ok. unfold component_costs.
    rewrite (loadRateCards_Some _ _ Hrows). eexists. split; [reflexivity|].
    rewrite Hc, Hc0, Hc1, Hc2.
    unfold calculateMowingCost, calculateLeafCleanupCost,
      calculateSeasonalPackageCost, calculateLightsCost. cbn [deref bind].
    repeat split; reflexivity.
  - cbn [tier annualPrice]. do 3 (split; [reflexivity|]).
    apply tiers_ordered.
    + now apply area_cost_nn.
    + now apply area_cost_nn.
    + now apply flat_cost_nn.
    + now apply length_cost_nn.
Qed.

Lemma seed_rate_invariant : Forall rate_invariant seed_rate_cards.
Proof. repeat constructor. Qed.

Lemma tier_prices_ordered_witness :
  exists t1 t2 t3,
    calculateAllTiers seed_world scenario_property = Ok [t1; t2; t3]
    /\ tier t1 = grass_roots /\ tier t2 = premier /\ tier t3 = total_landscape
    /\ (annualPrice t1 <=? annualPrice t2) = true
    /\ (annualPrice t2 <=? annualPrice t3) = true.
Proof.
  apply (tier_prices_ordered seed_world scenario_property seed_rate_cards).
  - reflexivity.
  - repeat constructor; apply has_activeb_spec; vm_compute; reflexivity.
  - exact seed_rate_invariant.
  - split; reflexivity.
  - split; reflexivity.
  - split; vm_compute; reflexivity.
Defined.

(** C2 as stated fails: nothing keeps the regional multiplier positive, and
    with [-1.00] the premier price is below the grass_roots price. *)
Lemma tier_prices_unordered :
  exists t1 t2 t3,
    calculateAllTiers negative_adjustment_world scenario_property = Ok [t1; t2; t3]
    /\ Forall rate_invariant seed_rate_cards
    /\ annualPrice t1 = -1725
    /\ annualPrice t2 = -2650
    /\ (annualPrice t1 <=? annualPrice t2) = false.
Proof.
  do 3 eexists. split; [vm_compute; reflexivity|].
  split; [exact seed_rate_invariant|].
  repeat split; vm_compute; reflexivity.
Qed.

(** ** Breakdowns *)

Lemma whole_round (x : number) : nn x -> whole (Math_round x) (half_up (fval x)).
Proof.
  intros H. destruct (Math_round_fval x H) as [Hn Hv].
  split; trivial. split; [now rewrite Hv, rh_half_up|].
  apply half_up_nonneg, fval_nonneg.
Qed.

Lemma whole_add (x y : number) (k j : Z) :
  whole x k -> whole y j -> (k + j < 2 ^ 53)%Z -> whole (x + y) (k + j).
Proof.
  intros [Nx [Vx Kx]] [Ny [Vy Ky]] Hlt.
  destruct (add_fval x y Nx Ny) as [N V]. split; trivial. split; [|lia].
  rewrite V, Vx, Vy, <- Z.mul_add_distr_r. apply rnd_integer. lia.
Qed.

Lemma whole_leb (x y : number) (k j : Z) :
  whole x k -> whole y j -> (k <= j)%Z -> (x <=? y) = true.
Proof.
  intros [Nx [Vx Kx]] [Ny [Vy Ky]] H. apply leb_fval; trivial.
  rewrite Vx, Vy. pose proof (pow2_pos scale ltac:(unfold scale; lia)). nia.
Qed.

Lemma whole_consts : whole 0 0 /\ whole 1 1 /\ whole 2 2 /\ whole 3 3.
Proof.
  unfold whole, nn.
  repeat match goal with
         | |- _ /\ _ => split
         | |- (_ <= _)%Z => lia
         end; vm_compute; reflexivity.
Qed.

Lemma moderate_fval (c : number) :
  moderate c -> nn c /\ (0 <= fval c <= 2 ^ 40 * 2 ^ scale)%Z.
Proof.
  intros [H0 H1]. apply nn_leb in H0. split; trivial.
  split; [apply fval_nonneg|].
  assert (N : nn 1099511627776) by (vm_compute; reflexivity).
  apply (leb_fval c _ H0 N) in H1.
  replace (2 ^ 40 * 2 ^ scale)%Z with (fval 1099511627776)
    by (vm_compute; reflexivity).
  exact H1.
Qed.

Lemma within_whole (a b : number) (i j : Z) (k : number) (n : Z) :
  whole a i -> whole b j -> whole k n ->
  (i < 2 ^ 52)%Z -> (j < 2 ^ 52)%Z -> (n < 2 ^ 52)%Z ->
  (i <= j + n)%Z -> (j <= i + n)%Z ->
  within a b k.
Proof.
  intros Ha Hb Hk Hi Hj Hn H1 H2.
  assert (P : (2 ^ 53 = 2 * 2 ^ 52)%Z) by reflexivity.
  split.
  - apply (whole_leb a (b + k) i (j + n)); trivial. apply whole_add; trivial. lia.
  - apply (whole_leb b (a + k) j (i + n)); trivial. apply whole_add; trivial. lia.
Qed.

Lemma eps_unit : (512 * eps = 2 ^ scale)%Z.
Proof. reflexivity. Qed.

Lemma pow_44 : (2 ^ (44 + scale) = 17592186044416 * 2 ^ scale)%Z.
Proof. reflexivity. Qed.

(** A sum below [2^44] is off by at most [2^-10]. *)
Lemma add_err (a b : number) :
  nn a -> nn b -> (fval a + fval b < 17592186044416 * 2 ^ scale)%Z ->
  nn (a + b)
  /\ (Z.abs (2 * fval (a + b) - 2 * (fval a + fval b)) <= eps)%Z.
Proof.
  intros Na Nb H. destruct (add_fval a b Na Nb) as [N V]. split; trivial.
  rewrite V. pose proof (fval_nonneg a). pose proof (fval_nonneg b).
  unfold eps. replace (scale - 9)%Z with (44 + scale - 53)%Z by lia.
  apply rnd_error; [rewrite pow_44; lia|unfold scale; lia].
Qed.

Lemma top_big : (17592186044416 * 2 ^ scale < top)%Z.
Proof. apply Z.ltb_lt. vm_compute. reflexivity. Qed.

Lemma mul_err (x c : number) :
  nn x -> nn c -> (fval x < top)%Z -> (fval c < top)%Z ->
  (fval x * fval c / 2 ^ scale < 17592186044416 * 2 ^ scale)%Z ->
  nn (x * c)
  /\ (Z.abs (2 * fval (x * c) - 2 * (fval x * fval c / 2 ^ scale)) <= eps)%Z.
Proof.
  intros Nx Nc Fx Fc H. destruct (mul_fval x c Nx Nc Fx Fc) as [N V]. split; trivial.
  rewrite V. pose proof (fval_nonneg x). pose proof (fval_nonneg c).
  unfold eps. replace (scale - 9)%Z with (44 + scale - 53)%Z by lia.
  apply rnd_error; [rewrite pow_44; split; trivial|unfold scale; lia].
  apply Z.div_pos; [nia|]. apply pow2_pos. unfold scale. lia.
Qed.

(** From a bound in units to a bound on the whole number. *)
Lemma units_lt (a b : Z) :
  (2 * (2 ^ scale * a) < 2 * (2 ^ scale * b))%Z -> (a < b)%Z.
Proof.
  intros H. pose proof (pow2_pos scale ltac:(unfold scale; lia)).
  apply (Z.mul_lt_mono_pos_l (2 * 2 ^ scale)); lia.
Qed.

(** What is known of a rounded non-negative number. *)
Lemma round_facts (x : number) (k : Z) :
  nn x -> (fval x <= k * 2 ^ scale)%Z ->
  whole (Math_round x) (half_up (fval x))
  /\ (0 <= half_up (fval x) <= k)%Z
  /\ (2 * (2 ^ scale * half_up (fval x)) <= 2 * fval x + 2 ^ scale)%Z
  /\ (2 * fval x + 2 ^ scale
      < 2 * (2 ^ scale * half_up (fval x)) + 2 * 2 ^ scale)%Z.
Proof.
  intros N B. pose proof (fval_nonneg x).
  split; [now apply whole_round|].
  split; [split; [now apply half_up_nonneg|apply half_up_le; lia]|].
  apply half_up_spec.
Qed.

Ltac whole_sum :=
  repeat first
    [ assumption
    | match goal with
      | |- whole (0 + ?x) ?k =>
          replace k with (0 + k)%Z by lia;
          apply whole_add; [exact (proj1 whole_consts)| |lia]
      | |- whole (_ + _) (_ + _) => apply whole_add; [| |lia]
      end ].

(** Grass Roots: two lines. *)
Lemma grass_roots_within (m b : number) :
  moderate m -> moderate b ->
  within (0 + Math_round m + Math_round b) (Math_round (m + b)) 1.
Proof.
  intros Hm Hb.
  destruct (moderate_fval m Hm) as [Nm Bm].
  destruct (moderate_fval b Hb) as [Nb Bb].
  destruct whole_consts as [W0 [W1 _]].
  pose proof (pow2_pos scale ltac:(unfold scale; lia)) as HU.
  pose proof eps_unit as He.
  change (2 ^ 40)%Z with 1099511627776%Z in *.
  destruct (add_err m b Nm Nb) as [NT ET]; [lia|].
  destruct (round_facts m _ Nm (proj2 Bm)) as [Wm [Lm [Sm1 Sm2]]].
  destruct (round_facts b _ Nb (proj2 Bb)) as [Wb [Lb [Sb1 Sb2]]].
  destruct (round_facts (m + b) 2199023255553 NT ltac:(lia)) as [WT [LT [ST1 ST2]]].
  set (hm := half_up (fval m)) in *. set (hb := half_up (fval b)) in *.
  set (hT := half_up (fval (m + b))) in *.
  change (2 ^ 53)%Z with 9007199254740992%Z in *.
  apply (within_whole _ _ (hm + hb) hT 1 1); trivial;
    try (change (2 ^ 52)%Z with 4503599627370496%Z; lia).
  - whole_sum.
  - apply Z.lt_succ_r. apply units_lt. lia.
  - apply Z.lt_succ_r. apply units_lt. lia.
Qed.

(** What is known of a sum of two non-negative numbers, in half units. *)
Lemma add_facts (a b : number) :
  nn a -> nn b -> (fval a + fval b < 17592186044416 * 2 ^ scale)%Z ->
  nn (a + b)
  /\ (Z.abs (2 * fval (a + b) - 2 * (fval a + fval b)) <= eps)%Z
  /\ (forall qa qb : Z, 0 < qa < 2 ^ 53 -> 0 < qb < 2 ^ 53 ->
        2 * fval a < qa * 2 ^ scale -> 2 * fval b < qb * 2 ^ scale ->
        2 * fval (a + b) < (qa + qb) * 2 ^ scale)%Z
  /\ (forall q : Z, q < 2 ^ 53 -> q * 2 ^ scale <= 2 * (fval a + fval b) ->
        q * 2 ^ scale <= 2 * fval (a + b))%Z.
Proof.
  intros Na Nb H. destruct (add_err a b Na Nb H) as [N E].
  repeat split; trivial.
  - intros qa qb. now apply add_below.
  - intros q. now apply add_above.
Qed.

(** Premier: three lines. *)
Lemma premier_within (m f s : number) :
  moderate m -> moderate f -> moderate s ->
  within (0 + Math_round m + Math_round f + Math_round s)
         (Math_round (m + f + s)) 1.
Proof.
  intros Hm Hf Hs.
  destruct (moderate_fval m Hm) as [Nm Bm].
  destruct (moderate_fval f Hf) as [Nf Bf].
  destruct (moderate_fval s Hs) as [Ns Bs].
  destruct whole_consts as [W0 [W1 _]].
  pose proof (pow2_pos scale ltac:(unfold scale; lia)) as HU.
  pose proof eps_unit as He.
  change (2 ^ 40)%Z with 1099511627776%Z in *.
  destruct (add_facts m f Nm Nf) as [N1 [E1 [B1 A1]]]; [lia|].
  destruct (add_facts (m + f) s N1 Ns) as [NT [ET [B2 A2]]]; [lia|].
  destruct (round_facts m _ Nm (proj2 Bm)) as [Wm [Lm [Sm1 Sm2]]].
  destruct (round_facts f _ Nf (proj2 Bf)) as [Wf [Lf [Sf1 Sf2]]].
  destruct (round_facts s _ Ns (proj2 Bs)) as [Ws [Ls [Ss1 Ss2]]].
  destruct (round_facts (m + f + s) 3298534883330 NT ltac:(lia)) as [WT [LT [ST1 ST2]]].
  set (hm := half_up (fval m)) in *. set (hf := half_up (fval f)) in *.
  set (hs := half_up (fval s)) in *.
  set (hT := half_up (fval (m + f + s))) in *.
  change (2 ^ 53)%Z with 9007199254740992%Z in *.
  apply (within_whole _ _ (hm + hf + hs) hT 1 1); trivial;
    try (change (2 ^ 52)%Z with 4503599627370496%Z; lia).
  - whole_sum.
  - apply Z.lt_succ_r. apply units_lt.
    pose proof (A1 (2 * hm - 1 + (2 * hf - 1))%Z ltac:(lia) ltac:(lia)) as L1.
    pose proof (A2 (2 * hm - 1 + (2 * hf - 1) + (2 * hs - 1))%Z ltac:(lia) ltac:(lia)) as L2.
    lia.
  - apply Z.lt_succ_r. apply units_lt.
    pose proof (B1 (2 * hm + 1)%Z (2 * hf + 1)%Z ltac:(lia) ltac:(lia)
                  ltac:(lia) ltac:(lia)) as L1.
    pose proof (B2 (2 * hm + 1 + (2 * hf + 1))%Z (2 * hs + 1)%Z ltac:(lia) ltac:(lia)
                  L1 ltac:(lia)) as L2.
    lia.
Qed.

(** The binary64 numbers nearest to 0.15 and 1.15: [1 + 0.15] is above
    [1.15] by less than [2^-53]. *)
Lemma markup_consts :
  nn 0.15 /\ nn 1.15
  /\ (0 < fval 0.15 <= 2 ^ scale)%Z
  /\ (fval 1.15 <= 2 ^ scale + fval 0.15)%Z
  /\ ((2 ^ scale + fval 0.15 - fval 1.15) * 2 ^ 53 <= 2 ^ scale)%Z.
Proof.
  unfold nn.
  repeat match goal with
         | |- _ /\ _ => split
         | |- (_ < _)%Z => apply Z.ltb_lt
         | |- (_ <= _)%Z => apply Z.leb_le
         end; vm_compute; reflexivity.
Qed.

Local Open Scope Z_scope.

(** The markup line and the marked-up total of a subtotal [B], before
    they are rounded. *)
Lemma markup_split (B : Z) :
  0 <= B <= 8796093022208 * 2 ^ scale ->
  0 <= B * fval 0.15 / 2 ^ scale <= B
  /\ 2 * B + 2 * (B * fval 0.15 / 2 ^ scale) - eps - 2
     < 2 * (B * fval 1.15 / 2 ^ scale)
  /\ B * fval 1.15 / 2 ^ scale <= B + B * fval 0.15 / 2 ^ scale.
Proof.
  intros [B0 BU].
  destruct markup_consts as [_ [_ [[C0 C1] [C2 C3]]]].
  pose proof (pow2_pos scale ltac:(unfold scale; lia)) as HU.
  pose proof eps_unit as He.
  set (U := 2 ^ scale) in *. set (c := fval 0.15) in *. set (c' := fval 1.15) in *.
  change (2 ^ 53) with 9007199254740992 in C3.
  pose proof (Z.div_mod (B * c) U ltac:(lia)) as D1.
  pose proof (Z.mod_pos_bound (B * c) U ltac:(lia)) as M1.
  pose proof (Z.div_mod (B * c') U ltac:(lia)) as D2.
  pose proof (Z.mod_pos_bound (B * c') U ltac:(lia)) as M2.
  set (P := B * c / U) in *. set (P' := B * c' / U) in *.
  set (r := (B * c) mod U) in *. set (r' := (B * c') mod U) in *.
  assert (G : 2 * (B * (U + c - c')) <= eps * U).
  { assert (G1 : B * ((U + c - c') * 9007199254740992) <= B * U)
      by (apply Z.mul_le_mono_nonneg_l; lia).
    assert (G2 : B * U <= 8796093022208 * U * U)
      by (apply Z.mul_le_mono_nonneg_r; lia).
    assert (G3 : U * U = 512 * (eps * U)) by (rewrite <- He; ring).
    lia. }
  assert (E : U * P' + r' = B * U + (U * P + r) - B * (U + c - c')) by lia.
  assert (Bc : B * c <= B * U) by (apply Z.mul_le_mono_nonneg_l; lia).
  assert (Bd : 0 <= B * (U + c - c')) by (apply Z.mul_nonneg_nonneg; lia).
  repeat split.
  - apply Z.div_pos; [apply Z.mul_nonneg_nonneg|]; lia.
  - assert (U * P < U * (B + 1)) by lia.
    assert (P < B + 1) by (apply (Z.mul_lt_mono_pos_l U); lia). lia.
  - assert (U * (2 * B + 2 * P - eps - 2) < U * (2 * P')) by lia.
    apply (Z.mul_lt_mono_pos_l U); lia.
  - assert (U * P' < U * (B + P + 1)) by lia.
    assert (P' < B + P + 1) by (apply (Z.mul_lt_mono_pos_l U); lia). lia.
Qed.

Local Open Scope float_scope.

(** Total Landscape: five lines. *)
Lemma total_landscape_within (m f s l : number) :
  moderate m -> moderate f -> moderate s -> moderate l ->
  within (0 + Math_round m + Math_round f + Math_round s + Math_round l
            + Math_round ((m + f + s + l) * 0.15))
         (Math_round ((m + f + s + l) * 1.15)) 3.
Proof.
  intros Hm Hf Hs Hl.
  destruct (moderate_fval m Hm) as [Nm Bm].
  destruct (moderate_fval f Hf) as [Nf Bf].
  destruct (moderate_fval s Hs) as [Ns Bs].
  destruct (moderate_fval l Hl) as [Nl Bl].
  destruct whole_consts as [W0 [_ [_ W3]]].
  destruct markup_consts as [N15 [N115 [[C0 C1] [C2 _]]]].
  pose proof (pow2_pos scale ltac:(unfold scale; lia)) as HU.
  pose proof eps_unit as He.
  pose proof top_big as Ht.
  change (2 ^ 40)%Z with 1099511627776%Z in *.
  destruct (add_err m f Nm Nf) as [N1 E1]; [lia|].
  destruct (add_err (m + f) s N1 Ns) as [N2 E2]; [lia|].
  destruct (add_err (m + f + s) l N2 Nl) as [NB EB]; [lia|].
  set (b := m + f + s + l) in *.
  pose proof (fval_nonneg b) as B0.
  destruct (markup_split (fval b)) as [[P0 P1] [P2 P3]]; [lia|].
  destruct (mul_err b 0.15 NB N15) as [NK EK]; [lia|lia|lia|].
  destruct (mul_err b 1.15 NB N115) as [NT ET]; [lia|lia|lia|].
  destruct (round_facts m _ Nm (proj2 Bm)) as [Wm [Lm [Sm1 Sm2]]].
  destruct (round_facts f _ Nf (proj2 Bf)) as [Wf [Lf [Sf1 Sf2]]].
  destruct (round_facts s _ Ns (proj2 Bs)) as [Ws [Ls [Ss1 Ss2]]].
  destruct (round_facts l _ Nl (proj2 Bl)) as [Wl [Ll [Sl1 Sl2]]].
  destruct (round_facts (b * 0.15) 17592186044416 NK ltac:(lia))
    as [WK [LK [SK1 SK2]]].
  destruct (round_facts (b * 1.15) 17592186044416 NT ltac:(lia))
    as [WT [LT [ST1 ST2]]].
  set (hm := half_up (fval m)) in *. set (hf := half_up (fval f)) in *.
  set (hs := half_up (fval s)) in *. set (hl := half_up (fval l)) in *.
  set (hK := half_up (fval (b * 0.15))) in *.
  set (hT := half_up (fval (b * 1.15))) in *.
  change (2 ^ 53)%Z with 9007199254740992%Z in *.
  apply (within_whole _ _ (hm + hf + hs + hl + hK) hT 3 3); trivial;
    try (change (2 ^ 52)%Z with 4503599627370496%Z; lia).
  - whole_sum.
  - apply Z.lt_succ_r. apply units_lt. lia.
  - apply Z.lt_succ_r. apply units_lt. lia.
Qed.

Lemma moderate_quarter (f : number) : moderate f -> moderate (f * 0.25).
Proof.
  intros Hf. destruct (moderate_fval f Hf) as [Nf Bf].
  destruct const_facts as [_ [_ [_ [_ [N25 [C25 _]]]]]].
  destruct (mul_le_self f 0.25 Nf N25 C25) as [N L].
  split; [now apply nn_leb|].
  assert (N40 : nn 1099511627776) by (vm_compute; reflexivity).
  apply (leb_fval _ _ N N40).
  replace (fval 1099511627776) with (2 ^ 40 * 2 ^ scale)%Z
    by (vm_compute; reflexivity).
  lia.
Qed.

(** C6, as the code has it.  When the four component costs are numbers
    between 0 and [2^40], the line items of the grass_roots breakdown and
    of the premier breakdown add up to the tier's annualPrice give or take
    1, and those of the total_landscape breakdown give or take 3. *)
Theorem breakdown_within_tolerance (w : World) (property : Property)
    (m f s l : number) :
  component_costs w property m f s l ->
  moderate m -> moderate f -> moderate s -> moderate l ->
  exists t1 t2 t3,
    calculateAllTiers w property = Ok [t1; t2; t3]
    /\ tier t1 = grass_roots /\ tier t2 = premier /\ tier t3 = total_landscape
    /\ within (breakdown_total t1) (annualPrice t1) 1
    /\ within (breakdown_total t2) (annualPrice t2) 1
    /\ within (breakdown_total t3) (annualPrice t3) 3.
Proof.
  intros H Hm Hf Hs Hl. do 3 eexists.
  split; [apply calculateAllTiers_ok; exact H|].
  unfold breakdown_total.
  cbn [tier annualPrice breakdown map snd fold_left].
  repeat split; trivial.
  - apply grass_roots_within; trivial. now apply moderate_quarter.
  - apply grass_roots_within; trivial. now apply moderate_quarter.
  - now apply premier_within.
  - now apply premier_within.
  - now apply total_landscape_within.
  - now apply total_landscape_within.
Qed.

Lemma breakdown_within_tolerance_witness :
  exists t1 t2 t3,
    calculateAllTiers seed_world scenario_property = Ok [t1; t2; t3]
    /\ tier t1 = grass_roots /\ tier t2 = premier /\ tier t3 = total_landscape
    /\ within (breakdown_total t1) (annualPrice t1) 1
    /\ within (breakdown_total t2) (annualPrice t2) 1
    /\ within (breakdown_total t3) (annualPrice t3) 3.
Proof.
  apply (breakdown_within_tolerance seed_world scenario_property
           1771.88 157.5 853.13 590.63).
  - eexists. split; [reflexivity|]. repeat split; vm_compute; reflexivity.
  - split; vm_compute; reflexivity.
  - split; vm_compute; reflexivity.
  - split; vm_compute; reflexivity.
  - split; vm_compute; reflexivity.
Defined.

(** C6 as stated fails, and the tolerance of 3 is reached: with rates of
    0.5 the four costs are 0.5, 0.5, 0.5 and 48.5; the lines are 1, 1, 1,
    49 and 8, which add up to 60, and the annualPrice is 57, the binary64
    product of 50 and 1.15 being 57.49999999999999. *)
Lemma total_landscape_breakdown_off_by_three :
  exists t1 t2 t3,
    calculateAllTiers half_rate_world half_rate_property = Ok [t1; t2; t3]
    /\ tier t3 = total_landscape
    /\ breakdown t3 = [ ("mowing", 1); ("leafCleanup", 1); ("seasonal", 1);
                        ("lights", 49); ("premiumMarkup", 8) ]
    /\ breakdown_total t3 = 60
    /\ annualPrice t3 = 57
    /\ (breakdown_total t3 <=? annualPrice t3 + 1) = false.
Proof.
  do 3 eexists. split; [vm_compute; reflexivity|].
  repeat split; vm_compute; reflexivity.
Qed.

(** With the seed catalog too: for [small_property] the total_landscape
    lines are 164, 15, 751, 430 and 204, which add up to 1564, and the
    annualPrice is 1562. *)
Lemma total_landscape_breakdown_off_by_two :
  exists t1 t2 t3,
    calculateAllTiers seed_world small_property = Ok [t1; t2; t3]
    /\ tier t3 = total_landscape
    /\ breakdown_total t3 = 1564
    /\ annualPrice t3 = 1562
    /\ (breakdown_total t3 <=? annualPrice t3 + 1) = false.
Proof.
  do 3 eexists. split; [vm_compute; reflexivity|].
  repeat split; vm_compute; reflexivity.
Qed.

(** * Further properties of the code *)

(** ** Comparisons *)

Module Binary64Order.

Local Open Scope Z_scope.

(** Strict comparison, on valid non-negative numbers. *)
Lemma SFltb_val (x y : spec_float) :
  valid_binary x = true -> valid_binary y = true ->
  nonnegSF x = true -> nonnegSF y = true ->
  SFltb x y = true <-> val x < val y.
Proof.
  intros Vx Vy Nx Ny.
  pose proof (SFleb_val y x Vy Vx Ny Nx) as H.
  assert (E : SFltb x y = negb (SFleb y x)).
  { destruct x as [sx|[]| |[] mx ex]; try discriminate Nx;
      destruct y as [sy|[]| |[] my ey]; try discriminate Ny;
      unfold SFltb, SFleb; cbn [SFcompare]; trivial.
    destruct (Z.compare_spec ex ey) as [E|L|G].
    - subst ey. rewrite Z.compare_refl.
      rewrite !Pos.compare_cont_spec. cbn [Pos.switch_Eq].
      rewrite (Pos.compare_antisym mx my).
      now destruct (Pos.compare mx my).
    - rewrite (proj2 (Z.compare_gt_iff ey ex)) by lia. reflexivity.
    - rewrite (proj2 (Z.compare_lt_iff ey ex)) by lia. reflexivity. }
  rewrite E, negb_true_iff.
  destruct (SFleb y x).
  - split; [discriminate|]. intros. assert (val y <= val x) by now apply H. lia.
  - split; [|reflexivity]. intros _.
    destruct (Z.lt_ge_cases (val x) (val y)); trivial.
    assert (false = true) by (apply H; lia). discriminate.
Qed.

Local Open Scope float_scope.

Lemma ltb_fval (x y : float) :
  nn x -> nn y -> (x <? y) = true <-> (fval x < fval y)%Z.
Proof.
  intros Hx Hy. rewrite ltb_spec.
  apply SFltb_val; trivial; apply Prim2SF_valid.
Qed.

(** What is above a non-negative number is not negative. *)
Lemma leb_nn (x y : float) : nn x -> (x <=? y) = true -> nn y.
Proof.
  unfold nn. rewrite leb_spec. unfold SFleb.
  destruct (Prim2SF x) as [sx|[]| |[] mx ex]; try discriminate;
    destruct (Prim2SF y) as [sy|[]| |[] my ey]; cbn; trivial; discriminate.
Qed.

Lemma ltb_nn (x y : float) : nn x -> (x <? y) = true -> nn y.
Proof.
  unfold nn. rewrite ltb_spec. unfold SFltb.
  destruct (Prim2SF x) as [sx|[]| |[] mx ex]; try discriminate;
    destruct (Prim2SF y) as [sy|[]| |[] my ey]; cbn; trivial; discriminate.
Qed.

(** A number that is below something and is not non-negative is negative:
    it is below every positive number and at most every non-negative one. *)
Lemma negative_leb (x y c : float) :
  (x <=? y) = true -> ~ nn x -> nn c -> (x <=? c) = true.
Proof.
  unfold nn. rewrite !leb_spec. unfold SFleb.
  destruct (Prim2SF x) as [sx|[]| |[] mx ex]; cbn; try congruence;
    destruct (Prim2SF y) as [sy|[]| |[] my ey]; cbn; try discriminate;
    destruct (Prim2SF c) as [sc|[]| |[] mc ec]; cbn; congruence.
Qed.

Lemma negative_ltb (x y c : float) :
  (x <=? y) = true -> ~ nn x -> nn c -> (0 < fval c)%Z -> (x <? c) = true.
Proof.
  unfold nn, fval. rewrite leb_spec, ltb_spec. unfold SFleb, SFltb.
  destruct (Prim2SF x) as [sx|[]| |[] mx ex]; cbn; try congruence;
    destruct (Prim2SF y) as [sy|[]| |[] my ey]; cbn; try discriminate;
    destruct (Prim2SF c) as [sc|[]| |[] mc ec]; cbn; intros; trivial;
    try congruence; try lia; exfalso; auto.
Qed.

(** A non-negative number of value zero equals zero. *)
Lemma eqb_zero (x : float) : nn x -> fval x = 0%Z -> (x =? 0) = true.
Proof.
  unfold nn, fval. rewrite eqb_spec. change (Prim2SF 0) with (S754_zero false).
  pose proof top_pos. pose proof (Prim2SF_valid x) as V.
  destruct (Prim2SF x) as [sx|[]| |[] mx ex];
    cbn [nonnegSF val SFeqb SFcompare]; try congruence; try lia.
  intros _ H0. apply valid_finite in V. destruct V as [He _].
  pose proof (pow2_pos (ex + scale) ltac:(unfold scale; lia)). nia.
Qed.

End Binary64Order.

Import Binary64Order.

(** ** Division

    The quotient of two numbers that are not negative is the quotient of
    their values, rounded to nearest-even. *)

Module Binary64Division.

Local Open Scope Z_scope.

Lemma rne_rne_div (X n : Z) : rne X n = rne_div X (2 ^ n).
Proof. reflexivity. Qed.

Lemma new_location_rec (D N : Z) :
  0 < D -> 0 <= N ->
  shr_record_of_loc (N / D) (new_location D (N mod D)) = rec_of N D.
Proof.
  intros HD HN. pose proof (Z.mod_pos_bound N D HD) as Hr.
  set (r := N mod D) in *. unfold rec_of. fold r.
  unfold new_location, new_location_even, new_location_odd.
  destruct (Z.even D) eqn:Ev.
  - destruct (Z.eqb_spec r 0) as [E0|N0].
    + cbn [shr_record_of_loc orb negb]. f_equal.
      symmetry. apply Z.leb_gt. lia.
    + destruct (Z.compare_spec (2 * r) D) as [E|L|G]; cbn [shr_record_of_loc].
      * f_equal; [symmetry; apply Z.leb_le; lia|].
        rewrite (proj2 (Z.eqb_eq (2 * r) D) E). reflexivity.
      * f_equal; [symmetry; apply Z.leb_gt; lia|].
        rewrite (proj2 (Z.eqb_neq (2 * r) D)) by lia. reflexivity.
      * f_equal; [symmetry; apply Z.leb_le; lia|].
        rewrite (proj2 (Z.eqb_neq (2 * r) D)) by lia. reflexivity.
  - assert (Hodd : 2 * r <> D).
    { intros E. rewrite <- E in Ev. rewrite Z.even_mul in Ev. discriminate. }
    destruct (Z.eqb_spec r 0) as [E0|N0].
    + cbn [shr_record_of_loc orb negb]. f_equal.
      symmetry. apply Z.leb_gt. lia.
    + rewrite (proj2 (Z.eqb_neq (2 * r) D)) by lia.
      destruct (Z.compare_spec (2 * r + 1) D) as [E|L|G]; cbn [shr_record_of_loc];
        f_equal; symmetry; first [apply Z.leb_gt; lia | apply Z.leb_le; lia].
Qed.

Lemma rec_of_shr_1 (N M : Z) :
  0 <= N -> 0 < M -> shr_1 (rec_of N M) = rec_of N (M * 2).
Proof.
  intros HN HM. unfold rec_of at 1.
  rewrite shr_1_spec by (apply Z.div_pos; lia).
  pose proof (Z.mod_pos_bound N M HM) as Hr.
  pose proof (Z.div_mod N M ltac:(lia)) as Hd.
  set (q := N / M) in *. set (r := N mod M) in *.
  assert (Hq : 0 <= q) by (subst q; apply Z.div_pos; lia).
  assert (Hq2 : N / (M * 2) = q / 2) by (rewrite <- Z.div_div by lia; reflexivity).
  assert (Hr2 : N mod (M * 2) = r + M * (q mod 2)).
  { rewrite Z.rem_mul_r by lia. reflexivity. }
  unfold rec_of. rewrite Hq2, Hr2. rewrite (Zmod_odd q).
  destruct (Z.odd q); f_equal.
  - symmetry. apply Z.leb_le. lia.
  - destruct (Z.leb_spec M (2 * r)); destruct (Z.eqb_spec r 0);
      destruct (Z.eqb_spec (2 * r) M); cbn [orb negb];
      destruct (Z.eqb_spec (r + M * 1) 0); destruct (Z.eqb_spec (2 * (r + M * 1)) (M * 2));
      cbn [orb negb]; trivial; lia.
  - symmetry. apply Z.leb_gt. lia.
  - destruct (Z.leb_spec M (2 * r)); destruct (Z.eqb_spec r 0);
      destruct (Z.eqb_spec (2 * r) M); cbn [orb negb];
      destruct (Z.eqb_spec (r + M * 0) 0); destruct (Z.eqb_spec (2 * (r + M * 0)) (M * 2));
      cbn [orb negb]; trivial; lia.
Qed.

Lemma rec_of_iter (N M : Z) (p : positive) :
  0 <= N -> 0 < M ->
  Pos.iter shr_1 (rec_of N M) p = rec_of N (M * 2 ^ Zpos p).
Proof.
  intros HN HM. induction p as [|p IH] using Pos.peano_ind.
  - change (Pos.iter shr_1 ?x 1) with (shr_1 x). now rewrite rec_of_shr_1.
  - rewrite Pos.iter_succ, IH.
    rewrite rec_of_shr_1 by (trivial; pose proof (pow2_pos (Zpos p)); nia).
    f_equal. rewrite Pos2Z.inj_succ, Z.pow_succ_r by lia. lia.
Qed.

Lemma rec_of_round (N M : Z) :
  0 < M ->
  round_nearest_even (shr_m (rec_of N M)) (loc_of_shr_record (rec_of N M))
  = rne_div N M.
Proof.
  intros HM. unfold rec_of, rne_div. cbn [shr_m loc_of_shr_record].
  pose proof (Z.mod_pos_bound N M HM) as Hr.
  set (q := N / M). set (r := N mod M) in *.
  destruct (Z.compare_spec (2 * r) M) as [E|L|G].
  - rewrite (proj2 (Z.leb_le M (2 * r))) by lia.
    rewrite (proj2 (Z.eqb_eq (2 * r) M) E), orb_true_r. reflexivity.
  - rewrite (proj2 (Z.leb_gt M (2 * r))) by lia.
    now destruct (negb _).
  - rewrite (proj2 (Z.leb_le M (2 * r))) by lia.
    rewrite (proj2 (Z.eqb_neq r 0)) by lia.
    rewrite (proj2 (Z.eqb_neq (2 * r) M)) by lia. reflexivity.
Qed.

Lemma rne_div_bounds (N M : Z) : N / M <= rne_div N M <= N / M + 1.
Proof.
  unfold rne_div.
  destruct (2 * (N mod M) ?= M); try destruct (Z.even _); lia.
Qed.

Lemma rne_div_scale (N M c : Z) :
  0 < M -> 0 < c -> rne_div (N * c) (M * c) = rne_div N M.
Proof.
  intros HM Hc. unfold rne_div.
  rewrite Z.div_mul_cancel_r by lia.
  rewrite Z.mul_mod_distr_r by lia.
  replace (2 * (N mod M * c) ?= M * c) with (2 * (N mod M) ?= M); trivial.
  destruct (Z.compare_spec (2 * (N mod M)) M); symmetry.
  - apply Z.compare_eq_iff. nia.
  - apply Z.compare_lt_iff. nia.
  - apply Z.compare_gt_iff. nia.
Qed.

Lemma rne_div_mono (N N' M : Z) :
  0 < M -> N <= N' -> rne_div N M <= rne_div N' M.
Proof.
  intros HM H.
  assert (Hq : N / M <= N' / M) by (apply Z.div_le_mono; lia).
  destruct (Z.eq_dec (N / M) (N' / M)) as [E|NE].
  - assert (Hr : N mod M <= N' mod M).
    { rewrite !Z.mod_eq by lia. rewrite E. lia. }
    unfold rne_div. rewrite E.
    destruct (Z.compare_spec (2 * (N mod M)) M);
      destruct (Z.compare_spec (2 * (N' mod M)) M);
      try destruct (Z.even _); lia.
  - pose proof (rne_div_bounds N M). pose proof (rne_div_bounds N' M). lia.
Qed.

Lemma rne_div_exact (N D n : Z) :
  0 < D -> 0 <= n -> N mod D = 0 -> rne_div N (D * 2 ^ n) = rne (N / D) n.
Proof.
  intros HD Hn H. pose proof (pow2_pos n Hn) as Hp.
  pose proof (Z.div_mod N D ltac:(lia)) as Hd. rewrite H, Z.add_0_r in Hd.
  rewrite rne_rne_div. rewrite Hd at 1.
  rewrite (Z.mul_comm D (N / D)). rewrite (Z.mul_comm D (2 ^ n)).
  apply rne_div_scale; lia.
Qed.

(** The end of [binary_round_aux]: a rounded mantissa [R] at exponent [E]
    is renormalised and checked for overflow. *)
Lemma round_tail (R E : Z) :
  0 <= R <= 2 ^ 53 -> -1074 <= E -> (-1074 < E -> 2 ^ 52 <= R) ->
  let r := shr_fexp prec emax R E loc_Exact in
  let z := match shr_m (fst r) with
           | Z0 => S754_zero false
           | Zpos m => if snd r <=? emax - prec then S754_finite false m (snd r)
                       else S754_infinity false
           | Zneg _ => S754_nan
           end in
  nonnegSF z = true /\ val z = Z.min (R * 2 ^ (E + scale)) top.
Proof.
  intros HRb HEm HRn.
  assert (HEs : 0 <= E + scale) by (unfold scale; lia).
  pose proof (pow2_pos (E + scale) HEs) as HpE.
  pose proof (shr_fexp_renorm R E HRb HEm) as Hren. cbv zeta in Hren.
  destruct (shr_fexp prec emax R E loc_Exact) as [mrs'' e''].
  cbn [fst snd] in *. cbv zeta.
  assert (Htop : 0 < top) by (apply pow2_pos; unfold scale; lia).
  destruct Hren as [[Hlt [Hm He'']]|[Heq [Hm He'']]]; rewrite Hm; subst e''.
  - destruct R as [|m|m] eqn:ER; [| |lia].
    + split; [reflexivity|]. cbn [val]. lia.
    + destruct (Z.leb_spec E (emax - prec)) as [Hle|Hgt];
        (split; [reflexivity|]); cbn [val]; change (emax - prec) with 971 in *.
      * assert (Zpos m * 2 ^ (E + scale) <= top); [|lia].
        rewrite <- (top_eq 53 971) by (unfold scale; lia).
        apply mul_pow_le; unfold scale; lia.
      * assert (top <= Zpos m * 2 ^ (E + scale)); [|lia].
        rewrite <- (top_eq 52 972) by (unfold scale; lia).
        specialize (HRn ltac:(lia)).
        apply mul_pow_le; unfold scale; lia.
  - change (2 ^ 52) with (Zpos (2 ^ 52)%positive). cbv iota.
    change (Zpos (2 ^ 52)%positive) with (2 ^ 52).
    assert (Hv : 2 ^ 52 * 2 ^ (E + 1 + scale) = R * 2 ^ (E + scale)).
    { rewrite Heq. replace (E + 1 + scale) with (Z.succ (E + scale)) by lia.
      rewrite Z.pow_succ_r by lia. change (2 ^ 53) with (2 ^ 52 * 2). lia. }
    destruct (Z.leb_spec (E + 1) (emax - prec)) as [Hle|Hgt];
        (split; [reflexivity|]); cbn [val]; change (emax - prec) with 971 in *.
    + change (Zpos (2 ^ 52)%positive) with (2 ^ 52). rewrite Hv.
      assert (R * 2 ^ (E + scale) <= top); [|lia].
      rewrite Heq. rewrite <- (top_eq 53 971) by (unfold scale; lia).
      apply mul_pow_le; unfold scale; lia.
    + assert (top <= R * 2 ^ (E + scale)); [|lia].
      rewrite Heq. rewrite <- (top_eq 53 971) by (unfold scale; lia).
      apply mul_pow_le; unfold scale; lia.
Qed.

(** [binary_round_aux] on the record of a quotient [N / D] at exponent
    [e]: the value is [N / D * 2^e] rounded at the exponent [E] of its
    binade. *)
Lemma binary_round_aux_quotient (N D e : Z) :
  0 <= N -> 0 < D ->
  let q := N / D in
  let E := fexp prec emax (Zdigits2 q + e) in
  e <= E ->
  forall l, shr_record_of_loc q l = rec_of N D ->
  let z := binary_round_aux prec emax false q e l in
  nonnegSF z = true
  /\ val z = Z.min (rne_div N (D * 2 ^ (E - e)) * 2 ^ (E + scale)) top.
Proof.
  intros HN HD q E HE l Hl z. subst z. unfold binary_round_aux.
  assert (Hq : 0 <= q) by (subst q; apply Z.div_pos; lia).
  assert (HEm : -1074 <= E) by (subst E; rewrite fexp_eq; lia).
  assert (Hsh : shr_fexp prec emax q e l = (rec_of N (D * 2 ^ (E - e)), E)).
  { unfold shr_fexp. fold E. rewrite Hl. unfold shr.
    destruct (E - e) as [|p|p] eqn:Ek; try lia.
    - change (2 ^ 0) with 1. rewrite Z.mul_1_r. f_equal. lia.
    - rewrite iter_pos_iter, rec_of_iter by lia. f_equal. lia. }
  rewrite Hsh. rewrite rec_of_round by (pose proof (pow2_pos (E - e)); nia).
  set (k := E - e) in *. set (R := rne_div N (D * 2 ^ k)).
  pose proof (pow2_pos k ltac:(lia)) as Hpk.
  pose proof (rne_div_bounds N (D * 2 ^ k)) as Hb. fold R in Hb.
  assert (Hg : N / (D * 2 ^ k) = q / 2 ^ k) by (rewrite <- Z.div_div by lia; reflexivity).
  rewrite Hg in Hb.
  assert (Hg0 : 0 <= q / 2 ^ k) by (apply Z.div_pos; lia).
  assert (HR : 0 <= R <= 2 ^ 53).
  { split; [lia|].
    assert (q / 2 ^ k < 2 ^ 53); [|lia].
    destruct (Z.eq_dec q 0) as [E0|N0]; [rewrite E0, Z.div_0_l by lia; lia|].
    apply Z.div_lt_upper_bound; [lia|].
    pose proof (Zdigits2_log2 q ltac:(lia)) as Hdl.
    pose proof (Z.log2_spec q ltac:(lia)) as [_ Hlt]. unfold Z.succ in Hlt.
    rewrite <- Hdl in Hlt.
    assert (Hk : Zdigits2 q - 53 <= k).
    { subst k E. rewrite fexp_eq. lia. }
    rewrite <- Z.pow_add_r by lia.
    eapply Z.lt_le_trans; [exact Hlt|]. apply Z.pow_le_mono_r; lia. }
  assert (HRn : -1074 < E -> 2 ^ 52 <= R).
  { intros HE1.
    assert (Hk : k = Zdigits2 q - 53) by (subst k E; rewrite fexp_eq in *; lia).
    assert (N0 : q <> 0).
    { intros E0. rewrite E0 in Hk. change (Zdigits2 0) with 0 in Hk. lia. }
    assert (2 ^ 52 <= q / 2 ^ k); [|lia].
    apply Z.div_le_lower_bound; [lia|].
    pose proof (Zdigits2_log2 q ltac:(lia)) as Hdl.
    pose proof (Z.log2_spec q ltac:(lia)) as [Hge _].
    rewrite <- Z.pow_add_r by lia.
    replace (k + 52) with (Z.log2 q) by lia. exact Hge. }
  pose proof (round_tail R E HR HEm HRn) as Ht. cbv zeta in Ht.
  destruct (shr_fexp prec emax R E loc_Exact) as [mrs'' e''].
  cbn [fst snd] in Ht. exact Ht.
Qed.

Lemma log2_floor_scaled (N D j : Z) :
  0 < D -> D <= N -> 0 <= j ->
  Z.log2 (N * 2 ^ j / D) = Z.log2 (N / D) + j.
Proof.
  intros HD HN Hj. pose proof (pow2_pos j Hj) as Hp.
  assert (Hq : 1 <= N / D) by (apply Z.div_le_lower_bound; lia).
  pose proof (Z.log2_spec (N / D) ltac:(lia)) as [Hlo Hhi]. unfold Z.succ in Hhi.
  pose proof (Z.log2_nonneg (N / D)) as HL.
  pose proof (Z.div_mod N D ltac:(lia)) as Hd.
  pose proof (Z.mod_pos_bound N D HD) as Hr.
  apply Z.log2_unique; [lia|]. split.
  - apply Z.div_le_lower_bound; [lia|].
    rewrite Z.pow_add_r by lia. 
    assert (2 ^ Z.log2 (N / D) * D <= N) by nia. nia.
  - apply Z.div_lt_upper_bound; [lia|].
    unfold Z.succ. rewrite <- Z.add_assoc, (Z.add_comm j 1), Z.add_assoc.
    rewrite (Z.pow_add_r 2 (Z.log2 (N / D) + 1)) by lia.
    assert (N < D * 2 ^ (Z.log2 (N / D) + 1)) by nia. nia.
Qed.

Lemma rndq_0 (D : Z) : 0 < D -> rndq 0 D = 0.
Proof.
  intros HD. pose proof top_pos. unfold rndq, outq, rne_div.
  rewrite Z.div_0_l by lia.
  pose proof (nexp_ge 0) as Hn. pose proof (pow2_pos (nexp 0) ltac:(lia)) as Hp.
  assert (HM : 0 < D * 2 ^ nexp 0) by nia.
  rewrite Z.div_0_l, Z.mod_0_l by lia.
  replace (2 * 0 ?= D * 2 ^ nexp 0) with Lt
    by (symmetry; apply Z.compare_lt_iff; lia).
  lia.
Qed.

Lemma SFdiv_val (x y : spec_float) :
  valid_binary x = true -> valid_binary y = true ->
  nonnegSF x = true -> nonnegSF y = true ->
  val x < top -> 0 < val y < top ->
  nonnegSF (SF64div x y) = true
  /\ val (SF64div x y) = rndq (val x * 2 ^ scale) (val y).
Proof.
  intros Vx Vy Nx Ny Fx Fy. pose proof top_pos as Ht. unfold SF64div.
  destruct y as [sy|[]| |[] my ey]; try discriminate Ny; cbn [val] in Fy; try lia.
  destruct x as [sx|[]| |[] mx ex]; try discriminate Nx; cbn [val] in Fx; try lia;
    cbn [SFdiv xorb].
  - split; [reflexivity|]. cbn [val]. rewrite Z.mul_0_l. symmetry. apply rndq_0. lia.
  - apply valid_finite in Vx. destruct Vx as [Hex [Hmx [_ Hfx]]].
    apply valid_finite in Vy. destruct Vy as [Hey [Hmy [_ Hfy]]].
    pose proof (pos_lt_pow_digits mx) as Hx1. pose proof (pos_ge_pow_digits mx) as Hx2.
    pose proof (pos_lt_pow_digits my) as Hy1. pose proof (pos_ge_pow_digits my) as Hy2.
    unfold SFdiv_core_binary.
    change (Zdigits2 (Zpos mx)) with (Zpos (digits2_pos mx)).
    change (Zdigits2 (Zpos my)) with (Zpos (digits2_pos my)).
    set (d1 := Zpos (digits2_pos mx)) in *. set (d2 := Zpos (digits2_pos my)) in *.
    assert (Hd1 : 0 < d1) by (subst d1; lia).
    assert (Hd2 : 0 < d2) by (subst d2; lia).
    set (e' := Z.min (fexp prec emax (d1 + ex - (d2 + ey))) (ex - ey)).
    set (s := ex - ey - e').
    assert (Hs : 0 <= s) by (subst s e'; lia).
    set (m' := match s with
               | Zpos _ => Z.shiftl (Zpos mx) s
               | Z0 => Zpos mx
               | Zneg _ => 0
               end).
    assert (Hm' : m' = Zpos mx * 2 ^ s).
    { subst m'. destruct s as [|p|p] eqn:Es; try lia.
      apply Z.shiftl_mul_pow2. lia. }
    pose proof (pow2_pos s Hs) as Hps.
    destruct (Z.div_eucl m' (Zpos my)) as [q r] eqn:Ed.
    apply div_eucl_div in Ed. destruct Ed as [Hq Hr]. subst q r.
    set (N := m') in *. set (D := Zpos my) in *.
    assert (HN : 0 <= N) by (rewrite Hm'; nia).
    assert (HD : 0 < D) by (subst D; lia).
    assert (He' : e' <= fexp prec emax (d1 + ex - (d2 + ey))) by (subst e'; lia).
    assert (He'lo : -2045 <= e') by (subst e'; rewrite fexp_eq; lia).
    pose proof (pow2_pos (d2 - 1) ltac:(lia)) as Hp2.
    pose proof (pow2_pos (d1 - 1) ltac:(lia)) as Hp1.
    (* the exponent of the binade *)
    assert (HE : e' <= fexp prec emax (Zdigits2 (N / D) + e')).
    { destruct (Z.eq_dec (N / D) 0) as [E0|N0].
      - rewrite E0. change (Zdigits2 0) with 0.
        assert (N < D).
        { destruct (Z.lt_ge_cases N D); trivial.
          assert (1 <= N / D) by (apply Z.div_le_lower_bound; lia). lia. }
        assert (d1 - 1 + s < d2).
        { apply (Z.pow_lt_mono_r_iff 2); [lia|lia|].
          rewrite Z.pow_add_r by lia. rewrite Hm' in *. nia. }
        rewrite fexp_eq in *. lia.
      - assert (Hq1 : 1 <= N / D).
        { assert (0 <= N / D) by (apply Z.div_pos; lia). lia. }
        assert (Hdq : d1 + s - d2 <= Zdigits2 (N / D)).
        { rewrite Zdigits2_log2 by lia.
          destruct (Z.le_gt_cases 0 (d1 + s - d2 - 1)) as [Hk|Hk].
          - assert (d1 + s - d2 - 1 <= Z.log2 (N / D)); [|lia].
            apply Z.log2_le_pow2; [lia|].
            apply Z.div_le_lower_bound; [lia|].
            assert (Hpow : 2 ^ (d1 - 1) * 2 ^ s = 2 ^ (d1 + s - d2 - 1) * 2 ^ d2).
            { rewrite <- !Z.pow_add_r by lia. f_equal. lia. }
            pose proof (pow2_pos (d1 + s - d2 - 1) Hk).
            rewrite Hm'. nia.
          - pose proof (Z.log2_nonneg (N / D)). lia. }
        rewrite !fexp_eq in *. lia. }
    pose proof (binary_round_aux_quotient N D e' HN HD HE
                  (new_location D (N mod D)) (new_location_rec D N HD HN)) as [Hn Hv].
    split; [exact Hn|]. rewrite Hv. cbn [val]. unfold rndq, outq. f_equal.
    set (E := fexp prec emax (Zdigits2 (N / D) + e')) in *.
    set (j := e' + scale).
    assert (Hj : 0 <= j) by (subst j; unfold scale; lia).
    set (c := 2 ^ (ey + scale)).
    assert (Hc : 0 < c) by (subst c; apply pow2_pos; unfold scale; lia).
    pose proof (pow2_pos j Hj) as Hpj.
    assert (HNst : Zpos mx * 2 ^ (ex + scale) * 2 ^ scale = N * 2 ^ j * c).
    { rewrite Hm'. subst c j. rewrite <- !Z.mul_assoc. f_equal.
      rewrite <- !Z.pow_add_r by (unfold scale; lia). f_equal. subst s. lia. }
    fold D. fold c. rewrite HNst.
    assert (Hfl : N * 2 ^ j * c / (D * c) = N * 2 ^ j / D)
      by (apply Z.div_mul_cancel_r; lia).
    rewrite Hfl.
    assert (Hnexp : nexp (N * 2 ^ j / D) = E + scale).
    { unfold nexp. destruct (Z.lt_ge_cases N D) as [Hlt|Hge].
      - assert (E0 : N / D = 0) by (apply Z.div_small; lia).
        assert (N * 2 ^ j / D < 2 ^ j) by (apply Z.div_lt_upper_bound; nia).
        assert (0 <= N * 2 ^ j / D) by (apply Z.div_pos; nia).
        assert (Z.log2 (N * 2 ^ j / D) < j).
        { destruct (Z.eq_dec (N * 2 ^ j / D) 0) as [->|];
            [simpl; subst j; unfold scale; lia|].
          apply Z.log2_lt_pow2; lia. }
        assert (d1 - 1 + s < d2).
        { apply (Z.pow_lt_mono_r_iff 2); [lia|lia|].
          rewrite Z.pow_add_r by lia. rewrite Hm' in *. nia. }
        subst E. rewrite E0. change (Zdigits2 0) with 0.
        rewrite fexp_eq in *. subst j. unfold scale in *. lia.
      - rewrite log2_floor_scaled by lia.
        assert (Hq1 : 1 <= N / D) by (apply Z.div_le_lower_bound; lia).
        subst E. rewrite fexp_eq, Zdigits2_log2 by lia.
        subst j. unfold scale. lia. }
    rewrite Hnexp.
    replace (D * c * 2 ^ (E + scale)) with (D * 2 ^ (E - e') * (2 ^ j * c)).
    + rewrite <- Z.mul_assoc. rewrite rne_div_scale; trivial.
      * pose proof (pow2_pos (E - e') ltac:(lia)). nia.
      * nia.
    + replace (E + scale) with ((E - e') + j) by (subst j; lia).
      rewrite Z.pow_add_r by lia. ring.
Qed.

Lemma rne_div_mul (K M : Z) : 0 < M -> rne_div (K * M) M = K.
Proof.
  intros HM. unfold rne_div. rewrite Z.div_mul, Z.mod_mul by lia.
  replace (2 * 0 ?= M) with Lt by (symmetry; apply Z.compare_lt_iff; lia).
  reflexivity.
Qed.

Lemma outq_exact (Q D : Z) : 0 < D -> outq (Q * D) D = out Q.
Proof.
  intros HD. unfold outq, out. rewrite Z.div_mul by lia.
  pose proof (nexp_ge Q).
  rewrite rne_div_exact; try lia.
  - now rewrite Z.div_mul by lia.
  - apply Z.mod_mul. lia.
Qed.

Lemma rndq_exact (Q D : Z) : 0 < D -> rndq (Q * D) D = rnd Q.
Proof. intros HD. unfold rndq, rnd. now rewrite outq_exact. Qed.

Lemma outq_mono (N N' D : Z) :
  0 <= N <= N' -> 0 < D -> outq N D <= outq N' D.
Proof.
  intros HN HD. unfold outq.
  assert (Hq : N / D <= N' / D) by (apply Z.div_le_mono; lia).
  assert (Hq0 : 0 <= N / D) by (apply Z.div_pos; lia).
  pose proof (nexp_mono _ _ Hq) as Hn.
  pose proof (nexp_ge (N / D)) as Hn1.
  set (n := nexp (N / D)) in *. set (n' := nexp (N' / D)) in *.
  pose proof (pow2_pos n ltac:(lia)) as Hp. pose proof (pow2_pos n' ltac:(lia)) as Hp'.
  destruct (Z.eq_dec n n') as [E|NE].
  - rewrite <- E. apply Z.mul_le_mono_nonneg_r; [lia|].
    apply rne_div_mono; [nia|lia].
  - assert (Hlt : n < n') by lia.
    assert (Hl' : n' = Z.log2 (N' / D) - 52) by (subst n'; unfold nexp in *; lia).
    assert (Hq1 : 0 < N' / D).
    { destruct (Z.eq_dec (N' / D) 0) as [E0|]; [|lia].
      rewrite E0 in Hl'. simpl in Hl'. lia. }
    pose proof (Z.log2_spec (N' / D) Hq1) as [Hlo _].
    assert (Hhi : N / D < 2 ^ (n + 53)).
    { destruct (Z.eq_dec (N / D) 0) as [E0|N0].
      - rewrite E0. apply pow2_pos. lia.
      - pose proof (Z.log2_spec (N / D) ltac:(lia)) as [_ Hh].
        eapply Z.lt_le_trans; [exact Hh|].
        apply Z.pow_le_mono_r; [lia|]. subst n. unfold nexp. lia. }
    pose proof (Z.div_mod N D ltac:(lia)) as Hd.
    pose proof (Z.mod_pos_bound N D HD) as Hr.
    pose proof (Z.div_mod N' D ltac:(lia)) as Hd'.
    pose proof (Z.mod_pos_bound N' D HD) as Hr'.
    apply Z.le_trans with (2 ^ (n + 53)).
    + replace (2 ^ (n + 53)) with (2 ^ 53 * 2 ^ n)
        by (rewrite <- Z.pow_add_r by lia; f_equal; lia).
      apply Z.mul_le_mono_nonneg_r; [lia|].
      rewrite <- (rne_div_mul (2 ^ 53) (D * 2 ^ n)) by nia.
      apply rne_div_mono; [nia|].
      replace (2 ^ 53 * (D * 2 ^ n)) with (2 ^ (n + 53) * D)
        by (rewrite (Z.add_comm n 53), Z.pow_add_r by lia; ring).
      nia.
    + apply Z.le_trans with (2 ^ (n' + 52)).
      * apply Z.pow_le_mono_r; lia.
      * replace (2 ^ (n' + 52)) with (2 ^ 52 * 2 ^ n')
          by (rewrite <- Z.pow_add_r by lia; f_equal; lia).
        apply Z.mul_le_mono_nonneg_r; [lia|].
        rewrite <- (rne_div_mul (2 ^ 52) (D * 2 ^ n')) at 1 by nia.
        apply rne_div_mono; [nia|].
        replace (2 ^ 52 * (D * 2 ^ n')) with (2 ^ (n' + 52) * D)
          by (rewrite (Z.add_comm n' 52), Z.pow_add_r by lia; ring).
        replace (n' + 52) with (Z.log2 (N' / D)) by lia. nia.
Qed.

Lemma rndq_mono (N N' D : Z) :
  0 <= N <= N' -> 0 < D -> rndq N D <= rndq N' D.
Proof.
  intros HN HD. unfold rndq. pose proof (outq_mono N N' D HN HD). lia.
Qed.

(** The rounded quotient lies between the roundings of the integer
    quotient and of its successor. *)
Lemma rndq_sandwich (N D : Z) :
  0 <= N -> 0 < D -> rnd (N / D) <= rndq N D <= rnd (N / D + 1).
Proof.
  intros HN HD.
  pose proof (Z.div_mod N D ltac:(lia)) as Hd.
  pose proof (Z.mod_pos_bound N D HD) as Hr.
  assert (0 <= N / D) by (apply Z.div_pos; lia).
  rewrite <- (rndq_exact (N / D) D), <- (rndq_exact (N / D + 1) D) by trivial.
  split; apply rndq_mono; trivial; nia.
Qed.

Local Open Scope float_scope.

Lemma div_fval (x c : float) :
  nn x -> nn c -> (fval x < top)%Z -> (0 < fval c < top)%Z ->
  nn (x / c) /\ fval (x / c) = rndq (fval x * 2 ^ scale) (fval c).
Proof.
  intros Hx Hc Fx Fc. unfold nn, fval. rewrite div_spec.
  apply SFdiv_val; trivial; apply Prim2SF_valid.
Qed.

Lemma div_inf (x c : float) :
  nn x -> nn c -> fval x = top -> (0 < fval c < top)%Z ->
  fval (x / c) = top.
Proof.
  unfold nn, fval. intros Hx Hc Fx Fc. rewrite div_spec.
  pose proof (Prim2SF_valid x) as Vx. pose proof top_pos.
  destruct (Prim2SF x) as [sx|[]| |[] mx ex]; try discriminate Hx; cbn [val] in Fx;
    try lia.
  - destruct (Prim2SF c) as [sc|[]| |[] mc ec]; try discriminate Hc;
      cbn [val] in Fc; try lia. reflexivity.
  - pose proof (val_finite_lt_top _ _ _ Vx) as Hlt. cbn [val] in Hlt. lia.
Qed.

(** Division by a positive finite number is monotone. *)
Lemma div_mono (x y c : float) :
  nn x -> nn y -> nn c -> (0 < fval c < top)%Z -> (fval x <= fval y)%Z ->
  (fval (x / c) <= fval (y / c))%Z.
Proof.
  intros Hx Hy Hc Fc Hxy. pose proof (fval_le_top y Hy) as Hle.
  destruct (Z.eq_dec (fval y) top) as [E|NE].
  - rewrite (div_inf y c Hy Hc E Fc). apply fval_le_top. now apply div_nn.
  - destruct (div_fval x c Hx Hc ltac:(lia) Fc) as [_ ->].
    destruct (div_fval y c Hy Hc ltac:(lia) Fc) as [_ ->].
    pose proof (fval_nonneg x). pose proof (pow2_pos scale ltac:(unfold scale; lia)).
    apply rndq_mono; [nia|lia].
Qed.

End Binary64Division.

Import Binary64Division.

(** ** [Math.ceil], doubling and halving *)

Module Binary64Ceiling.

Local Open Scope Z_scope.

Lemma up_spec (V : Z) : V <= up V * 2 ^ scale < V + 2 ^ scale.
Proof.
  unfold up. pose proof (pow2_pos scale ltac:(unfold scale; lia)) as Hs.
  pose proof (Z.div_mod (- V) (2 ^ scale) ltac:(lia)) as Hd.
  pose proof (Z.mod_pos_bound (- V) (2 ^ scale) Hs) as Hr.
  nia.
Qed.

Lemma up_integer (k : Z) : up (k * 2 ^ scale) = k.
Proof.
  unfold up. pose proof (pow2_pos scale ltac:(unfold scale; lia)) as Hs.
  rewrite <- Z.mul_opp_l, Z.div_mul by lia. lia.
Qed.

Lemma up_mono (V W : Z) : V <= W -> up V <= up W.
Proof.
  intros H. unfold up. pose proof (pow2_pos scale ltac:(unfold scale; lia)) as Hs.
  assert (- W / 2 ^ scale <= - V / 2 ^ scale) by (apply Z.div_le_mono; lia). lia.
Qed.

Lemma Math_ceil_fval (x : float) :
  nn x -> nn (Math_ceil x) /\ fval (Math_ceil x) = up (fval x) * 2 ^ scale.
Proof.
  unfold nn, fval, Math_ceil. intros Hx.
  pose proof (Prim2SF_valid x) as Vx.
  destruct (Prim2SF x) as [s|[]| |[] m e] eqn:E; try discriminate Hx.
  - rewrite E. split; [trivial|]. cbn [val]. reflexivity.
  - rewrite E. split; [trivial|]. cbn [val]. unfold top.
    rewrite Z.pow_add_r by (unfold scale; lia). now rewrite up_integer.
  - apply valid_finite in Vx. destruct Vx as [He [Hm _]].
    destruct (Z.leb_spec 0 e) as [H0|H0].
    + rewrite E. split; [trivial|]. cbn [val].
      rewrite Z.pow_add_r by (unfold scale; lia).
      rewrite Z.mul_assoc. now rewrite up_integer.
    + cbn [cond_Zopp].
      pose proof (pow2_pos (e + scale) ltac:(unfold scale; lia)) as Hp.
      pose proof (pow2_pos (- e) ltac:(lia)) as Hq.
      assert (Hu : - (- Zpos m / 2 ^ (- e)) = up (Zpos m * 2 ^ (e + scale))).
      { unfold up. f_equal.
        replace (2 ^ scale) with (2 ^ (- e) * 2 ^ (e + scale))
          by (rewrite <- Z.pow_add_r by (unfold scale; lia); f_equal; lia).
        rewrite <- Z.mul_opp_l. now rewrite Z.div_mul_cancel_r by lia. }
      assert (Hb : 0 < - (- Zpos m / 2 ^ (- e)) < 2 ^ 53).
      { pose proof (Z.div_mod (- Zpos m) (2 ^ (- e)) ltac:(lia)) as Hd.
        pose proof (Z.mod_pos_bound (- Zpos m) (2 ^ (- e)) Hq) as Hr.
        assert (2 <= 2 ^ (- e)).
        { change 2 with (2 ^ 1) at 1. apply Z.pow_le_mono_r; lia. }
        nia. }
      cbn [val]. rewrite <- Hu.
      destruct (- (- Zpos m / 2 ^ (- e))) as [|q|q] eqn:Eq; try lia.
      cbn [Z.eqb]. apply Prim2SF_of_pos. lia.
Qed.

Lemma repr_double (V : Z) : 0 <= V -> repr V -> repr (2 * V).
Proof.
  intros H0 R. destruct (Z.eq_dec V 0) as [->|NZ]; [exact R|].
  unfold repr in *.
  pose proof (nexp_double V ltac:(lia)) as Hd.
  pose proof (nexp_ge (2 * V)) as Hn. pose proof (nexp_ge V) as Hn'.
  pose proof (pow2_pos (nexp V) ltac:(lia)) as Hp.
  pose proof (Z.div_mod V (2 ^ nexp V) ltac:(lia)) as HV.
  rewrite R, Z.add_0_r in HV.
  set (n := nexp (2 * V)) in *.
  rewrite HV.
  replace (2 * (2 ^ nexp V * (V / 2 ^ nexp V)))
    with (V / 2 ^ nexp V * 2 ^ (nexp V + 1 - n) * 2 ^ n).
  - apply Z.mod_mul. pose proof (pow2_pos n ltac:(lia)). lia.
  - rewrite <- Z.mul_assoc, <- Z.pow_add_r by lia.
    replace (nexp V + 1 - n + n) with (nexp V + 1) by lia.
    rewrite Z.pow_add_r by lia. change (2 ^ 1) with 2. ring.
Qed.

Local Open Scope float_scope.

Lemma two_facts :
  nn 2 /\ fval 2 = (2 * 2 ^ scale)%Z /\ nn 0.5 /\ fval 0.5 = (2 ^ (scale - 1))%Z.
Proof. unfold nn. repeat split; vm_compute; reflexivity. Qed.

(** Doubling is exact below overflow. *)
Lemma double_fval (x : float) :
  nn x -> (2 * fval x < top)%Z -> nn (x * 2) /\ fval (x * 2) = (2 * fval x)%Z.
Proof.
  intros Hx Ht. destruct two_facts as [N2 [V2 _]].
  pose proof (fval_nonneg x) as H0. pose proof top_pos.
  pose proof (pow2_pos scale ltac:(unfold scale; lia)) as Hs.
  destruct (mul_fval x 2 Hx N2 ltac:(lia)) as [N V].
  { rewrite V2. unfold top. rewrite Z.pow_add_r by (unfold scale; lia).
    assert (2 < 2 ^ 1024)%Z by (apply Z.ltb_lt; vm_compute; reflexivity). nia. }
  split; trivial. rewrite V, V2.
  replace (fval x * (2 * 2 ^ scale))%Z with (2 * fval x * 2 ^ scale)%Z by ring.
  rewrite Z.div_mul by lia.
  apply rnd_exact; [lia|]. apply repr_double; trivial. now apply repr_fval.
Qed.

(** Halving a whole number is exact. *)
Lemma halve_whole (x : float) (k : Z) :
  whole x k -> (k < 2 ^ 53)%Z ->
  nn (x / 2) /\ fval (x / 2) = (k * 2 ^ (scale - 1))%Z.
Proof.
  intros [Nx [Vx Kx]] Hk. destruct two_facts as [N2 [V2 _]].
  pose proof (pow2_pos scale ltac:(unfold scale; lia)) as Hs.
  pose proof (pow2_pos (scale - 1) ltac:(unfold scale; lia)) as Hs1.
  pose proof unit_halves as HU.
  assert (Ht : (2 ^ 53 * 2 ^ scale < top)%Z).
  { unfold top. rewrite <- Z.pow_add_r by (unfold scale; lia).
    apply Z.pow_lt_mono_r; unfold scale; lia. }
  destruct (div_fval x 2 Nx N2) as [N V].
  - rewrite Vx. nia.
  - rewrite V2. nia.
  - split; trivial. rewrite V, Vx, V2.
    replace (k * 2 ^ scale * 2 ^ scale)%Z
      with (k * 2 ^ (scale - 1) * (2 * 2 ^ scale))%Z by lia.
    rewrite rndq_exact by lia.
    destruct (Z.eq_dec k 0) as [->|NZ]; [reflexivity|].
    apply rnd_exact; [nia|]. apply repr_mul_pow; [lia|unfold scale; lia].
Qed.

(** [Math.ceil(x * 2) / 2]: the next half unit at or above [x], for a
    non-negative [x] up to [2^40]. *)
Lemma half_ceiling (x : float) :
  moderate x ->
  exists k : Z,
    whole (Math_ceil (x * 2) / 2 * 2) k
    /\ (x <=? Math_ceil (x * 2) / 2) = true
    /\ (Math_ceil (x * 2) / 2 <=? x + 0.5) = true.
Proof.
  intros M. destruct (moderate_fval x M) as [Nx [H0 Hx]].
  destruct two_facts as [N2 [V2 [N5 V5]]].
  pose proof (pow2_pos scale ltac:(unfold scale; lia)) as Hs.
  pose proof unit_halves as HU.
  pose proof (pow2_pos (scale - 1) ltac:(unfold scale; lia)) as Hs1.
  assert (Ht : (2 ^ 53 * 2 ^ scale < top)%Z).
  { unfold top. rewrite <- Z.pow_add_r by (unfold scale; lia).
    apply Z.pow_lt_mono_r; unfold scale; lia. }
  assert (P40 : (2 * 2 ^ 40 < 2 ^ 52)%Z) by (apply Z.ltb_lt; reflexivity).
  assert (P53 : (2 ^ 53 = 2 * 2 ^ 52)%Z) by reflexivity.
  destruct (double_fval x Nx ltac:(nia)) as [Nd Vd].
  destruct (Math_ceil_fval (x * 2) Nd) as [Nc Vc].
  rewrite Vd in Vc.
  set (k := up (2 * fval x)) in *.
  pose proof (up_spec (2 * fval x)) as Hk. fold k in Hk.
  assert (Hk0 : (0 <= k)%Z) by nia.
  assert (Hk1 : (k < 2 ^ 52)%Z) by nia.
  assert (W : whole (Math_ceil (x * 2)) k) by (split; [|split]; trivial).
  destruct (halve_whole _ k W ltac:(lia)) as [Nh Vh].
  set (y := Math_ceil (x * 2) / 2) in *.
  exists k. split; [|split].
  - destruct (double_fval y Nh ltac:(rewrite Vh; nia)) as [Ny Vy].
    split; [trivial|split; [|trivial]]. rewrite Vy, Vh. nia.
  - apply leb_fval; trivial. rewrite Vh. nia.
  - destruct (add_fval x 0.5 Nx N5) as [Na Va].
    apply leb_fval; trivial. rewrite Va, V5.
    rewrite <- (rnd_fval y Nh). apply rnd_mono; [apply fval_nonneg|].
    rewrite Vh. nia.
Qed.

(** Dividing by a number that is one at least does not increase. *)
Lemma div_le_self (x c : float) :
  nn x -> nn c -> (2 ^ scale <= fval c < top)%Z ->
  nn (x / c) /\ (fval (x / c) <= fval x)%Z.
Proof.
  intros Hx Hc Fc. pose proof (fval_le_top x Hx) as Hle.
  pose proof (pow2_pos scale ltac:(unfold scale; lia)) as Hs.
  pose proof (fval_nonneg x) as H0.
  split; [apply div_nn; trivial; lia|].
  destruct (Z.eq_dec (fval x) top) as [E|NE].
  - rewrite E. apply fval_le_top. apply div_nn; trivial. lia.
  - destruct (div_fval x c Hx Hc ltac:(lia) ltac:(lia)) as [_ ->].
    rewrite <- (rnd_fval x Hx) at 2.
    rewrite <- (rndq_exact (fval x) (fval c)) by lia.
    apply rndq_mono; [nia|lia].
Qed.

End Binary64Ceiling.

Import Binary64Ceiling.

(** ** Subtraction *)

Module Binary64Subtraction.

Local Open Scope Z_scope.

Lemma SFsub_val (x y : spec_float) :
  valid_binary x = true -> valid_binary y = true ->
  nonnegSF x = true -> nonnegSF y = true ->
  val y <= val x < top ->
  nonnegSF (SF64sub x y) = true /\ val (SF64sub x y) = rnd (val x - val y).
Proof.
  intros Vx Vy Nx Ny H. pose proof top_pos as Ht.
  unfold SF64sub.
  destruct x as [sx|[]| |[] mx ex]; try discriminate Nx;
    destruct y as [sy|[]| |[] my ey]; try discriminate Ny;
    cbn [val] in H; try lia.
  - split; [now destruct sx, sy|]. now destruct sx, sy.
  - pose proof (val_finite_pos _ _ Vy) as Hp. cbn [val] in Hp. lia.
  - split; [reflexivity|]. cbn [SFsub]. change (val (S754_zero sy)) with 0.
    rewrite Z.sub_0_r. rewrite (rnd_valid _ Vx eq_refl). reflexivity.
  - apply valid_finite in Vx. destruct Vx as [Hex _].
    apply valid_finite in Vy. destruct Vy as [Hey _].
    cbn [SFsub cond_Zopp val].
    set (ez := Z.min ex ey).
    assert (Hz : ez <= ex /\ ez <= ey /\ -1074 <= ez) by (subst ez; lia).
    destruct Hz as [Hzx [Hzy Hzm]].
    pose proof (pow2_pos (ez + scale) ltac:(unfold scale; lia)) as Hp.
    assert (Hd : Zpos mx * 2 ^ (ex + scale) - Zpos my * 2 ^ (ey + scale)
                 = (Zpos (fst (shl_align mx ex ez)) - Zpos (fst (shl_align my ey ez)))
                   * 2 ^ (ez + scale)).
    { rewrite !shl_align_val by lia.
      rewrite Z.mul_sub_distr_r, <- !Z.mul_assoc, <- !Z.pow_add_r
        by (unfold scale; lia).
      f_equal; f_equal; f_equal; lia. }
    rewrite Hd.
    destruct (Zpos (fst (shl_align mx ex ez)) - Zpos (fst (shl_align my ey ez)))
      as [|p|p] eqn:Ed.
    + split; reflexivity.
    + cbn [binary_normalize]. apply binary_round_val. unfold scale. lia.
    + exfalso. pose proof (Pos2Z.neg_is_neg p). nia.
Qed.

Lemma half_up_integer (k : Z) : half_up (k * 2 ^ scale) = k.
Proof.
  pose proof (rh_integer k) as H. rewrite rh_half_up in H.
  pose proof (pow2_pos scale ltac:(unfold scale; lia)).
  apply (Z.mul_cancel_r _ _ (2 ^ scale)); [lia|exact H].
Qed.

Local Open Scope float_scope.

Lemma sub_fval (x y : float) :
  nn x -> nn y -> (fval y <= fval x < top)%Z ->
  nn (x - y) /\ fval (x - y) = rnd (fval x - fval y).
Proof.
  intros Hx Hy H. unfold nn, fval. rewrite sub_spec.
  apply SFsub_val; trivial; apply Prim2SF_valid.
Qed.

(** The difference of two whole numbers. *)
Lemma whole_sub (x y : number) (k j : Z) :
  whole x k -> whole y j -> (j <= k < 2 ^ 53)%Z -> whole (x - y) (k - j).
Proof.
  intros [Nx [Vx Kx]] [Ny [Vy Ky]] H.
  pose proof (pow2_pos scale ltac:(unfold scale; lia)) as Hs.
  assert (Ht : (2 ^ 53 * 2 ^ scale < top)%Z).
  { unfold top. rewrite <- Z.pow_add_r by (unfold scale; lia).
    apply Z.pow_lt_mono_r; unfold scale; lia. }
  destruct (sub_fval x y Nx Ny) as [N V]; [rewrite Vx, Vy; nia|].
  split; [trivial|split; [|lia]].
  rewrite V, Vx, Vy, <- Z.mul_sub_distr_r. apply rnd_integer. lia.
Qed.

(** Rounding a whole number leaves it as it is. *)
Lemma whole_round_whole (x : number) (k : Z) : whole x k -> whole (Math_round x) k.
Proof.
  intros [Nx [Vx Kx]]. pose proof (whole_round x Nx) as W.
  now rewrite Vx, half_up_integer in W.
Qed.

End Binary64Subtraction.

Import Binary64Subtraction.

(** ** The outcomes of [calculateAllTiers] *)

Lemma calculateAllTiers_shape (w : World) (property : Property)
    (tiers : list TierQuote) :
  calculateAllTiers w property = Ok tiers ->
  exists t1 t2 t3,
    tiers = [t1; t2; t3]
    /\ map tier tiers = [grass_roots; premier; total_landscape]
    /\ map tierName tiers = ["Grass Roots"; "Premier Lawn"; "Total Landscape"].
Proof.
  unfold calculateAllTiers.
  destruct (loadRateCards w) as [rateCards|e]; cbn [bind]; [|discriminate].
  destruct (calculateMowingCost _ _ _) as [m|e]; cbn [bind]; [|discriminate].
  destruct (calculateLeafCleanupCost _ _ _ _) as [f|e]; cbn [bind]; [|discriminate].
  destruct (calculateSeasonalPackageCost _ _) as [s|e]; cbn [bind]; [|discriminate].
  destruct (calculateLightsCost _ _ _) as [l|e]; cbn [bind]; [|discriminate].
  intros H. injection H as <-. do 3 eexists. repeat split.
Qed.

Lemma complete_or_not (rows : list RateCardRow) :
  Forall (fun code => has_active code rows) required_codes
  \/ Exists (fun code => ~ has_active code rows) required_codes.
Proof.
  induction required_codes as [|c cs IH].
  - left. constructor.
  - destruct (has_activeb c rows) eqn:E.
    + apply has_activeb_spec in E. destruct IH as [IH|IH].
      * left. now constructor.
      * right. now apply Exists_cons_tl.
    + right. apply Exists_cons_hd. intros H.
      apply has_activeb_spec in H. congruence.
Qed.

(** X1.  [calculateAllTiers] ends in one of three ways, and which one
    depends on the catalog alone: an [AppError] 500 when the rate cards
    cannot be read; the runtime's [TypeError] when they are read and one of
    the four codes has no active row; otherwise three tiers, which are Grass
    Roots, Premier Lawn and Total Landscape in this order.  No property
    makes it fail. *)
Theorem calculateAllTiers_outcomes (w : World) (property : Property) :
  (rate_cards w = None
   /\ calculateAllTiers w property
      = Throw (AppError "Failed to load pricing data" 500))
  \/ ((exists rows, rate_cards w = Some rows
                    /\ Exists (fun code => ~ has_active code rows) required_codes)
      /\ calculateAllTiers w property
         = Throw (TypeError "Cannot read properties of undefined (reading 'baseRate')"))
  \/ (catalog_complete w
      /\ exists t1 t2 t3,
           calculateAllTiers w property = Ok [t1; t2; t3]
           /\ map tier [t1; t2; t3] = [grass_roots; premier; total_landscape]
           /\ map tierName [t1; t2; t3]
              = ["Grass Roots"; "Premier Lawn"; "Total Landscape"]).
Proof.
  destruct (rate_cards w) as [rows|] eqn:Hr.
  - right. destruct (complete_or_not rows) as [Hc|Hm].
    + right. assert (C : catalog_complete w) by (exists rows; auto).
      split; trivial.
      destruct (component_costs_exist w property C) as [m [f [s [l H]]]].
      pose proof (calculateAllTiers_ok w property m f s l H) as Hok.
      destruct (calculateAllTiers_shape w property _ Hok) as [t1 [t2 [t3 [E [Ht Hn]]]]].
      exists t1, t2, t3. rewrite <- E. auto.
    + left. split; [exists rows; auto|].
      now apply missing_card_throws with (rows := rows).
  - left. split; trivial.
    unfold calculateAllTiers, loadRateCards, select_active_rate_cards.
    rewrite Hr. reflexivity.
Qed.

(** ** [calculatePricing] *)

Lemma find_tier_three (t1 t2 t3 : TierQuote) (wanted : TierType) :
  map tier [t1; t2; t3] = [grass_roots; premier; total_landscape] ->
  exists t, find_tier [t1; t2; t3] wanted = Some t
            /\ In t [t1; t2; t3] /\ tier t = wanted.
Proof.
  intros H. cbn [map] in H. injection H as H1 H2 H3.
  unfold find_tier. cbn [find]. rewrite H1, H2, H3.
  destruct wanted; cbn [TierType_eqb]; eexists; (split; [reflexivity|]);
    cbn [In]; auto.
Qed.

(** X2.  [calculatePricing] fails exactly as [calculateAllTiers] does, and
    otherwise quotes the tier asked for, Premier Lawn when none is: its
    'Invalid tier specified' error cannot occur for a tier of the type.  The
    base price and the final annual price are both the tier's annualPrice. *)
Theorem calculatePricing_selects (w : World) (property : Property)
    (serviceType : ServiceType) (wanted : option TierType) :
  (forall e, calculateAllTiers w property = Throw e ->
             calculatePricing w property serviceType wanted = Throw e)
  /\ (forall tiers, calculateAllTiers w property = Ok tiers ->
        exists t, In t tiers
                  /\ tier t = or_default wanted premier
                  /\ calculatePricing w property serviceType wanted
                     = Ok (quoted w property t)).
Proof.
  split.
  - intros e H. unfold calculatePricing. rewrite H. reflexivity.
  - intros tiers H.
    destruct (calculateAllTiers_shape w property tiers H) as [t1 [t2 [t3 [E [Ht _]]]]].
    subst tiers. unfold calculatePricing. rewrite H. cbn [bind].
    destruct (find_tier_three t1 t2 t3 (or_default wanted premier) Ht)
      as [t [Hf [Hin Htier]]].
    exists t. split; trivial. split; trivial.
    destruct wanted as [tr|]; cbn [or_default] in Hf; rewrite Hf; reflexivity.
Qed.

(** ** Crew sizes and distance bands *)

Lemma nn_dec (x : float) : nn x \/ ~ nn x.
Proof. unfold nn. destruct (nonnegSF (Prim2SF x)); [now left|right; discriminate]. Qed.

(** Below a threshold: what is below a number below the threshold is. *)
Lemma ltb_le_trans (a b c : float) :
  (a <=? b) = true -> (b <? c) = true -> (a <? c) = true.
Proof.
  intros Hab Hbc. destruct (nn_dec a) as [Na|Na].
  - pose proof (leb_nn a b Na Hab) as Nb.
    pose proof (ltb_nn b c Nb Hbc) as Nc.
    apply (ltb_fval a c Na Nc). apply (leb_fval a b Na Nb) in Hab.
    apply (ltb_fval b c Nb Nc) in Hbc. lia.
  - destruct (nn_dec b) as [Nb|Nb].
    + pose proof (ltb_nn b c Nb Hbc) as Nc.
      apply (negative_ltb a b c Hab Na Nc).
      apply (ltb_fval b c Nb Nc) in Hbc. pose proof (fval_nonneg b). lia.
    + revert Hab Hbc Na Nb. unfold nn. rewrite leb_spec, !ltb_spec.
      pose proof (Prim2SF_valid a) as Va. pose proof (Prim2SF_valid b) as Vb.
      pose proof (Prim2SF_valid c) as Vc.
      unfold SFleb, SFltb.
      destruct (Prim2SF a) as [sa|[]| |[] ma ea]; cbn; try congruence;
        destruct (Prim2SF b) as [sb|[]| |[] mb eb]; cbn; try congruence;
        destruct (Prim2SF c) as [sc|[]| |[] mc ec]; cbn; try congruence.
      destruct (Z.compare_spec ea eb); destruct (Z.compare_spec eb ec);
        destruct (Z.compare_spec ea ec); try congruence; try lia; subst.
      rewrite !Pos.compare_cont_spec. cbn [Pos.switch_Eq].
      destruct (Pos.compare_spec ma mb); destruct (Pos.compare_spec mb mc);
        destruct (Pos.compare_spec ma mc); cbn; try congruence; lia.
Qed.

Lemma leb_trans (a b c : float) :
  (a <=? b) = true -> (b <=? c) = true -> (a <=? c) = true.
Proof.
  intros Hab Hbc. destruct (nn_dec a) as [Na|Na].
  - pose proof (leb_nn a b Na Hab) as Nb.
    pose proof (leb_nn b c Nb Hbc) as Nc.
    apply (leb_fval a c Na Nc). apply (leb_fval a b Na Nb) in Hab.
    apply (leb_fval b c Nb Nc) in Hbc. lia.
  - destruct (nn_dec b) as [Nb|Nb].
    + pose proof (leb_nn b c Nb Hbc) as Nc.
      apply (negative_leb a b c Hab Na Nc).
    + revert Hab Hbc Na Nb. unfold nn. rewrite !leb_spec.
      unfold SFleb.
      destruct (Prim2SF a) as [sa|[]| |[] ma ea]; cbn; try congruence;
        destruct (Prim2SF b) as [sb|[]| |[] mb eb]; cbn; try congruence;
        destruct (Prim2SF c) as [sc|[]| |[] mc ec]; cbn; try congruence.
      destruct (Z.compare_spec ea eb); destruct (Z.compare_spec eb ec);
        destruct (Z.compare_spec ea ec); try congruence; try lia; subst.
      rewrite !Pos.compare_cont_spec. cbn [Pos.switch_Eq].
      destruct (Pos.compare_spec ma mb); destruct (Pos.compare_spec mb mc);
        destruct (Pos.compare_spec ma mc); cbn; try congruence; lia.
Qed.

(** X3.  The crew is of 2, 3 or 4, whatever the lawn (4 when the size is
    not a number), it does not depend on the service type, and a larger
    lawn never gets a smaller crew. *)
Theorem determineCrewSize_monotone (serviceType serviceType' : ServiceType)
    (lawnSqft lawnSqft' : number) :
  (lawnSqft <=? lawnSqft') = true ->
  In (determineCrewSize serviceType lawnSqft) [2; 3; 4]
  /\ determineCrewSize serviceType nan = 4
  /\ (determineCrewSize serviceType lawnSqft
      <=? determineCrewSize serviceType' lawnSqft') = true.
Proof.
  intros H. unfold determineCrewSize.
  split; [|split; [reflexivity|]].
  - destruct (lawnSqft <? 5000); [|destruct (lawnSqft <? 15000)]; cbn [In]; auto.
  - destruct (lawnSqft' <? 5000) eqn:E1.
    + rewrite (ltb_le_trans _ _ _ H E1). reflexivity.
    + destruct (lawnSqft' <? 15000) eqn:E2.
      * rewrite (ltb_le_trans _ _ _ H E2).
        destruct (lawnSqft <? 5000); reflexivity.
      * destruct (lawnSqft <? 5000); [|destruct (lawnSqft <? 15000)]; reflexivity.
Qed.

Lemma determineCrewSize_monotone_witness :
  In (determineCrewSize mowing 4000) [2; 3; 4]
  /\ determineCrewSize mowing nan = 4
  /\ (determineCrewSize mowing 4000 <=? determineCrewSize cleanup 20000) = true.
Proof.
  apply (determineCrewSize_monotone mowing cleanup 4000 20000). reflexivity.
Defined.

(** X4.  Whatever radius is configured, the distance multiplier is 1.0,
    1.05, 1.1 or 1.2 (1.2 when the distance is not a number), and a farther
    property never gets a lower one. *)
Theorem calculateDistanceMultiplier_monotone (w : World) (d d' : number) :
  (d <=? d') = true ->
  In (calculateDistanceMultiplier w d) [1.0; 1.05; 1.1; 1.2]
  /\ calculateDistanceMultiplier w nan = 1.2
  /\ (calculateDistanceMultiplier w d <=? calculateDistanceMultiplier w d') = true.
Proof.
  intros H. unfold calculateDistanceMultiplier.
  set (maxDistance := match SERVICE_AREA_RADIUS_MILES w with
                      | Some v => v
                      | None => 25
                      end).
  split; [|split].
  - destruct (d <=? 10); [|destruct (d <=? 20); [|destruct (d <=? maxDistance)]];
      cbn [In]; auto.
  - replace (nan <=? maxDistance) with false; [reflexivity|].
    symmetry. rewrite leb_spec. reflexivity.
  - destruct (d' <=? 10) eqn:E1.
    + rewrite (leb_trans _ _ _ H E1). reflexivity.
    + destruct (d' <=? 20) eqn:E2.
      * rewrite (leb_trans _ _ _ H E2). destruct (d <=? 10); reflexivity.
      * destruct (d' <=? maxDistance) eqn:E3.
        -- rewrite (leb_trans _ _ _ H E3).
           destruct (d <=? 10); [|destruct (d <=? 20)]; reflexivity.
        -- destruct (d <=? 10); [|destruct (d <=? 20); [|destruct (d <=? maxDistance)]];
             reflexivity.
Qed.

Lemma calculateDistanceMultiplier_monotone_witness :
  In (calculateDistanceMultiplier seed_world 8) [1.0; 1.05; 1.1; 1.2]
  /\ calculateDistanceMultiplier seed_world nan = 1.2
  /\ (calculateDistanceMultiplier seed_world 8
      <=? calculateDistanceMultiplier seed_world 22) = true.
Proof.
  apply (calculateDistanceMultiplier_monotone seed_world 8 22). reflexivity.
Defined.

(** ** What each upsell rule adds *)

Section RuleOffers.

Variable property : Property.

Variable tier : TierType.

Variable M : list (string * RateCardRow).

Ltac rule_app :=
  intros;
  cbv beta delta [rule_edging rule_bush_trimming rule_mulch_install
    rule_bed_maintenance rule_leaf_cleanup_upgrade rule_seasonal_package
    rule_lights push];
  repeat match goal with
         | |- context [if ?c then _ else _] => destruct c
         | |- context [match tier with _ => _ end] => destruct tier
         | |- context [match treeCoverage property with _ => _ end] =>
             destruct (treeCoverage property) as [[]|]
         | |- context [match Map_get ?k ?m with _ => _ end] =>
             destruct (Map_get k m)
         end;
  rewrite ?app_nil_r; reflexivity.

Lemma rule_edging_app ups :
  rule_edging property M ups = (ups ++ rule_edging property M [])%list.
Proof. rule_app. Qed.

Lemma rule_bush_trimming_app ups :
  rule_bush_trimming property M ups = (ups ++ rule_bush_trimming property M [])%list.
Proof. rule_app. Qed.

Lemma rule_mulch_install_app ups :
  rule_mulch_install property M ups = (ups ++ rule_mulch_install property M [])%list.
Proof. rule_app. Qed.

Lemma rule_bed_maintenance_app ups :
  rule_bed_maintenance property tier M ups
  = (ups ++ rule_bed_maintenance property tier M [])%list.
Proof. rule_app. Qed.

Lemma rule_leaf_cleanup_upgrade_app ups :
  rule_leaf_cleanup_upgrade property tier M ups
  = (ups ++ rule_leaf_cleanup_upgrade property tier M [])%list.
Proof. rule_app. Qed.

Lemma rule_seasonal_package_app ups :
  rule_seasonal_package property tier M ups
  = (ups ++ rule_seasonal_package property tier M [])%list.
Proof. rule_app. Qed.

Lemma rule_lights_app ups :
  rule_lights property tier M ups = (ups ++ rule_lights property tier M [])%list.
Proof. rule_app. Qed.

Ltac rule_one :=
  cbv beta delta [rule_edging rule_bush_trimming rule_mulch_install
    rule_bed_maintenance rule_leaf_cleanup_upgrade rule_seasonal_package
    rule_lights push at_most_one];
  repeat match goal with
         | |- context [if ?c then _ else _] => destruct c
         | |- context [match tier with _ => _ end] => destruct tier
         | |- context [match treeCoverage property with _ => _ end] =>
             destruct (treeCoverage property) as [[]|]
         | |- context [match Map_get ?k ?m with _ => _ end] =>
             destruct (Map_get k m)
         end;
  cbn [app]; first [now left | right; eexists; split; reflexivity].

Lemma rule_edging_one : at_most_one "EDGING" (rule_edging property M []).
Proof. rule_one. Qed.

Lemma rule_bush_trimming_one :
  at_most_one "BUSH_TRIMMING" (rule_bush_trimming property M []).
Proof. rule_one. Qed.

Lemma rule_mulch_install_one :
  at_most_one "MULCH_INSTALL" (rule_mulch_install property M []).
Proof. rule_one. Qed.

Lemma rule_bed_maintenance_one :
  at_most_one "BED_MAINTENANCE" (rule_bed_maintenance property tier M []).
Proof. rule_one. Qed.

Lemma rule_leaf_cleanup_upgrade_one :
  at_most_one "LEAF_CLEANUP_UPGRADE" (rule_leaf_cleanup_upgrade property tier M []).
Proof. rule_one. Qed.

Lemma rule_seasonal_package_one :
  at_most_one "SEASONAL_PACKAGE" (rule_seasonal_package property tier M []).
Proof. rule_one. Qed.

Lemma rule_lights_one : at_most_one "LIGHTS_INSTALL" (rule_lights property tier M []).
Proof. rule_one. Qed.

End RuleOffers.

(** The upsells of [generateUpsells] are what the seven rules offer, each
    on its own, one after the other. *)
Lemma generateUpsells_offers (w : World) (property : Property)
    (serviceType : ServiceType) (tier : TierType) (upsells : list Upsell) :
  generateUpsells w property serviceType tier = Ok upsells ->
  upsells = []
  \/ exists rows,
       rate_cards w = Some rows
       /\ let M := upsellMapOf (filter row_active rows) in
          upsells
          = (rule_edging property M []
             ++ rule_bush_trimming property M []
             ++ rule_mulch_install property M []
             ++ rule_bed_maintenance property tier M []
             ++ rule_leaf_cleanup_upgrade property tier M []
             ++ rule_seasonal_package property tier M []
             ++ rule_lights property tier M [])%list.
Proof.
  unfold generateUpsells, select_active_rate_cards.
  destruct (rate_cards w) as [rows|]; cbn [option_map].
  - intros H. injection H as <-. right. exists rows. split; trivial.
    fold (upsellMapOf (filter row_active rows)). cbv zeta.
    set (M := upsellMapOf (filter row_active rows)).
    rewrite rule_lights_app, rule_seasonal_package_app,
      rule_leaf_cleanup_upgrade_app, rule_bed_maintenance_app,
      rule_mulch_install_app, rule_bush_trimming_app.
    rewrite <- !app_assoc. reflexivity.
  - intros H. injection H as <-. now left.
Qed.

(** X5.  The upsells come in the order of the rules, each code at most
    once: their codes are the seven codes, in order, less those not
    offered. *)
Theorem generateUpsells_in_order (w : World) (property : Property)
    (serviceType : ServiceType) (tier : TierType) :
  exists upsells keep,
    generateUpsells w property serviceType tier = Ok upsells
    /\ codes upsells = filter keep upsell_order
    /\ NoDup (codes upsells).
Proof.
  destruct (generateUpsells w property serviceType tier) as [upsells|e] eqn:E.
  2:{ exfalso. unfold generateUpsells in E.
      destruct (select_active_rate_cards w); discriminate. }
  exists upsells.
  assert (H : exists keep, codes upsells = filter keep upsell_order).
  { destruct (generateUpsells_offers _ _ _ _ _ E) as [->|[rows [_ H]]].
    - exists (fun _ => false). reflexivity.
    - cbv zeta in H. set (M := upsellMapOf (filter row_active rows)) in H.
      subst upsells. unfold codes. rewrite !map_app.
      destruct (rule_edging_one property M) as [->|[u1 [-> C1]]];
      destruct (rule_bush_trimming_one property M) as [->|[u2 [-> C2]]];
      destruct (rule_mulch_install_one property M) as [->|[u3 [-> C3]]];
      destruct (rule_bed_maintenance_one property tier M) as [->|[u4 [-> C4]]];
      destruct (rule_leaf_cleanup_upgrade_one property tier M) as [->|[u5 [-> C5]]];
      destruct (rule_seasonal_package_one property tier M) as [->|[u6 [-> C6]]];
      destruct (rule_lights_one property tier M) as [->|[u7 [-> C7]]];
      cbn [map app]; rewrite ?C1, ?C2, ?C3, ?C4, ?C5, ?C6, ?C7;
      match goal with
      | |- exists keep, ?l = _ =>
          exists (fun c => existsb (String.eqb c) l); vm_compute; reflexivity
      end. }
  destruct H as [keep H]. exists keep. split; trivial. split; trivial.
  rewrite H. apply NoDup_filter.
  unfold upsell_order. repeat constructor; cbn [In]; intuition discriminate.
Qed.

Section RuleConditions.

Variable property : Property.

Variable tier : TierType.

Variable M : list (string * RateCardRow).

Ltac rule_when :=
  cbv beta delta [rule_edging rule_bush_trimming rule_mulch_install
    rule_bed_maintenance rule_leaf_cleanup_upgrade rule_seasonal_package
    rule_lights push];
  repeat match goal with
         | |- context [if ?c then _ else _] => destruct c eqn:?
         | |- context [match tier with _ => _ end] => destruct tier
         | |- context [match treeCoverage property with _ => _ end] =>
             destruct (treeCoverage property) as [[]|]
         | |- context [match Map_get ?k ?m with _ => _ end] =>
             destruct (Map_get k m) eqn:?
         end;
  cbn [app In]; intros u Hu; try contradiction;
  repeat match goal with
         | H : _ && _ = true |- _ => apply andb_true_iff in H; destruct H
         | H : negb _ = true |- _ => apply negb_true_iff in H
         | H : _ \/ False |- _ => destruct H as [H|[]]
         end;
  subst; repeat split; eauto.

Lemma rule_edging_when :
  forall u, In u (rule_edging property M []) ->
    bedCondition_is property BedCondition.good = false.
Proof. rule_when. Qed.

Lemma rule_mulch_install_when :
  forall u, In u (rule_mulch_install property M []) ->
    bedCondition_is property BedCondition.good = false
    /\ present (bedSqft property) = true
    /\ (200 <? num (bedSqft property)) = true
    /\ exists mulchCard,
         Map_get "MULCH_INSTALL" M = Some mulchCard
         /\ price u
            = Math_round (calculateMulchYardage (num (bedSqft property)) 3
                          * base_rate mulchCard).
Proof. rule_when. Qed.

Lemma rule_bush_trimming_when :
  forall u, In u (rule_bush_trimming property M []) ->
    present (bushCount property) = true.
Proof. rule_when. Qed.

Lemma rule_bed_maintenance_when :
  forall u, In u (rule_bed_maintenance property tier M []) ->
    (tier = premier \/ tier = total_landscape)
    /\ present (bedSqft property) = true.
Proof. rule_when. Qed.

Lemma rule_leaf_cleanup_upgrade_when :
  forall u, In u (rule_leaf_cleanup_upgrade property tier M []) ->
    tier = grass_roots /\ present (lawnSqft property) = true.
Proof. rule_when. Qed.

Lemma rule_seasonal_package_when :
  forall u, In u (rule_seasonal_package property tier M []) ->
    tier = grass_roots.
Proof. rule_when. Qed.

Lemma rule_lights_when :
  forall u, In u (rule_lights property tier M []) ->
    (tier = grass_roots \/ tier = premier)
    /\ present (rooflineFt property) = true.
Proof. rule_when. Qed.

(** The bed edging rule fires when the mulch rule does and the catalog has
    the EDGING card. *)
Lemma rule_edging_fires (edgingCard : RateCardRow) :
  Map_get "EDGING" M = Some edgingCard ->
  bedCondition_is property BedCondition.good = false ->
  present (bedSqft property) = true ->
  (200 <? num (bedSqft property)) = true ->
  exists u, rule_edging property M [] = [u].
Proof.
  intros Hc Hg Hp Hb. unfold rule_edging.
  rewrite Hp, Hg, Hc.
  rewrite (ltb_le_trans 0 200 (num (bedSqft property)) eq_refl Hb).
  cbn [andb negb push app]. eexists. reflexivity.
Qed.

End RuleConditions.

Lemma codes_app (a b : list Upsell) : codes (a ++ b) = (codes a ++ codes b)%list.
Proof. apply map_app. Qed.

Lemma includes_app (a b : list string) (c : string) :
  includes (a ++ b) c = includes a c || includes b c.
Proof. unfold includes. apply existsb_app. Qed.

Lemma includes_one (code : string) (offer : list Upsell) (c : string) :
  at_most_one code offer ->
  includes (codes offer) c = true -> c = code /\ exists u, offer = [u].
Proof.
  intros [->|[u [-> Hu]]]; cbn; [discriminate|].
  rewrite Hu, orb_false_r. intros H. apply String.eqb_eq in H. eauto.
Qed.

Lemma includes_other (code : string) (offer : list Upsell) (c : string) :
  at_most_one code offer -> String.eqb c code = false ->
  includes (codes offer) c = false.
Proof.
  intros [->|[u [-> Hu]]] H; cbn; [reflexivity|].
  now rewrite Hu, H.
Qed.

(** X6.  A tier is never offered what it already includes, or what is
    kept for the other tiers: Grass Roots gets no bed maintenance, Premier
    Lawn and Total Landscape no leaf cleanup upgrade and no seasonal
    package, Total Landscape no lights. *)
Theorem generateUpsells_tier_exclusions (w : World) (property : Property)
    (serviceType : ServiceType) (tier : TierType) :
  exists upsells,
    generateUpsells w property serviceType tier = Ok upsells
    /\ Forall (fun code => includes (codes upsells) code = false)
              (never_offered tier).
Proof.
  destruct (generateUpsells w property serviceType tier) as [upsells|e] eqn:E.
  2:{ exfalso. unfold generateUpsells in E.
      destruct (select_active_rate_cards w); discriminate. }
  exists upsells. split; trivial.
  destruct (generateUpsells_offers _ _ _ _ _ E) as [->|[rows [_ H]]].
  { destruct tier; repeat constructor. }
  cbv zeta in H. set (M := upsellMapOf (filter row_active rows)) in H.
  assert (Hone : forall c,
            includes (codes upsells) c = true ->
            (c = "BED_MAINTENANCE" -> tier = premier \/ tier = total_landscape)
            /\ (c = "LEAF_CLEANUP_UPGRADE" -> tier = grass_roots)
            /\ (c = "SEASONAL_PACKAGE" -> tier = grass_roots)
            /\ (c = "LIGHTS_INSTALL" -> tier = grass_roots \/ tier = premier)).
  { intros c Hc. rewrite H in Hc. rewrite !codes_app, !includes_app in Hc.
    repeat (apply orb_true_iff in Hc; destruct Hc as [Hc|Hc]).
    - destruct (includes_one _ _ _ (rule_edging_one property M) Hc) as [-> _].
      repeat split; discriminate.
    - destruct (includes_one _ _ _ (rule_bush_trimming_one property M) Hc) as [-> _].
      repeat split; discriminate.
    - destruct (includes_one _ _ _ (rule_mulch_install_one property M) Hc) as [-> _].
      repeat split; discriminate.
    - destruct (includes_one _ _ _ (rule_bed_maintenance_one property tier M) Hc)
        as [-> [u Hu]].
      repeat split; try discriminate. intros _.
      apply (rule_bed_maintenance_when property tier M u). rewrite Hu. now left.
    - destruct (includes_one _ _ _ (rule_leaf_cleanup_upgrade_one property tier M) Hc)
        as [-> [u Hu]].
      repeat split; try discriminate. intros _.
      apply (rule_leaf_cleanup_upgrade_when property tier M u). rewrite Hu. now left.
    - destruct (includes_one _ _ _ (rule_seasonal_package_one property tier M) Hc)
        as [-> [u Hu]].
      repeat split; try discriminate. intros _.
      apply (rule_seasonal_package_when property tier M u). rewrite Hu. now left.
    - destruct (includes_one _ _ _ (rule_lights_one property tier M) Hc)
        as [-> [u Hu]].
      repeat split; try discriminate. intros _.
      apply (rule_lights_when property tier M u). rewrite Hu. now left. }
  assert (Hno : forall c, includes (codes upsells) c = false
                          \/ includes (codes upsells) c = true).
  { intros c. destruct (includes (codes upsells) c); auto. }
  destruct tier; cbn [never_offered]; repeat constructor;
    match goal with
    | |- includes _ ?c = false =>
        destruct (Hno c) as [Hf|Ht]; [exact Hf|];
        destruct (Hone c Ht) as [H1 [H2 [H3 H4]]];
        try (specialize (H1 eq_refl); destruct H1; discriminate);
        try (specialize (H2 eq_refl); discriminate);
        try (specialize (H3 eq_refl); discriminate);
        try (specialize (H4 eq_refl); destruct H4; discriminate)
    end.
Qed.

(** X7.  Beds in good condition get neither edging nor mulch. *)
Theorem generateUpsells_good_beds (w : World) (property : Property)
    (serviceType : ServiceType) (tier : TierType) :
  bedCondition property = Some BedCondition.good ->
  exists upsells,
    generateUpsells w property serviceType tier = Ok upsells
    /\ includes (codes upsells) "EDGING" = false
    /\ includes (codes upsells) "MULCH_INSTALL" = false.
Proof.
  intros Hgood.
  assert (Hg : bedCondition_is property BedCondition.good = true)
    by (unfold bedCondition_is; now rewrite Hgood).
  destruct (generateUpsells w property serviceType tier) as [upsells|e] eqn:E.
  2:{ exfalso. unfold generateUpsells in E.
      destruct (select_active_rate_cards w); discriminate. }
  exists upsells. split; trivial.
  destruct (generateUpsells_offers _ _ _ _ _ E) as [->|[rows [_ H]]]; [auto|].
  cbv zeta in H. set (M := upsellMapOf (filter row_active rows)) in H.
  assert (E1 : rule_edging property M [] = []).
  { destruct (rule_edging_one property M) as [E1|[u [E1 _]]]; trivial.
    pose proof (rule_edging_when property M u) as Hw. rewrite E1 in Hw.
    specialize (Hw ltac:(now left)). congruence. }
  assert (E3 : rule_mulch_install property M [] = []).
  { destruct (rule_mulch_install_one property M) as [E3|[u [E3 _]]]; trivial.
    pose proof (rule_mulch_install_when property M u) as Hw. rewrite E3 in Hw.
    destruct (Hw ltac:(now left)) as [Hw' _]. congruence. }
  rewrite H, E1, E3. rewrite !codes_app, !includes_app. cbn [codes map includes existsb orb].
  split.
  - rewrite (includes_other _ _ "EDGING" (rule_bush_trimming_one property M) eq_refl),
      (includes_other _ _ "EDGING" (rule_bed_maintenance_one property tier M) eq_refl),
      (includes_other _ _ "EDGING" (rule_leaf_cleanup_upgrade_one property tier M) eq_refl),
      (includes_other _ _ "EDGING" (rule_seasonal_package_one property tier M) eq_refl),
      (includes_other _ _ "EDGING" (rule_lights_one property tier M) eq_refl).
    reflexivity.
  - rewrite (includes_other _ _ "MULCH_INSTALL" (rule_bush_trimming_one property M) eq_refl),
      (includes_other _ _ "MULCH_INSTALL" (rule_bed_maintenance_one property tier M) eq_refl),
      (includes_other _ _ "MULCH_INSTALL"
         (rule_leaf_cleanup_upgrade_one property tier M) eq_refl),
      (includes_other _ _ "MULCH_INSTALL" (rule_seasonal_package_one property tier M) eq_refl),
      (includes_other _ _ "MULCH_INSTALL" (rule_lights_one property tier M) eq_refl).
    reflexivity.
Qed.

Lemma generateUpsells_good_beds_witness :
  exists upsells,
    generateUpsells seed_world tidy_property mowing premier = Ok upsells
    /\ includes (codes upsells) "EDGING" = false
    /\ includes (codes upsells) "MULCH_INSTALL" = false.
Proof.
  apply (generateUpsells_good_beds seed_world tidy_property mowing premier).
  reflexivity.
Defined.

(** X8.  Whenever fresh mulch is offered and the catalog has an active
    EDGING card, bed edging is offered too: beds of more than 200 sq ft
    are beds of more than 0. *)
Theorem generateUpsells_mulch_with_edging (w : World) (property : Property)
    (serviceType : ServiceType) (tier : TierType) (rows : list RateCardRow)
    (upsells : list Upsell) :
  rate_cards w = Some rows ->
  has_active "EDGING" rows ->
  generateUpsells w property serviceType tier = Ok upsells ->
  includes (codes upsells) "MULCH_INSTALL" = true ->
  includes (codes upsells) "EDGING" = true.
Proof.
  intros Hrows Hedge E Hm.
  destruct (generateUpsells_offers _ _ _ _ _ E) as [->|[rows' [Hr' H]]];
    [discriminate|].
  rewrite Hrows in Hr'. injection Hr' as <-.
  cbv zeta in H. set (M := upsellMapOf (filter row_active rows)) in H.
  destruct (upsell_card_present rows "EDGING" Hedge) as [edgingCard Hc].
  fold M in Hc.
  rewrite H in Hm. rewrite !codes_app, !includes_app in Hm.
  rewrite (includes_other _ _ "MULCH_INSTALL" (rule_edging_one property M) eq_refl),
    (includes_other _ _ "MULCH_INSTALL" (rule_bush_trimming_one property M) eq_refl),
    (includes_other _ _ "MULCH_INSTALL" (rule_bed_maintenance_one property tier M) eq_refl),
    (includes_other _ _ "MULCH_INSTALL"
       (rule_leaf_cleanup_upgrade_one property tier M) eq_refl),
    (includes_other _ _ "MULCH_INSTALL" (rule_seasonal_package_one property tier M) eq_refl),
    (includes_other _ _ "MULCH_INSTALL" (rule_lights_one property tier M) eq_refl) in Hm.
  cbn [orb] in Hm. rewrite orb_false_r in Hm.
  destruct (includes_one _ _ _ (rule_mulch_install_one property M) Hm) as [_ [u Hu]].
  pose proof (rule_mulch_install_when property M u) as Hw. rewrite Hu in Hw.
  destruct (Hw ltac:(now left)) as [Hg [Hp [Hb _]]].
  destruct (rule_edging_fires property M edgingCard Hc Hg Hp Hb) as [v Hv].
  rewrite H, codes_app, includes_app, Hv.
  destruct (rule_edging_one property M) as [E0|[v' [E1 Hv']]]; [congruence|].
  rewrite Hv in E1. injection E1 as ->.
  cbn. now rewrite Hv'.
Qed.

Lemma generateUpsells_mulch_with_edging_witness :
  exists upsells,
    generateUpsells seed_world scenario_property mowing premier = Ok upsells
    /\ includes (codes upsells) "EDGING" = true.
Proof.
  eexists. split; [reflexivity|].
  apply (generateUpsells_mulch_with_edging seed_world scenario_property mowing
           premier seed_rate_cards).
  - reflexivity.
  - apply has_activeb_spec. vm_compute. reflexivity.
  - reflexivity.
  - vm_compute. reflexivity.
Defined.

(** X9.  A property without bed, bush, lawn and roofline measurements
    (absent, or zero) is offered nothing, but for the seasonal package on
    the Grass Roots tier. *)
Theorem generateUpsells_without_measurements (w : World) (property : Property)
    (serviceType : ServiceType) (tier : TierType) :
  present (bedSqft property) = false ->
  present (bushCount property) = false ->
  present (lawnSqft property) = false ->
  present (rooflineFt property) = false ->
  exists upsells,
    generateUpsells w property serviceType tier = Ok upsells
    /\ (upsells = []
        \/ tier = grass_roots /\ codes upsells = ["SEASONAL_PACKAGE"]).
Proof.
  intros Hbed Hbush Hlawn Hroof.
  destruct (generateUpsells w property serviceType tier) as [upsells|e] eqn:E.
  2:{ exfalso. unfold generateUpsells in E.
      destruct (select_active_rate_cards w); discriminate. }
  exists upsells. split; trivial.
  destruct (generateUpsells_offers _ _ _ _ _ E) as [->|[rows [_ H]]]; [auto|].
  cbv zeta in H. set (M := upsellMapOf (filter row_active rows)) in H.
  assert (E1 : rule_edging property M [] = [])
    by (unfold rule_edging; now rewrite Hbed).
  assert (E2 : rule_bush_trimming property M [] = [])
    by (unfold rule_bush_trimming; now rewrite Hbush).
  assert (E3 : rule_mulch_install property M [] = [])
    by (unfold rule_mulch_install; now rewrite Hbed).
  assert (E4 : rule_bed_maintenance property tier M [] = []).
  { unfold rule_bed_maintenance. rewrite Hbed.
    destruct tier; trivial; now destruct (Map_get _ _). }
  assert (E5 : rule_leaf_cleanup_upgrade property tier M [] = []).
  { unfold rule_leaf_cleanup_upgrade. rewrite Hlawn.
    destruct tier; trivial; destruct (treeCoverage property) as [[]|]; trivial;
      now destruct (Map_get _ _). }
  assert (E7 : rule_lights property tier M [] = []).
  { unfold rule_lights. rewrite Hroof. now destruct tier. }
  rewrite E1, E2, E3, E4, E5, E7 in H. cbn [app] in H. rewrite app_nil_r in H.
  destruct (rule_seasonal_package_one property tier M) as [E6|[u [E6 Hu]]].
  - left. congruence.
  - right. split.
    + apply (rule_seasonal_package_when property tier M u). rewrite E6. now left.
    + rewrite H, E6. cbn. now rewrite Hu.
Qed.

Lemma generateUpsells_without_measurements_witness :
  exists upsells,
    generateUpsells seed_world blank_property mowing grass_roots = Ok upsells
    /\ (upsells = []
        \/ grass_roots = grass_roots /\ codes upsells = ["SEASONAL_PACKAGE"]).
Proof.
  apply (generateUpsells_without_measurements seed_world blank_property mowing
           grass_roots); reflexivity.
Defined.

(** ** The materials list *)

(** X10.  The materials depend on the selected upsells only through which
    of the four codes with materials are among them: order, repetitions
    and other codes are of no effect.  And no item is listed twice, mulch
    being listed once when the service is mulch and MULCH_INSTALL is
    selected as well. *)
Theorem generateMaterialsList_selection (property : Property)
    (serviceType : ServiceType) (selectedUpsells selectedUpsells' : list string) :
  Forall (fun code => includes selectedUpsells code = includes selectedUpsells' code)
         material_codes ->
  generateMaterialsList property serviceType selectedUpsells
  = generateMaterialsList property serviceType selectedUpsells'
  /\ NoDup (map item (generateMaterialsList property serviceType selectedUpsells)).
Proof.
  intros H. unfold material_codes in H.
  repeat match goal with
         | H : Forall _ (_ :: _) |- _ =>
             let E := fresh "E" in
             apply Forall_cons_iff in H; destruct H as [E H]
         end.
  unfold generateMaterialsList. rewrite E, E0, E1, E2.
  split; [reflexivity|].
  destruct serviceType;
    destruct (includes selectedUpsells' "MULCH_INSTALL");
    destruct (includes selectedUpsells' "BUSH_TRIMMING");
    destruct (includes selectedUpsells' "SEASONAL_PACKAGE");
    destruct (includes selectedUpsells' "LIGHTS_INSTALL");
    cbn [orb push_items app map item];
    repeat constructor; cbn [In]; intuition discriminate.
Qed.

Lemma generateMaterialsList_selection_witness :
  generateMaterialsList scenario_property mulch
    ["MULCH_INSTALL"; "GUTTERS"; "MULCH_INSTALL"]
  = generateMaterialsList scenario_property mulch ["MULCH_INSTALL"]
  /\ NoDup (map item (generateMaterialsList scenario_property mulch
                        ["MULCH_INSTALL"; "GUTTERS"; "MULCH_INSTALL"])).
Proof.
  apply (generateMaterialsList_selection scenario_property mulch
           ["MULCH_INSTALL"; "GUTTERS"; "MULCH_INSTALL"] ["MULCH_INSTALL"]).
  repeat constructor.
Defined.

Lemma In_offer_code (code : string) (offer : list Upsell) (u : Upsell) :
  at_most_one code offer -> In u offer -> u_serviceCode u = code.
Proof.
  intros [->|[v [-> Hv]]]; cbn [In]; [contradiction|].
  intros [<-|[]]. exact Hv.
Qed.

Lemma present_or_else (x : option number) (d : number) :
  present x = true -> or_else x d = num x.
Proof.
  destruct x as [v|]; cbn [present or_else num]; [|discriminate].
  now intros ->.
Qed.

(** X11.  The mulch on the materials list is the mulch the upsell is
    priced for: when MULCH_INSTALL is offered, and then selected, the list
    has the cubic yards of Premium Hardwood Mulch whose product with the
    rate of an active MULCH_INSTALL card, rounded, is the upsell's price. *)
Theorem mulch_materials_match_upsell (w : World) (property : Property)
    (serviceType serviceType' : ServiceType) (tier : TierType)
    (upsells : list Upsell) (u : Upsell) (selectedUpsells : list string) :
  generateUpsells w property serviceType tier = Ok upsells ->
  In u upsells -> u_serviceCode u = "MULCH_INSTALL" ->
  includes selectedUpsells "MULCH_INSTALL" = true ->
  exists cubicYards rows mulchCard,
    In {| item := "Premium Hardwood Mulch"; quantity := cubicYards;
          unit := "cubic yards" |}
       (generateMaterialsList property serviceType' selectedUpsells)
    /\ rate_cards w = Some rows
    /\ In mulchCard rows /\ row_active mulchCard = true
    /\ service_code mulchCard = "MULCH_INSTALL"
    /\ price u = Math_round (cubicYards * base_rate mulchCard).
Proof.
  intros E Hin Hcode Hsel.
  destruct (generateUpsells_offers _ _ _ _ _ E) as [->|[rows [Hrows H]]];
    [contradiction|].
  cbv zeta in H. set (M := upsellMapOf (filter row_active rows)) in H.
  rewrite H in Hin.
  assert (Hu : In u (rule_mulch_install property M [])).
  { repeat (apply in_app_or in Hin; destruct Hin as [Hin|Hin]); trivial.
    - pose proof (In_offer_code _ _ _ (rule_edging_one property M) Hin). congruence.
    - pose proof (In_offer_code _ _ _ (rule_bush_trimming_one property M) Hin).
      congruence.
    - pose proof (In_offer_code _ _ _ (rule_bed_maintenance_one property tier M) Hin).
      congruence.
    - pose proof (In_offer_code _ _ _
                    (rule_leaf_cleanup_upgrade_one property tier M) Hin).
      congruence.
    - pose proof (In_offer_code _ _ _ (rule_seasonal_package_one property tier M) Hin).
      congruence.
    - pose proof (In_offer_code _ _ _ (rule_lights_one property tier M) Hin).
      congruence. }
  destruct (rule_mulch_install_when property M u Hu)
    as [_ [Hp [_ [mulchCard [Hc Hprice]]]]].
  exists (calculateMulchYardage (num (bedSqft property)) 3), rows, mulchCard.
  split.
  - unfold generateMaterialsList. rewrite Hsel, orb_true_r.
    rewrite (present_or_else _ 500 Hp).
    destruct serviceType';
      destruct (includes selectedUpsells "BUSH_TRIMMING");
      destruct (includes selectedUpsells "SEASONAL_PACKAGE");
      destruct (includes selectedUpsells "LIGHTS_INSTALL");
      cbn [push_items app In]; auto 10.
  - split; trivial.
    apply Map_get_In in Hc. unfold M, upsellMapOf in Hc.
    apply in_map_iff in Hc. destruct Hc as [r [Hr Hin']].
    injection Hr as Hk ->. apply filter_In in Hin'. destruct Hin' as [Hin' Ha].
    auto.
Qed.

Lemma mulch_materials_match_upsell_witness :
  exists cubicYards rows mulchCard,
    In {| item := "Premium Hardwood Mulch"; quantity := cubicYards;
          unit := "cubic yards" |}
       (generateMaterialsList scenario_property mowing ["MULCH_INSTALL"])
    /\ rate_cards seed_world = Some rows
    /\ In mulchCard rows /\ row_active mulchCard = true
    /\ service_code mulchCard = "MULCH_INSTALL"
    /\ price {| u_serviceCode := "MULCH_INSTALL";
                u_serviceName := "Fresh Mulch Installation";
                price := 570; recommended := true |}
       = Math_round (cubicYards * base_rate mulchCard).
Proof.
  eapply (mulch_materials_match_upsell seed_world scenario_property mowing mowing
            premier).
  - reflexivity.
  - vm_compute. right. right. left. reflexivity.
  - reflexivity.
  - reflexivity.
Defined.

(** ** Aggregating four angles *)

(** X12.  With the repository's [analyzePropertyCondition], which catches
    whatever the vision call throws and answers the default condition,
    [analyzePropertyMultiAngle] never throws: its [AppError] 500 cannot
    occur.  All four headings are aggregated, a failed one as the default
    condition, and when the vision call fails for all four the aggregate is
    the default condition. *)
Theorem analyzePropertyMultiAngle_never_throws
    (vision : number -> number -> number -> result PropertyCondition.t)
    (lat lng : number) :
  exists aggregated,
    analyzePropertyMultiAngle (analyzePropertyCondition vision) lat lng
    = Ok aggregated
    /\ List.length (angle_analyses (analyzePropertyCondition vision) lat lng) = 4%nat
    /\ (Forall (fun heading => exists e, vision lat lng heading = Throw e) headings ->
        aggregated = default_condition).
Proof.
  unfold analyzePropertyMultiAngle, angle_analyses, analyzePropertyCondition, headings.
  cbn [map].
  destruct (vision lat lng 0) as [a0|e0] eqn:E0;
    destruct (vision lat lng 90) as [a1|e1] eqn:E1;
    destruct (vision lat lng 180) as [a2|e2] eqn:E2;
    destruct (vision lat lng 270) as [a3|e3] eqn:E3;
    cbn [fulfilled flat_map app];
    (eexists; split; [reflexivity|split; [reflexivity|]]);
    intros H;
    repeat match goal with
           | H : Forall _ (_ :: _) |- _ => apply Forall_cons_iff in H; destruct H as [[? ?] H]
           end;
    try congruence.
  vm_compute. reflexivity.
Qed.

Lemma analyzePropertyMultiAngle_never_throws_witness :
  analyzePropertyMultiAngle (analyzePropertyCondition failing_vision) 39.2 (-84.6)
  = Ok default_condition.
Proof.
  destruct (analyzePropertyMultiAngle_never_throws failing_vision 39.2 (-84.6))
    as [aggregated [H [_ Hall]]].
  rewrite H. f_equal. apply Hall.
  repeat constructor; eexists; reflexivity.
Defined.

Lemma list_max_cons (n : nat) (l : list nat) :
  list_max (n :: l) = Nat.max n (list_max l).
Proof. reflexivity. Qed.

Section Worst.

Context {A B : Type}.

Variable field : A -> option B.

Variable eqb : B -> B -> bool.

Variable rank : option B -> nat.

Variables top mid low : B.

Hypothesis eqb_top : forall x, eqb x top = true <-> rank (Some x) = 2%nat.

Hypothesis eqb_mid : forall x, eqb x mid = true <-> rank (Some x) = 1%nat.

Hypothesis rank_bound : forall o, (rank o <= 2)%nat.

Hypothesis rank_top : rank (Some top) = 2%nat.

Hypothesis rank_mid : rank (Some mid) = 1%nat.

Hypothesis rank_low : rank (Some low) = 0%nat.

Hypothesis rank_none : rank None = 0%nat.

Lemma find_field_some (v : B) (n : nat) (analyses : list A) :
  (forall x, eqb x v = true <-> rank (Some x) = n) -> (0 < n)%nat ->
  (exists x, find_field field eqb v analyses = Some x /\ rank (Some x) = n
             /\ (n <= list_max (map (fun a => rank (field a)) analyses))%nat)
  \/ (find_field field eqb v analyses = None
      /\ Forall (fun a => rank (field a) <> n) analyses).
Proof.
  intros Hv Hn. unfold find_field. induction analyses as [|a rest IH]; cbn [find].
  - right. split; trivial.
  - rewrite map_cons, list_max_cons.
    destruct (field a) as [x|] eqn:E.
    + destruct (eqb x v) eqn:Ex.
      * left. exists x. split; trivial.
        apply Hv in Ex. split; trivial. lia.
      * destruct IH as [[y [H1 [H2 H3]]]|[H1 H2]].
        -- left. exists y. split; trivial. split; trivial. lia.
        -- right. split; trivial. constructor; trivial.
           rewrite E. intros Hr. apply Hv in Hr. congruence.
    + destruct IH as [[y [H1 [H2 H3]]]|[H1 H2]].
      * left. exists y. split; trivial. split; trivial. lia.
      * right. split; trivial. constructor; trivial. rewrite E, rank_none. lia.
Qed.

Lemma list_max_le2 (analyses : list A) :
  (list_max (map (fun a => rank (field a)) analyses) <= 2)%nat.
Proof.
  apply list_max_le. apply Forall_forall. intros n Hn.
  apply in_map_iff in Hn. destruct Hn as [a [<- _]]. apply rank_bound.
Qed.

Lemma list_max_reached (analyses : list A) (n : nat) :
  list_max (map (fun a => rank (field a)) analyses) = n -> (0 < n)%nat ->
  Exists (fun a => rank (field a) = n) analyses.
Proof.
  induction analyses as [|a rest IH]; [cbn; lia|].
  rewrite map_cons, list_max_cons.
  intros H Hn. destruct (Nat.max_spec (rank (field a))
                           (list_max (map (fun a => rank (field a)) rest)))
    as [[Hlt Hm]|[Hle Hm]]; rewrite Hm in H.
  - apply Exists_cons_tl. now apply IH.
  - now apply Exists_cons_hd.
Qed.

Lemma worst_reading (analyses : list A) :
  rank (Some (or_default (find_field field eqb top analyses)
                (or_default (find_field field eqb mid analyses) low)))
  = list_max (map (fun a => rank (field a)) analyses).
Proof.
  pose proof (list_max_le2 analyses) as Hle.
  destruct (find_field_some top 2 analyses eqb_top ltac:(lia))
    as [[x [-> [Hx Hm]]]|[-> Hnone]]; cbn [or_default].
  - lia.
  - destruct (find_field_some mid 1 analyses eqb_mid ltac:(lia))
      as [[x [-> [Hx Hm]]]|[-> Hnone1]]; cbn [or_default].
    + rewrite Hx.
      destruct (Nat.eq_dec (list_max (map (fun a => rank (field a)) analyses)) 2)
        as [E|NE]; [|lia].
      apply list_max_reached in E; [|lia]. apply Exists_exists in E.
      destruct E as [a [Hin Ha]]. rewrite Forall_forall in Hnone.
      now apply Hnone in Hin.
    + rewrite rank_low.
      destruct (list_max (map (fun a => rank (field a)) analyses)) as [|[|[|n]]] eqn:E;
        trivial; try lia.
      * apply list_max_reached in E; [|lia]. apply Exists_exists in E.
        destruct E as [a [Hin Ha]]. rewrite Forall_forall in Hnone1.
        now apply Hnone1 in Hin.
      * apply list_max_reached in E; [|lia]. apply Exists_exists in E.
        destruct E as [a [Hin Ha]]. rewrite Forall_forall in Hnone.
        now apply Hnone in Hin.
Qed.

End Worst.

(** X13.  Each graded reading of the aggregate is the most severe one
    among the angles that were analysed, an absent reading counting as the
    mildest: one angle with overgrown beds makes the beds overgrown. *)
Theorem analyzePropertyMultiAngle_worst_reading
    (analyzePropertyCondition : number -> number -> number -> result PropertyCondition.t)
    (lat lng : number) (aggregated : PropertyCondition.t) :
  analyzePropertyMultiAngle analyzePropertyCondition lat lng = Ok aggregated ->
  let analyses := angle_analyses analyzePropertyCondition lat lng in
  grass_rank (PropertyCondition.grassHeight aggregated)
  = list_max (map (fun a => grass_rank (PropertyCondition.grassHeight a)) analyses)
  /\ level_rank (PropertyCondition.treeCoverage aggregated)
     = list_max (map (fun a => level_rank (PropertyCondition.treeCoverage a)) analyses)
  /\ amount_rank (PropertyCondition.debrisLevel aggregated)
     = list_max (map (fun a => amount_rank (PropertyCondition.debrisLevel a)) analyses)
  /\ amount_rank (PropertyCondition.leafVolume aggregated)
     = list_max (map (fun a => amount_rank (PropertyCondition.leafVolume a)) analyses)
  /\ bed_rank (PropertyCondition.bedCondition aggregated)
     = list_max (map (fun a => bed_rank (PropertyCondition.bedCondition a)) analyses).
Proof.
  unfold analyzePropertyMultiAngle, angle_analyses.
  destruct (fulfilled (map (analyzePropertyCondition lat lng) headings))
    as [|a0 rest]; [discriminate|].
  set (analyses := a0 :: rest). intros H. injection H as <-. cbv zeta.
  cbn [PropertyCondition.grassHeight PropertyCondition.treeCoverage
       PropertyCondition.debrisLevel PropertyCondition.leafVolume
       PropertyCondition.bedCondition].
  repeat split.
  - apply worst_reading; try reflexivity.
    + intros [ | | ]; cbn; split; congruence.
    + intros [ | | ]; cbn; split; congruence.
    + intros [[ | | ]|]; cbn; lia.
  - apply worst_reading; try reflexivity.
    + intros [ | | ]; cbn; split; congruence.
    + intros [ | | ]; cbn; split; congruence.
    + intros [[ | | ]|]; cbn; lia.
  - apply worst_reading; try reflexivity.
    + intros [ | | ]; cbn; split; congruence.
    + intros [ | | ]; cbn; split; congruence.
    + intros [[ | | ]|]; cbn; lia.
  - apply worst_reading; try reflexivity.
    + intros [ | | ]; cbn; split; congruence.
    + intros [ | | ]; cbn; split; congruence.
    + intros [[ | | ]|]; cbn; lia.
  - apply worst_reading; try reflexivity.
    + intros [ | | ]; cbn; split; congruence.
    + intros [ | | ]; cbn; split; congruence.
    + intros [[ | | ]|]; cbn; lia.
Qed.

Lemma analyzePropertyMultiAngle_worst_reading_witness :
  exists aggregated,
    analyzePropertyMultiAngle sample_analysis 39.2 (-84.6) = Ok aggregated
    /\ let analyses := angle_analyses sample_analysis 39.2 (-84.6) in
       grass_rank (PropertyCondition.grassHeight aggregated)
       = list_max (map (fun a => grass_rank (PropertyCondition.grassHeight a)) analyses)
       /\ level_rank (PropertyCondition.treeCoverage aggregated)
          = list_max (map (fun a => level_rank (PropertyCondition.treeCoverage a))
                          analyses)
       /\ amount_rank (PropertyCondition.debrisLevel aggregated)
          = list_max (map (fun a => amount_rank (PropertyCondition.debrisLevel a))
                          analyses)
       /\ amount_rank (PropertyCondition.leafVolume aggregated)
          = list_max (map (fun a => amount_rank (PropertyCondition.leafVolume a))
                          analyses)
       /\ bed_rank (PropertyCondition.bedCondition aggregated)
          = list_max (map (fun a => bed_rank (PropertyCondition.bedCondition a))
                          analyses).
Proof.
  eexists. split; [reflexivity|].
  apply (analyzePropertyMultiAngle_worst_reading sample_analysis 39.2 (-84.6)).
  reflexivity.
Defined.

(** ** The highest score *)

Lemma nn_not_nan (v : float) : nn v -> is_nan v = false.
Proof.
  unfold nn, is_nan. rewrite eqb_spec. unfold SFeqb.
  pose proof (Prim2SF_valid v) as V.
  destruct (Prim2SF v) as [s|[]| |[] m e]; try discriminate; intros _; cbn; trivial.
  rewrite Z.compare_refl, Pos.compare_cont_refl. reflexivity.
Qed.

Lemma neg_infinity_ltb (v : float) : nn v -> (neg_infinity <? v) = true.
Proof.
  unfold nn. rewrite ltb_spec. change (Prim2SF neg_infinity) with (S754_infinity true).
  destruct (Prim2SF v) as [s|[]| |[] m e]; try discriminate; reflexivity.
Qed.

Lemma neg_infinity_leb (v : float) : nn v -> (neg_infinity <=? v) = true.
Proof.
  unfold nn. rewrite leb_spec. change (Prim2SF neg_infinity) with (S754_infinity true).
  destruct (Prim2SF v) as [s|[]| |[] m e]; try discriminate; reflexivity.
Qed.

Lemma leb_refl_nn (v : float) : nn v -> (v <=? v) = true.
Proof. intros H. apply leb_fval; trivial. lia. Qed.

Lemma ltb_leb_nn (a b : float) : nn a -> nn b -> (a <? b) = true -> (a <=? b) = true.
Proof.
  intros Na Nb H. apply leb_fval; trivial. apply (ltb_fval a b Na Nb) in H. lia.
Qed.

Lemma not_ltb_leb_nn (a b : float) :
  nn a -> nn b -> (a <? b) = false -> (b <=? a) = true.
Proof.
  intros Na Nb H. apply leb_fval; trivial.
  destruct (Z.lt_ge_cases (fval a) (fval b)) as [L|G]; [|lia].
  apply (ltb_fval a b Na Nb) in L. congruence.
Qed.

Lemma eqb_zero_nn (a b : float) :
  Leibniz.eqb a zero = true -> Leibniz.eqb b neg_zero = true ->
  nn a /\ nn b /\ (b <=? a) = true.
Proof.
  intros Ha Hb. apply Leibniz.eqb_spec in Ha. apply Leibniz.eqb_spec in Hb.
  subst. repeat split.
Qed.

(** [max_from] on non-negative numbers, from a non-negative start or from
    [-Infinity]: the result is the start or one of the values, and none is
    above it. *)
Lemma max_from_spec (values : list number) :
  Forall nn values ->
  forall highest, nn highest \/ highest = neg_infinity ->
    let m := max_from highest values in
    (m = highest \/ In m values)
    /\ (highest <=? m) = true
    /\ Forall (fun v => (v <=? m) = true) values.
Proof.
  induction 1 as [|v rest Nv Hrest IH]; intros highest Hh; cbn [max_from].
  - split; [now left|]. split; [|constructor].
    destruct Hh as [Hh| ->]; [now apply leb_refl_nn|reflexivity].
  - rewrite (nn_not_nan v Nv).
    assert (Step : forall h', nn h' -> (highest <=? h') = true -> (v <=? h') = true ->
              (h' = highest \/ h' = v) ->
              let m := max_from h' rest in
              (m = highest \/ In m (v :: rest))
              /\ (highest <=? m) = true
              /\ Forall (fun x => (x <=? m) = true) (v :: rest)).
    { intros h' Nh' Hle Hv Hor. destruct (IH h' (or_introl Nh')) as [H1 [H2 H3]].
      cbv zeta. split; [|split].
      - destruct H1 as [H1|H1]; [|right; now right].
        rewrite H1. destruct Hor as [->| ->]; [now left|right; now left].
      - apply (leb_trans _ _ _ Hle H2).
      - constructor; trivial. apply (leb_trans _ _ _ Hv H2). }
    destruct (Leibniz.eqb v zero && Leibniz.eqb highest neg_zero) eqn:Ez.
    + apply andb_true_iff in Ez. destruct Ez as [E1 E2].
      destruct (eqb_zero_nn v highest E1 E2) as [_ [_ Hle]].
      apply Step; auto. now apply leb_refl_nn.
    + destruct (highest <? v) eqn:El.
      * apply Step; auto; [|now apply leb_refl_nn].
        destruct Hh as [Hh| ->]; [now apply ltb_leb_nn|now apply neg_infinity_leb].
      * destruct Hh as [Hh| ->].
        -- apply Step; auto; [now apply leb_refl_nn|now apply not_ltb_leb_nn].
        -- rewrite (neg_infinity_ltb v Nv) in El. discriminate.
Qed.

Lemma Math_max_spec (values : list number) :
  Forall nn values -> values <> [] ->
  In (Math_max values) values
  /\ Forall (fun v => (v <=? Math_max values) = true) values.
Proof.
  intros Hn Hne. unfold Math_max.
  destruct (max_from_spec values Hn neg_infinity (or_intror eq_refl)) as [H1 [_ H3]].
  cbv zeta in H1, H3. split; trivial.
  destruct H1 as [H1|H1]; trivial. exfalso.
  destruct values as [|v rest]; [congruence|].
  inversion H3 as [|? ? Hle _]. inversion Hn as [|? ? Nv _].
  rewrite H1 in Hle. revert Hle Nv. unfold nn. rewrite leb_spec.
  change (Prim2SF neg_infinity) with (S754_infinity true).
  destruct (Prim2SF v) as [sv|[]| |[] m e]; cbn; congruence.
Qed.

(** X14.  When no score is negative or not a number, the score of the
    aggregate is the highest of the scores of the angles analysed, a
    missing (or zero) score counting as 3: it is one of them and none of
    them is above it. *)
Theorem analyzePropertyMultiAngle_highest_score
    (analyzePropertyCondition : number -> number -> number -> result PropertyCondition.t)
    (lat lng : number) (aggregated : PropertyCondition.t) :
  analyzePropertyMultiAngle analyzePropertyCondition lat lng = Ok aggregated ->
  let scores := angle_scores (angle_analyses analyzePropertyCondition lat lng) in
  Forall (fun score => (0 <=? score) = true) scores ->
  exists highest,
    PropertyCondition.conditionScore aggregated = Some highest
    /\ In highest scores
    /\ Forall (fun score => (score <=? highest) = true) scores.
Proof.
  unfold analyzePropertyMultiAngle, angle_analyses, angle_scores.
  destruct (fulfilled (map (analyzePropertyCondition lat lng) headings))
    as [|a0 rest]; [discriminate|].
  set (analyses := a0 :: rest). intros H. injection H as <-.
  cbv zeta. intros Hnn. cbn [PropertyCondition.conditionScore].
  eexists. split; [reflexivity|].
  set (scores := map (fun a => or_else (PropertyCondition.conditionScore a) 3) analyses)
    in *.
  assert (Hn : Forall nn scores).
  { apply Forall_forall. intros s Hs. apply nn_leb.
    rewrite Forall_forall in Hnn. now apply Hnn. }
  destruct (Math_max_spec scores Hn) as [H1 H3]; [discriminate|].
  auto.
Qed.

Lemma analyzePropertyMultiAngle_highest_score_witness :
  exists highest,
    Some 4 = Some highest
    /\ In highest (angle_scores (angle_analyses sample_analysis 39.2 (-84.6)))
    /\ Forall (fun score => (score <=? highest) = true)
              (angle_scores (angle_analyses sample_analysis 39.2 (-84.6))).
Proof.
  apply (analyzePropertyMultiAngle_highest_score sample_analysis 39.2 (-84.6)
           {| PropertyCondition.conditionScore := Some 4;
              PropertyCondition.grassHeight := Some GrassHeight.overgrown;
              PropertyCondition.bushCount := Some 6;
              PropertyCondition.treeCoverage := Some Level.moderate;
              PropertyCondition.debrisLevel := Some Amount.moderate;
              PropertyCondition.leafVolume := Some Amount.minimal;
              PropertyCondition.bedCondition := Some BedCondition.overgrown |}).
  - vm_compute. reflexivity.
  - vm_compute. repeat constructor.
Defined.

(** ** Half units *)

Lemma moderate_div (x c : number) :
  moderate x -> nn c -> (2 ^ scale <= fval c < top)%Z -> moderate (x / c).
Proof.
  intros M Nc Fc. pose proof M as [_ M1].
  destruct (moderate_fval x M) as [Nx _].
  destruct (div_le_self x c Nx Nc Fc) as [Nd Hd].
  assert (N : nn 1099511627776) by (vm_compute; reflexivity).
  split; [now apply nn_leb|].
  apply leb_fval; trivial. apply (leb_fval x _ Nx N) in M1. lia.
Qed.

(** X15.  [calculateMulchYardage] rounds up to the next half yard: for a
    product [bedSqft * depthInches] between zero and [2^40], twice the result
    is a whole number, the result is not below the cubic yards
    [bedSqft * depthInches / 324] and at most half a yard above them. *)
Theorem calculateMulchYardage_rounds_up (bedSqft depthInches : number) :
  moderate (bedSqft * depthInches) ->
  exists k : Z,
    whole (calculateMulchYardage bedSqft depthInches * 2) k
    /\ (bedSqft * depthInches / 324 <=? calculateMulchYardage bedSqft depthInches)
       = true
    /\ (calculateMulchYardage bedSqft depthInches
        <=? bedSqft * depthInches / 324 + 0.5) = true.
Proof.
  intros M. unfold calculateMulchYardage. apply half_ceiling.
  apply moderate_div; trivial.
  - vm_compute; reflexivity.
  - split; [apply Z.leb_le|apply Z.ltb_lt]; vm_compute; reflexivity.
Qed.

Lemma calculateMulchYardage_rounds_up_witness :
  exists k : Z,
    whole (calculateMulchYardage 600 3 * 2) k
    /\ (600 * 3 / 324 <=? calculateMulchYardage 600 3) = true
    /\ (calculateMulchYardage 600 3 <=? 600 * 3 / 324 + 0.5) = true.
Proof.
  apply (calculateMulchYardage_rounds_up 600 3). split; vm_compute; reflexivity.
Defined.

(** X16.  [estimateLaborHours] rounds up to the next half hour: when the
    hours before rounding are between zero and [2^40], twice the estimate is
    a whole number, the estimate is not below those hours and at most half
    an hour above them. *)
Theorem estimateLaborHours_rounds_up (serviceType : ServiceType)
    (lawnSqft complexityScore : number) :
  moderate (laborHours serviceType lawnSqft complexityScore) ->
  exists k : Z,
    whole (estimateLaborHours serviceType lawnSqft complexityScore * 2) k
    /\ (laborHours serviceType lawnSqft complexityScore
        <=? estimateLaborHours serviceType lawnSqft complexityScore) = true
    /\ (estimateLaborHours serviceType lawnSqft complexityScore
        <=? laborHours serviceType lawnSqft complexityScore + 0.5) = true.
Proof.
  intros M. unfold estimateLaborHours. now apply half_ceiling.
Qed.

Lemma estimateLaborHours_rounds_up_witness :
  exists k : Z,
    whole (estimateLaborHours mowing 10000 4 * 2) k
    /\ (laborHours mowing 10000 4 <=? estimateLaborHours mowing 10000 4) = true
    /\ (estimateLaborHours mowing 10000 4 <=? laborHours mowing 10000 4 + 0.5)
       = true.
Proof.
  apply (estimateLaborHours_rounds_up mowing 10000 4). split; vm_compute; reflexivity.
Defined.

(** ** Larger lawns *)

(** Multiplication by a finite number that is not negative is monotone on
    finite numbers, by a positive one on all numbers. *)
Lemma mul_mono_finite (x y c : float) :
  nn x -> nn y -> nn c -> (fval x <= fval y)%Z -> (fval y < top)%Z ->
  (fval c < top)%Z ->
  (fval (x * c) <= fval (y * c))%Z.
Proof.
  intros Hx Hy Hc Hxy Fy Fc.
  destruct (mul_fval x c Hx Hc ltac:(lia) Fc) as [_ ->].
  destruct (mul_fval y c Hy Hc Fy Fc) as [_ ->].
  pose proof (fval_nonneg x). pose proof (fval_nonneg c).
  pose proof (pow2_pos scale ltac:(unfold scale; lia)).
  apply rnd_mono.
  - apply Z.div_pos; [nia|lia].
  - apply Z.div_le_mono; [lia|nia].
Qed.

Lemma mul_mono_positive (x y c : float) :
  nn x -> nn y -> nn c -> (fval x <= fval y)%Z -> (0 < fval c < top)%Z ->
  (fval (x * c) <= fval (y * c))%Z.
Proof.
  intros Hx Hy Hc Hxy Fc. pose proof (fval_le_top y Hy) as Hle.
  destruct (Z.eq_dec (fval y) top) as [E|NE].
  - destruct (mul_inf y c Hy Hc E ltac:(lia)) as [_ ->].
    apply fval_le_top. now apply mul_nn.
  - apply mul_mono_finite; trivial; lia.
Qed.

Lemma add_mono (a b c d : float) :
  nn a -> nn b -> nn c -> nn d ->
  (fval a <= fval c)%Z -> (fval b <= fval d)%Z ->
  (fval (a + b) <= fval (c + d))%Z.
Proof.
  intros Ha Hb Hc Hd H1 H2.
  destruct (add_fval a b Ha Hb) as [_ ->].
  destruct (add_fval c d Hc Hd) as [_ ->].
  pose proof (fval_nonneg a). pose proof (fval_nonneg b).
  apply rnd_mono; lia.
Qed.

Lemma round_cents_mono (x y : float) :
  nn x -> nn y -> (fval x <= fval y)%Z ->
  (fval (Math_round (x * 100)%float / 100)
   <= fval (Math_round (y * 100)%float / 100))%Z.
Proof.
  intros Hx Hy H. destruct const_facts as [_ [_ [H100 [F100 _]]]].
  apply div_mono; trivial.
  - apply Math_round_fval. now apply mul_nn.
  - apply Math_round_fval. now apply mul_nn.
  - apply Math_round_mono; try now apply mul_nn.
    now apply mul_mono_positive.
Qed.

(** A falsy number that is not negative is a zero. *)
Lemma or_else_fval (v : float) :
  nn v -> fval (or_else (Some v) 0) = fval v.
Proof.
  intros N. cbn [or_else]. destruct (truthy v) eqn:T; trivial.
  unfold truthy in T. apply negb_false_iff, orb_true_iff in T.
  unfold nn, fval in *. destruct T as [T|T].
  - rewrite eqb_spec in T. change (Prim2SF 0) with (S754_zero false) in *.
    destruct (Prim2SF v) as [s|[]| |[] m e]; try discriminate N; try discriminate T.
    reflexivity.
  - fold (nn v) in N. rewrite (nn_not_nan v N) in T. discriminate T.
Qed.

Section LawnCosts.

Variables (a b mult : number) (rc : RateCard).

Hypothesis Ha : finite_nonneg a.

Hypothesis Hb : finite_nonneg b.

Hypothesis Hab : (fval a <= fval b)%Z.

Hypothesis Hmult : finite_positive mult.

Hypothesis Hbase : finite_nonneg (baseRate rc).

Hypothesis Hfac1 : (1 <=? factor rc) = true.

Hypothesis Hfac2 : (factor rc <? infinity) = true.

Lemma area_cost_mono :
  (fval (Math_round ((a / 1000) * baseRate rc * factor rc * mult * 100)%float / 100)
   <= fval (Math_round ((b / 1000) * baseRate rc * factor rc * mult * 100)%float
            / 100))%Z.
Proof.
  destruct const_facts as [H1000 [F1000 _]].
  destruct (finite_nonneg_nn _ Ha) as [Na Fa].
  destruct (finite_nonneg_nn _ Hb) as [Nb Fb].
  destruct (finite_nonneg_nn _ Hbase) as [Nr Fr].
  destruct (finite_positive_nn _ Hmult) as [Nm Fm].
  destruct (leb_1 _ Hfac1) as [Nf Ff].
  pose proof (ltb_infinity _ Nf Hfac2) as Ff'.
  pose proof (pow2_pos (scale + 1) ltac:(unfold scale; lia)) as Hp.
  assert (F0 : (0 < fval 1000 < top)%Z) by lia.
  pose proof (div_nn a 1000 Na H1000 F0) as Nda.
  pose proof (div_nn b 1000 Nb H1000 F0) as Ndb.
  pose proof (div_finite a 1000 Na H1000 Fa F1000) as Fda.
  pose proof (div_finite b 1000 Nb H1000 Fb F1000) as Fdb.
  destruct (mul_fval (a / 1000) (baseRate rc) Nda Nr Fda Fr) as [N1a _].
  destruct (mul_fval (b / 1000) (baseRate rc) Ndb Nr Fdb Fr) as [N1b _].
  pose proof (mul_nn _ (factor rc) N1a Nf ltac:(lia)) as N2a.
  pose proof (mul_nn _ (factor rc) N1b Nf ltac:(lia)) as N2b.
  apply round_cents_mono; try now apply mul_nn.
  apply mul_mono_positive; trivial.
  apply mul_mono_positive; trivial; [|lia].
  apply mul_mono_finite; trivial.
  apply div_mono; trivial.
Qed.

End LawnCosts.

Lemma tiers_monotone (m f s l m' f' : number) :
  nn m -> nn f -> nn s -> nn l -> nn m' -> nn f' ->
  (fval m <= fval m')%Z -> (fval f <= fval f')%Z ->
  (fval (m + f * 0.25) <= fval (m' + f' * 0.25))%Z
  /\ (fval (m + f + s) <= fval (m' + f' + s))%Z
  /\ (fval ((m + f + s + l) * 1.15) <= fval ((m' + f' + s + l) * 1.15))%Z
  /\ nn (m + f * 0.25) /\ nn (m' + f' * 0.25)
  /\ nn (m + f + s) /\ nn (m' + f' + s)
  /\ nn ((m + f + s + l) * 1.15) /\ nn ((m' + f' + s + l) * 1.15).
Proof.
  intros Nm Nf Ns Nl Nm' Nf' Hm Hf.
  destruct const_facts as [_ [_ [_ [_ [H25 [F25 [H115 [F115 _]]]]]]]].
  assert (Ft : (2 ^ scale < top)%Z).
  { unfold top. apply Z.pow_lt_mono_r; unfold scale; lia. }
  pose proof (pow2_pos scale ltac:(unfold scale; lia)) as Hs.
  pose proof (mul_nn f 0.25 Nf H25 ltac:(lia)) as Nq.
  pose proof (mul_nn f' 0.25 Nf' H25 ltac:(lia)) as Nq'.
  pose proof (mul_mono_positive f f' 0.25 Nf Nf' H25 Hf ltac:(lia)) as Hq.
  destruct (add_fval m f Nm Nf) as [Nmf _].
  destruct (add_fval m' f' Nm' Nf') as [Nmf' _].
  destruct (add_fval (m + f) s Nmf Ns) as [N2 _].
  destruct (add_fval (m' + f') s Nmf' Ns) as [N2' _].
  destruct (add_fval (m + f + s) l N2 Nl) as [N3 _].
  destruct (add_fval (m' + f' + s) l N2' Nl) as [N3' _].
  pose proof (add_mono m f m' f' Nm Nf Nm' Nf' Hm Hf) as Hmf.
  pose proof (add_mono _ s _ s Nmf Ns Nmf' Ns Hmf ltac:(lia)) as H2.
  pose proof (add_mono _ l _ l N2 Nl N2' Nl H2 ltac:(lia)) as H3.
  repeat split; trivial.
  - now apply add_mono.
  - apply mul_mono_positive; trivial. lia.
  - now apply add_fval.
  - now apply add_fval.
  - apply mul_nn; trivial. lia.
  - apply mul_nn; trivial. lia.
Qed.

Lemma price_mono (u v : number) :
  nn u -> nn v -> (fval u <= fval v)%Z ->
  (Math_round u <=? Math_round v) = true
  /\ (Math_round (u / 12) <=? Math_round (v / 12)) = true.
Proof.
  intros Nu Nv H.
  assert (N12 : nn 12) by (vm_compute; reflexivity).
  assert (F12 : (0 < fval 12 < top)%Z)
    by (split; apply Z.ltb_lt; vm_compute; reflexivity).
  pose proof (div_nn u 12 Nu N12 F12) as Ndu.
  pose proof (div_nn v 12 Nv N12 F12) as Ndv.
  split; apply leb_fval; try (apply Math_round_fval; trivial);
    apply Math_round_mono; trivial.
  now apply div_mono.
Qed.

Lemma tiers_not_cheaper (m f s l m' f' : number) :
  nn m -> nn f -> nn s -> nn l -> nn m' -> nn f' ->
  (fval m <= fval m')%Z -> (fval f <= fval f')%Z ->
  Forall2 not_cheaper
    [ {| tier := grass_roots;
         tierName := "Grass Roots";
         annualPrice := Math_round (m + f * 0.25);
         monthlyPrice := Math_round ((m + f * 0.25) / 12);
         breakdown := [ ("mowing", Math_round m);
                        ("leafCleanup", Math_round (f * 0.25)) ] |};
      {| tier := premier;
         tierName := "Premier Lawn";
         annualPrice := Math_round (m + f + s);
         monthlyPrice := Math_round ((m + f + s) / 12);
         breakdown := [ ("mowing", Math_round m);
                        ("leafCleanup", Math_round f);
                        ("seasonal", Math_round s) ] |};
      {| tier := total_landscape;
         tierName := "Total Landscape";
         annualPrice := Math_round ((m + f + s + l) * 1.15);
         monthlyPrice := Math_round ((m + f + s + l) * 1.15 / 12);
         breakdown := [ ("mowing", Math_round m);
                        ("leafCleanup", Math_round f);
                        ("seasonal", Math_round s);
                        ("lights", Math_round l);
                        ("premiumMarkup", Math_round ((m + f + s + l) * 0.15)) ] |} ]
    [ {| tier := grass_roots;
         tierName := "Grass Roots";
         annualPrice := Math_round (m' + f' * 0.25);
         monthlyPrice := Math_round ((m' + f' * 0.25) / 12);
         breakdown := [ ("mowing", Math_round m');
                        ("leafCleanup", Math_round (f' * 0.25)) ] |};
      {| tier := premier;
         tierName := "Premier Lawn";
         annualPrice := Math_round (m' + f' + s);
         monthlyPrice := Math_round ((m' + f' + s) / 12);
         breakdown := [ ("mowing", Math_round m');
                        ("leafCleanup", Math_round f');
                        ("seasonal", Math_round s) ] |};
      {| tier := total_landscape;
         tierName := "Total Landscape";
         annualPrice := Math_round ((m' + f' + s + l) * 1.15);
         monthlyPrice := Math_round ((m' + f' + s + l) * 1.15 / 12);
         breakdown := [ ("mowing", Math_round m');
                        ("leafCleanup", Math_round f');
                        ("seasonal", Math_round s);
                        ("lights", Math_round l);
                        ("premiumMarkup", Math_round ((m' + f' + s + l) * 0.15)) ] |} ].
Proof.
  intros Nm Nf Ns Nl Nm' Nf' Hm Hf.
  destruct (tiers_monotone m f s l m' f' Nm Nf Ns Nl Nm' Nf' Hm Hf)
    as [H1 [H2 [H3 [N1 [N1' [N2 [N2' [N3 N3']]]]]]]].
  repeat constructor; cbn [annualPrice monthlyPrice]; now apply price_mono.
Qed.

(** X17.  A larger lawn is never cheaper.  For a catalog whose entries
    satisfy [baseRate >= 0] and [factor >= 1] and has the four required
    codes, a roofline that is absent or finite and non-negative and a
    combined multiplier that is positive and finite: of two snapshots that
    differ in their lawn only, the one with the larger lawn is quoted, tier
    by tier, an annual and a monthly price that are not lower. *)
Theorem prices_monotone_in_lawn (w : World) (property : Property)
    (rows : list RateCardRow) (a b : number) :
  rate_cards w = Some rows ->
  Forall (fun code => has_active code rows) required_codes ->
  Forall rate_invariant rows ->
  finite_nonneg a -> finite_nonneg b -> (a <=? b) = true ->
  measurement_ok (rooflineFt property) ->
  finite_positive (totalMultiplierOf w property) ->
  exists small large,
    calculateAllTiers w (with_lawn property a) = Ok small
    /\ calculateAllTiers w (with_lawn property b) = Ok large
    /\ Forall2 not_cheaper small large.
Proof.
  intros Hrows Hall Hinv Ha Hb Hab Hroof Hmult.
  unfold required_codes in Hall.
  repeat match goal with
         | H : Forall _ (_ :: _) |- _ =>
             let H1 := fresh "Hc" in
             apply Forall_cons_iff in H; destruct H as [H1 H];
             apply (loaded_card_invariant rows _ Hinv) in H1;
             destruct H1 as [? [H1 [? [? ?]]]]
         end.
  apply or_else_0 in Hroof.
  destruct (finite_nonneg_nn _ Ha) as [Na Fa].
  destruct (finite_nonneg_nn _ Hb) as [Nb Fb].
  apply (leb_fval a b Na Nb) in Hab.
  pose proof (or_else_0 (Some a) Ha) as Ha'.
  pose proof (or_else_0 (Some b) Hb) as Hb'.
  assert (Hab' : (fval (or_else (Some a) 0%float)
                  <= fval (or_else (Some b) 0%float))%Z)
    by (rewrite !or_else_fval by trivial; exact Hab).
  do 2 eexists. split; [|split].
  - apply calculateAllTiers_ok. unfold component_costs.
    rewrite (loadRateCards_Some _ _ Hrows). eexists. split; [reflexivity|].
    rewrite Hc, Hc0, Hc1, Hc2.
    unfold calculateMowingCost, calculateLeafCleanupCost,
      calculateSeasonalPackageCost, calculateLightsCost. cbn [deref bind].
    repeat split; reflexivity.
  - apply calculateAllTiers_ok. unfold component_costs.
    rewrite (loadRateCards_Some _ _ Hrows). eexists. split; [reflexivity|].
    rewrite Hc, Hc0, Hc1, Hc2.
    unfold calculateMowingCost, calculateLeafCleanupCost,
      calculateSeasonalPackageCost, calculateLightsCost. cbn [deref bind].
    repeat split; reflexivity.
  - change (totalMultiplierOf w (with_lawn property a))
      with (totalMultiplierOf w property).
    change (totalMultiplierOf w (with_lawn property b))
      with (totalMultiplierOf w property).
    change (rooflineFt (with_lawn property a)) with (rooflineFt property).
    change (rooflineFt (with_lawn property b)) with (rooflineFt property).
    change (lawnSqft (with_lawn property a)) with (Some a).
    change (lawnSqft (with_lawn property b)) with (Some b).
    apply tiers_not_cheaper;
      try (now apply area_cost_nn); try (now apply area_cost_mono).
    + now apply flat_cost_nn.
    + now apply length_cost_nn.
Qed.

Lemma prices_monotone_in_lawn_witness :
  exists small large,
    calculateAllTiers seed_world (with_lawn scenario_property 8000) = Ok small
    /\ calculateAllTiers seed_world (with_lawn scenario_property 12000) = Ok large
    /\ Forall2 not_cheaper small large.
Proof.
  apply (prices_monotone_in_lawn seed_world scenario_property seed_rate_cards
           8000 12000).
  - reflexivity.
  - repeat constructor; apply has_activeb_spec; vm_compute; reflexivity.
  - exact seed_rate_invariant.
  - split; vm_compute; reflexivity.
  - split; vm_compute; reflexivity.
  - vm_compute; reflexivity.
  - cbn. split; vm_compute; reflexivity.
  - split; vm_compute; reflexivity.
Defined.

(** ** Twelve monthly payments *)

Lemma whole_mul (x y : number) (k j : Z) :
  whole x k -> whole y j -> (k < 2 ^ 53)%Z -> (j < 2 ^ 53)%Z ->
  (k * j < 2 ^ 53)%Z -> whole (x * y) (k * j).
Proof.
  intros [Nx [Vx Kx]] [Ny [Vy Ky]] Hk Hj Hlt.
  pose proof (pow2_pos scale ltac:(unfold scale; lia)) as Hs.
  assert (Ht : (2 ^ 53 * 2 ^ scale < top)%Z).
  { unfold top. rewrite <- Z.pow_add_r by (unfold scale; lia).
    apply Z.pow_lt_mono_r; unfold scale; lia. }
  destruct (mul_fval x y Nx Ny) as [N V]; [rewrite Vx; nia|rewrite Vy; nia|].
  split; [trivial|split; [|nia]].
  rewrite V, Vx, Vy.
  replace (k * 2 ^ scale * (j * 2 ^ scale))%Z
    with (k * j * 2 ^ scale * 2 ^ scale)%Z by ring.
  rewrite Z.div_mul by lia. apply rnd_integer. nia.
Qed.

Lemma sum_bound (a b : number) (i j : Z) :
  nn a -> nn b -> (fval a <= i * 2 ^ scale)%Z -> (fval b <= j * 2 ^ scale)%Z ->
  (i + j < 2 ^ 53)%Z ->
  nn (a + b) /\ (fval (a + b) <= (i + j) * 2 ^ scale)%Z.
Proof.
  intros Na Nb Ha Hb Hlt. destruct (add_fval a b Na Nb) as [N V].
  split; trivial. rewrite V.
  pose proof (fval_nonneg a). pose proof (fval_nonneg b).
  pose proof (pow2_pos scale ltac:(unfold scale; lia)) as Hs.
  rewrite <- (rnd_integer (i + j)) by nia.
  apply rnd_mono; lia.
Qed.

(** The monthly price of an unrounded annual total up to [2^43]: twelve of
    them are within 6 of the annual price. *)
Lemma monthly_within (u : number) :
  nn u -> (fval u <= 8796093022208 * 2 ^ scale)%Z ->
  within (Math_round (u / 12) * 12) (Math_round u) 6.
Proof.
  intros Nu Bu.
  assert (N12 : nn 12) by (vm_compute; reflexivity).
  assert (V12 : fval 12 = (12 * 2 ^ scale)%Z) by (vm_compute; reflexivity).
  assert (W12 : whole 12 12) by (split; [|split]; [exact N12|exact V12|lia]).
  assert (W6 : whole 6 6) by (split; [|split]; [| |lia]; vm_compute; reflexivity).
  pose proof (pow2_pos scale ltac:(unfold scale; lia)) as HU.
  pose proof eps_unit as He. pose proof top_big as Ht.
  pose proof (fval_nonneg u) as H0.
  destruct (div_fval u 12 Nu N12 ltac:(lia) ltac:(rewrite V12; lia)) as [Nd Vd].
  rewrite V12 in Vd.
  pose proof (rndq_sandwich (fval u * 2 ^ scale) (12 * 2 ^ scale)
                ltac:(nia) ltac:(lia)) as [S1 S2].
  rewrite <- Vd in S1, S2.
  rewrite Z.div_mul_cancel_r in S1, S2 by lia.
  pose proof (Z.div_mod (fval u) 12 ltac:(lia)) as Hq.
  pose proof (Z.mod_pos_bound (fval u) 12 ltac:(lia)) as Hr.
  set (q := (fval u / 12)%Z) in *.
  assert (Hq0 : (0 <= q)%Z) by lia.
  pose proof (rnd_error q (44 + scale)
                ltac:(rewrite pow_44; lia) ltac:(unfold scale; lia)) as E1.
  pose proof (rnd_error (q + 1) (44 + scale)
                ltac:(rewrite pow_44; lia) ltac:(unfold scale; lia)) as E2.
  replace (44 + scale - 53)%Z with (scale - 9)%Z in E1, E2 by lia.
  fold eps in E1, E2.
  assert (Bd : (fval (u / 12) <= 8796093022208 * 2 ^ scale)%Z) by lia.
  destruct (round_facts u _ Nu Bu) as [Wa [La [Sa1 Sa2]]].
  destruct (round_facts (u / 12) _ Nd Bd) as [Wm [Lm [Sm1 Sm2]]].
  set (an := half_up (fval u)) in *. set (mo := half_up (fval (u / 12))) in *.
  assert (L1 : (12 * mo <= an + 6)%Z).
  { apply Z.lt_succ_r. apply units_lt. lia. }
  assert (L2 : (an <= 12 * mo + 6)%Z).
  { apply Z.lt_succ_r. apply units_lt. lia. }
  change (2 ^ 53)%Z with 9007199254740992%Z in *.
  apply (within_whole _ _ (mo * 12) an 6 6); trivial;
    try (change (2 ^ 52)%Z with 4503599627370496%Z; lia).
  apply whole_mul; trivial; change (2 ^ 53)%Z with 9007199254740992%Z; lia.
Qed.

(** The unrounded annual totals of moderate costs stay below [2^43]. *)
Lemma annual_totals_bounded (m f s l : number) :
  moderate m -> moderate f -> moderate s -> moderate l ->
  (nn (m + f * 0.25) /\ (fval (m + f * 0.25) <= 8796093022208 * 2 ^ scale)%Z)
  /\ (nn (m + f + s) /\ (fval (m + f + s) <= 8796093022208 * 2 ^ scale)%Z)
  /\ (nn ((m + f + s + l) * 1.15)
      /\ (fval ((m + f + s + l) * 1.15) <= 8796093022208 * 2 ^ scale)%Z).
Proof.
  intros Hm Hf Hs Hl.
  destruct (moderate_fval m Hm) as [Nm Bm].
  destruct (moderate_fval f Hf) as [Nf Bf].
  destruct (moderate_fval s Hs) as [Ns Bs].
  destruct (moderate_fval l Hl) as [Nl Bl].
  destruct (moderate_fval _ (moderate_quarter f Hf)) as [Nq Bq].
  destruct markup_consts as [_ [N115 [C15 [C115 _]]]].
  pose proof (pow2_pos scale ltac:(unfold scale; lia)) as HU.
  pose proof top_big as Ht.
  change (2 ^ 40)%Z with 1099511627776%Z in *.
  assert (P53 : (2 ^ 53 = 9007199254740992)%Z) by reflexivity.
  destruct (sum_bound m (f * 0.25) _ _ Nm Nq (proj2 Bm) (proj2 Bq) ltac:(lia))
    as [N1 B1].
  destruct (sum_bound m f _ _ Nm Nf (proj2 Bm) (proj2 Bf) ltac:(lia)) as [N2a B2a].
  destruct (sum_bound (m + f) s _ _ N2a Ns B2a (proj2 Bs) ltac:(lia)) as [N2 B2].
  destruct (sum_bound (m + f + s) l _ _ N2 Nl B2 (proj2 Bl) ltac:(lia)) as [N3a B3a].
  pose proof (fval_nonneg (m + f + s + l)) as H3.
  destruct (mul_fval (m + f + s + l) 1.15 N3a N115 ltac:(lia) ltac:(lia)) as [N3 V3].
  repeat split; trivial; try lia.
  rewrite V3.
  rewrite <- (rnd_integer 8796093022208) by lia.
  apply rnd_mono.
  - apply Z.div_pos; [|lia]. pose proof (fval_nonneg 1.15). nia.
  - apply Z.div_le_upper_bound; [lia|]. nia.
Qed.

(** X18.  Paying by the month for a year costs within 6 currency units of
    the annual price: when the four component costs are numbers between 0
    and [2^40], twelve times the monthlyPrice of each tier is within 6 of
    its annualPrice. *)
Theorem twelve_months_near_annual (w : World) (property : Property)
    (m f s l : number) :
  component_costs w property m f s l ->
  moderate m -> moderate f -> moderate s -> moderate l ->
  exists tiers,
    calculateAllTiers w property = Ok tiers
    /\ Forall (fun t => within (monthlyPrice t * 12) (annualPrice t) 6) tiers.
Proof.
  intros H Hm Hf Hs Hl. eexists.
  split; [apply calculateAllTiers_ok; exact H|].
  destruct (annual_totals_bounded m f s l Hm Hf Hs Hl)
    as [[N1 B1] [[N2 B2] [N3 B3]]].
  repeat constructor; cbn [monthlyPrice annualPrice]; now apply monthly_within.
Qed.

Lemma twelve_months_near_annual_witness :
  exists tiers,
    calculateAllTiers seed_world scenario_property = Ok tiers
    /\ Forall (fun t => within (monthlyPrice t * 12) (annualPrice t) 6) tiers.
Proof.
  apply (twelve_months_near_annual seed_world scenario_property
           1771.88 157.5 853.13 590.63).
  - eexists. split; [reflexivity|]. repeat split; vm_compute; reflexivity.
  - split; vm_compute; reflexivity.
  - split; vm_compute; reflexivity.
  - split; vm_compute; reflexivity.
  - split; vm_compute; reflexivity.
Defined.

(** ** Strands of lights *)

(** The quotient of two whole numbers, rounded up: the least whole number
    of [c]s that covers [n]. *)
Lemma ceil_div_whole (r cf : number) (n c : Z) :
  whole r n -> whole cf c -> (n <= 2 ^ 40)%Z -> (1 <= c <= 256)%Z ->
  exists q : Z,
    whole (Math_ceil (r / cf)) q /\ (c * (q - 1) < n <= c * q)%Z.
Proof.
  intros [Nr [Vr Hn0]] [Nc [Vc _]] Hn Hc.
  pose proof (pow2_pos scale ltac:(unfold scale; lia)) as HS.
  pose proof eps_unit as He. pose proof top_big as Ht.
  assert (P40 : (2 ^ 40 = 1099511627776)%Z) by reflexivity.
  assert (H256 : (2 ^ scale = 256 * 2 ^ (scale - 8))%Z) by reflexivity.
  pose proof (pow2_pos (scale - 8) ltac:(unfold scale; lia)) as HS8.
  assert (He8 : (2 * eps = 2 ^ (scale - 8))%Z) by reflexivity.
  destruct (div_fval r cf Nr Nc ltac:(rewrite Vr; nia) ltac:(rewrite Vc; nia))
    as [Nd Vd].
  rewrite Vr, Vc in Vd.
  destruct (Math_ceil_fval (r / cf) Nd) as [Nq Vq].
  pose proof (up_spec (fval (r / cf))) as Hup.
  set (F := fval (r / cf)) in *. set (q := up F) in *.
  pose proof (Z.div_mod n c ltac:(lia)) as Hdm.
  pose proof (Z.mod_pos_bound n c ltac:(lia)) as Hj.
  set (k := (n / c)%Z) in *. set (j := (n mod c)%Z) in *.
  assert (Hk0 : (0 <= k)%Z) by (subst k; apply Z.div_pos; lia).
  assert (Hkn : (k <= n)%Z) by nia.
  destruct (Z.eq_dec j 0) as [J0|J0].
  - (* an exact quotient *)
    assert (Hex : (n * 2 ^ scale * 2 ^ scale = k * 2 ^ scale * (c * 2 ^ scale))%Z)
      by (rewrite Hdm, J0; ring).
    rewrite Hex, rndq_exact in Vd by nia.
    rewrite rnd_integer in Vd
      by (change (2 ^ 53)%Z with 9007199254740992%Z; lia).
    assert (Eq : q = k) by (subst q; rewrite Vd; apply up_integer).
    exists k. rewrite <- Eq. split; [split; [|split]; trivial; lia|]. nia.
  - (* a quotient strictly between [k] and [k + 1] *)
    pose proof (rndq_sandwich (n * 2 ^ scale * 2 ^ scale) (c * 2 ^ scale)
                  ltac:(nia) ltac:(nia)) as [S1 S2].
    rewrite <- Vd in S1, S2.
    rewrite Z.div_mul_cancel_r in S1, S2 by lia.
    assert (Hq0 : (n * 2 ^ scale / c = k * 2 ^ scale + j * 2 ^ scale / c)%Z).
    { rewrite Hdm at 1.
      replace ((c * k + j) * 2 ^ scale)%Z
        with (k * 2 ^ scale * c + j * 2 ^ scale)%Z by ring.
      rewrite Z.div_add_l by lia. reflexivity. }
    assert (Hlo : (2 ^ (scale - 8) <= j * 2 ^ scale / c)%Z).
    { apply Z.div_le_lower_bound; [lia|]. nia. }
    assert (Hhi : (j * 2 ^ scale / c <= 255 * 2 ^ (scale - 8))%Z).
    { apply Z.div_le_upper_bound; [lia|]. nia. }
    set (t := (j * 2 ^ scale / c)%Z) in *.
    rewrite Hq0 in S1, S2.
    pose proof (rnd_error (k * 2 ^ scale + t) (44 + scale)
                  ltac:(rewrite pow_44; nia) ltac:(unfold scale; lia)) as E1.
    pose proof (rnd_error (k * 2 ^ scale + t + 1) (44 + scale)
                  ltac:(rewrite pow_44; nia) ltac:(unfold scale; lia)) as E2.
    replace (44 + scale - 53)%Z with (scale - 9)%Z in E1, E2 by lia.
    fold eps in E1, E2.
    assert (HF : (k * 2 ^ scale < F < (k + 1) * 2 ^ scale)%Z) by lia.
    assert (Eq : q = (k + 1)%Z) by nia.
    exists (k + 1)%Z. rewrite <- Eq. split; [split; [|split]; trivial; lia|]. nia.
Qed.

(** X19.  The strands of lights cover the roofline.  When LIGHTS_INSTALL
    is selected and the roofline the list is made for ([rooflineFt], or 100
    when it is absent or zero) is a whole number up to [2^40], the list has
    a whole number of 25 ft strands that is enough for the roofline, and
    one strand fewer would not be. *)
Theorem lights_strands_cover_roofline (property : Property)
    (serviceType : ServiceType) (selectedUpsells : list string) (n : Z) :
  includes selectedUpsells "LIGHTS_INSTALL" = true ->
  whole (or_else (rooflineFt property) 100) n -> (n <= 2 ^ 40)%Z ->
  exists (strands : number) (q : Z),
    In {| item := "LED Christmas Lights"; quantity := strands;
          unit := "strands (25ft)" |}
       (generateMaterialsList property serviceType selectedUpsells)
    /\ whole strands q
    /\ (25 * (q - 1) < n <= 25 * q)%Z.
Proof.
  intros Hsel Hn Hle.
  assert (W25 : whole 25 25)
    by (split; [|split]; [| |lia]; vm_compute; reflexivity).
  destruct (ceil_div_whole _ 25 n 25 Hn W25 Hle ltac:(lia)) as [q [Wq Hq]].
  exists (Math_ceil (or_else (rooflineFt property) 100 / 25)), q.
  split; [|split; trivial].
  unfold generateMaterialsList. rewrite Hsel. unfold push_items at 1.
  apply in_or_app. right. left. reflexivity.
Qed.

Lemma lights_strands_cover_roofline_witness :
  exists (strands : number) (q : Z),
    In {| item := "LED Christmas Lights"; quantity := strands;
          unit := "strands (25ft)" |}
       (generateMaterialsList scenario_property mowing ["LIGHTS_INSTALL"])
    /\ whole strands q
    /\ (25 * (q - 1) < 150 <= 25 * q)%Z.
Proof.
  apply (lights_strands_cover_roofline scenario_property mowing ["LIGHTS_INSTALL"] 150).
  - reflexivity.
  - split; [|split]; [| |lia]; vm_compute; reflexivity.
  - lia.
Defined.

(** ** Estimated areas *)

(** The three ratios add up to two fifths, give or take a thousandth. *)
Lemma ratio_consts :
  nn 0.18 /\ nn 0.12 /\ nn 0.10
  /\ (fval 0.18 <= 2 ^ scale)%Z /\ (fval 0.12 <= 2 ^ scale)%Z
  /\ (fval 0.10 <= 2 ^ scale)%Z
  /\ (1024 * (fval 0.18 + fval 0.12 + fval 0.10) <= 410 * 2 ^ scale)%Z.
Proof.
  unfold nn.
  repeat match goal with
         | |- _ /\ _ => split
         | |- (_ <= _)%Z => apply Z.leb_le
         end; vm_compute; reflexivity.
Qed.

(** A share of a whole lot, rounded. *)
Lemma share_facts (lot c : number) (n : Z) :
  whole lot n -> (n <= 2 ^ 40)%Z -> nn c -> (fval c <= 2 ^ scale)%Z ->
  exists k : Z,
    whole (Math_round (lot * c)) k
    /\ (k <= n)%Z
    /\ (2 * (2 ^ scale * k) <= 2 * (n * fval c) + eps + 2 ^ scale)%Z
    /\ (n = 0 -> k = 0)%Z.
Proof.
  intros [Nl [Vl Hn0]] Hn Nc Hc.
  pose proof (pow2_pos scale ltac:(unfold scale; lia)) as HS.
  pose proof eps_unit as He. pose proof top_big as Ht.
  pose proof (fval_nonneg c) as Hc0.
  assert (P40 : (2 ^ 40 = 1099511627776)%Z) by reflexivity.
  assert (Hv : (fval lot * fval c / 2 ^ scale = n * fval c)%Z).
  { rewrite Vl. replace (n * 2 ^ scale * fval c)%Z with (n * fval c * 2 ^ scale)%Z by ring.
    apply Z.div_mul. lia. }
  destruct (mul_err lot c Nl Nc) as [Np Ep]; try (rewrite ?Vl; nia).
  { rewrite Hv. nia. }
  rewrite Hv in Ep.
  assert (Bp : (fval (lot * c) <= n * 2 ^ scale)%Z).
  { destruct (mul_fval lot c Nl Nc ltac:(rewrite Vl; nia) ltac:(nia)) as [_ V].
    rewrite V, Hv. rewrite <- (rnd_integer n)
      by (change (2 ^ 53)%Z with 9007199254740992%Z; lia).
    apply rnd_mono; nia. }
  destruct (round_facts (lot * c) n Np Bp) as [W [[L0 L1] [S1 S2]]].
  exists (half_up (fval (lot * c))).
  split; [exact W|]. split; [lia|]. split; [lia|].
  intros E. rewrite E in *. lia.
Qed.

(** X20.  The estimated areas share out the lot.  For a lot of a whole
    number of square feet up to [2^40], the lawn, bed and driveway areas
    are whole numbers, and together with the building footprint, the
    rounded 18% of the lot, they add up to the lot exactly. *)
Theorem estimateLawnArea_partition (lotSizeSqft : number) (n : Z) :
  whole lotSizeSqft n -> (n <= 2 ^ 40)%Z ->
  exists (lawn bed driveway : number) (l s d b : Z),
    PropertyMeasurements.lawnSqft (estimateLawnArea lotSizeSqft) = Some lawn
    /\ PropertyMeasurements.bedSqft (estimateLawnArea lotSizeSqft) = Some bed
    /\ PropertyMeasurements.drivewaySquft (estimateLawnArea lotSizeSqft)
       = Some driveway
    /\ whole lawn l /\ whole bed s /\ whole driveway d
    /\ whole (Math_round (lotSizeSqft * 0.18)) b
    /\ (l + s + d + b = n)%Z.
Proof.
  intros Wn Hn.
  destruct ratio_consts as [N18 [N12 [N10 [C18 [C12 [C10 Csum]]]]]].
  destruct (share_facts lotSizeSqft 0.18 n Wn Hn N18 C18) as [b [Wb [Lb [Sb Zb]]]].
  destruct (share_facts lotSizeSqft 0.12 n Wn Hn N12 C12) as [d [Wd [Ld [Sd Zd]]]].
  destruct (share_facts lotSizeSqft 0.10 n Wn Hn N10 C10) as [s [Ws [Ls [Ss Zs]]]].
  pose proof (pow2_pos scale ltac:(unfold scale; lia)) as HS.
  pose proof eps_unit as He.
  assert (P40 : (2 ^ 40 = 1099511627776)%Z) by reflexivity.
  assert (P53 : (2 ^ 53 = 9007199254740992)%Z) by reflexivity.
  pose proof Wn as [_ [_ Hn0]].
  pose proof Wb as [_ [_ Hb0]]. pose proof Wd as [_ [_ Hd0]].
  pose proof Ws as [_ [_ Hs0]].
  assert (Hsum : (b + d + s <= n)%Z).
  { destruct (Z.eq_dec n 0) as [E|NZ]; [rewrite (Zb E), (Zd E), (Zs E); lia|].
    apply Z.lt_succ_r. apply units_lt.
    assert (Hn18 : (1024 * (n * fval 0.18 + n * fval 0.12 + n * fval 0.10)
                    <= 410 * (2 ^ scale * n))%Z) by nia.
    assert (Hn1 : (2 ^ scale <= 2 ^ scale * n)%Z) by nia.
    lia. }
  assert (W1 : whole (lotSizeSqft - Math_round (lotSizeSqft * 0.18)) (n - b))
    by (apply whole_sub; trivial; lia).
  assert (W2 : whole (lotSizeSqft - Math_round (lotSizeSqft * 0.18)
                      - Math_round (lotSizeSqft * 0.12)) (n - b - d))
    by (apply whole_sub; trivial; lia).
  assert (W3 : whole (lotSizeSqft - Math_round (lotSizeSqft * 0.18)
                      - Math_round (lotSizeSqft * 0.12)
                      - Math_round (lotSizeSqft * 0.10)) (n - b - d - s))
    by (apply whole_sub; trivial; lia).
  apply whole_round_whole in W3.
  do 3 eexists. exists (n - b - d - s)%Z, s, d, b.
  unfold estimateLawnArea.
  cbn [PropertyMeasurements.lawnSqft PropertyMeasurements.bedSqft
       PropertyMeasurements.drivewaySquft].
  repeat split; try reflexivity; try apply W3; try apply Ws; try apply Wd;
    try apply Wb; lia.
Qed.

Lemma estimateLawnArea_partition_witness :
  exists (lawn bed driveway : number) (l s d b : Z),
    PropertyMeasurements.lawnSqft (estimateLawnArea 10000) = Some lawn
    /\ PropertyMeasurements.bedSqft (estimateLawnArea 10000) = Some bed
    /\ PropertyMeasurements.drivewaySquft (estimateLawnArea 10000)
       = Some driveway
    /\ whole lawn l /\ whole bed s /\ whole driveway d
    /\ whole (Math_round (10000 * 0.18)) b
    /\ (l + s + d + b = 10000)%Z.
Proof.
  apply (estimateLawnArea_partition 10000 10000).
  - split; [|split]; [| |lia]; vm_compute; reflexivity.
  - lia.
Defined.

(** ** Selecting upsells *)

Lemma includes_spec (l : list string) (code : string) :
  includes l code = true <-> In code l.
Proof.
  unfold includes. rewrite existsb_exists. split.
  - intros [x [Hin E]]. apply String.eqb_eq in E. now subst.
  - intros H. exists code. split; trivial. apply String.eqb_refl.
Qed.

Lemma includes_filter (l : list string) (keep : string -> bool) (code : string) :
  includes (filter keep l) code = includes l code && keep code.
Proof.
  apply eq_true_iff_eq. rewrite andb_true_iff, !includes_spec, filter_In. tauto.
Qed.

Lemma includes_snoc (l : list string) (c code : string) :
  includes (l ++ [c]) code = includes l code || String.eqb code c.
Proof.
  unfold includes. rewrite existsb_app. cbn [existsb]. now rewrite orb_false_r.
Qed.

(** Toggling a code flips whether it is selected and leaves the other
    codes as they were. *)
Lemma includes_toggle (prev : list string) (serviceCode code : string) :
  includes (toggleUpsell prev serviceCode) code
  = if String.eqb code serviceCode then negb (includes prev code)
    else includes prev code.
Proof.
  unfold toggleUpsell. destruct (includes prev serviceCode) eqn:E.
  - rewrite includes_filter. destruct (String.eqb_spec code serviceCode) as [->|N].
    + rewrite E. reflexivity.
    + cbn [negb]. now rewrite andb_true_r.
  - rewrite includes_snoc. destruct (String.eqb_spec code serviceCode) as [->|N].
    + rewrite E. reflexivity.
    + now rewrite orb_false_r.
Qed.

Lemma calculateTotal_ext (quote : option Quote.t) (upsells : list Upsell)
    (selected selected' : list string) :
  (forall code, includes selected code = includes selected' code) ->
  calculateTotal quote upsells selected = calculateTotal quote upsells selected'.
Proof.
  intros H. unfold calculateTotal. destruct quote as [q|]; trivial.
  do 2 f_equal. apply filter_ext. intros u. apply H.
Qed.

(** X21.  In the quote form, toggling an upsell flips whether it is
    selected, leaves every other code as it was and never makes a
    selection list a code twice; toggling the same upsell twice brings
    back the total that was shown. *)
Theorem toggleUpsell_round_trip (quote : option Quote.t) (upsells : list Upsell)
    (prev : list string) (serviceCode : string) :
  (forall code,
     includes (toggleUpsell prev serviceCode) code
     = if String.eqb code serviceCode then negb (includes prev code)
       else includes prev code)
  /\ (NoDup prev -> NoDup (toggleUpsell prev serviceCode))
  /\ calculateTotal quote upsells
       (toggleUpsell (toggleUpsell prev serviceCode) serviceCode)
     = calculateTotal quote upsells prev.
Proof.
  split; [|split].
  - intros code. apply includes_toggle.
  - intros ND. unfold toggleUpsell. destruct (includes prev serviceCode) eqn:E.
    + now apply NoDup_filter.
    + apply NoDup_app; trivial.
      * repeat constructor. intros [].
      * intros x Hx [<-|[]]. apply includes_spec in Hx. congruence.
  - apply calculateTotal_ext. intros code. rewrite !includes_toggle.
    destruct (String.eqb code serviceCode); trivial. apply negb_involutive.
Qed.
